(** * Medusa: convolution kernels, cubic-spline efficiency and the phi_s signal PDF

    A shallow embedding of

    - [medusa/Functions.h] (namespace [medusa::functions]),
    - [medusa/generic/CubicSpline.h] (class [CubicSpline<nKnots>]),
    - [medusa/phi_s/phis_signal/PhisSignal.h] (class [PhisSignal<B0sbar,...>]).

    The C++ code computes on [double].  Every function is embedded once, over
    an arithmetic interface [Arith], and read at two instances:

    - [binary64]: IEEE 754 double precision (Rocq's primitive floats), the
      arithmetic the compiled code runs on, with infinities, NaN and rounding;
    - [exact]: the real numbers, i.e. the same expressions without rounding.

    The transcendental functions of <cmath> and of the Faddeeva package form a
    second interface, [Libm].  Over [binary64] they stay abstract (every
    theorem holds for any implementation); over the reals they are the
    mathematical functions. *)

From Stdlib Require Import ZArith QArith Floats Reals List Bool Lia Lra.
Import ListNotations.

Set Implicit Arguments.

#[local] Close Scope R_scope.
#[local] Close Scope Q_scope.
#[local] Open Scope nat_scope.

(** ** Arithmetic interfaces *)

(** Operations of the C++ type [double] used by the sources. [lit] reads a
    decimal literal of the source text; [sqrt2] is the macro of Functions.h
    ([hydra::math_constants::sqrt2]). *)
Class Arith (T : Type) := {
  lit   : Q -> T;
  sqrt2 : T;
  d_add : T -> T -> T;
  d_sub : T -> T -> T;
  d_mul : T -> T -> T;
  d_div : T -> T -> T;
  d_opp : T -> T;
  d_fabs : T -> T;
  d_sqrt : T -> T;
  d_ltb : T -> T -> bool;
  d_leb : T -> T -> bool
}.

Arguments lit {T _} _%_Q.

(** <cmath> ([::exp], [::cosh], [::sinh], [::cos], [::sin]) and
    medusa/Faddeeva.h ([faddeeva::erf], [faddeeva::erfc]) on [double]. *)
Class Libm (T : Type) := {
  m_exp  : T -> T;
  m_cosh : T -> T;
  m_sinh : T -> T;
  m_cos  : T -> T;
  m_sin  : T -> T;
  m_erf  : T -> T;
  m_erfc : T -> T
}.

(** [hydra::complex<double>] as Functions.h uses it: construction from real
    and imaginary part, [real()], the arithmetic operators, [hydra::exp] and
    the complex [faddeeva::erfc].  A real operand of a mixed expression is
    promoted with [c_of_real]. *)
Class ComplexOps (T C : Type) := {
  c_mk      : T -> T -> C;
  c_real    : C -> T;
  c_of_real : T -> C;
  c_add  : C -> C -> C;
  c_sub  : C -> C -> C;
  c_mul  : C -> C -> C;
  c_div  : C -> C -> C;
  c_exp  : C -> C;
  c_erfc : C -> C
}.

Declare Scope dbl_scope.
Delimit Scope dbl_scope with dbl.
Infix "+" := d_add : dbl_scope.
Infix "-" := d_sub : dbl_scope.
Infix "*" := d_mul : dbl_scope.
Infix "/" := d_div : dbl_scope.
Notation "- x" := (d_opp x) : dbl_scope.
Infix "<?" := d_ltb : dbl_scope.
Infix "<=?" := d_leb : dbl_scope.
(** C++ writes [x > y] and [x >= y]; both are the mirrored comparison. *)
Notation "x >? y" := (d_ltb y x) (only parsing) : dbl_scope.
Notation "x >=? y" := (d_leb y x) (only parsing) : dbl_scope.

Declare Scope cplx_scope.
Delimit Scope cplx_scope with cplx.
Infix "+" := c_add : cplx_scope.
Infix "-" := c_sub : cplx_scope.
Infix "*" := c_mul : cplx_scope.
Infix "/" := c_div : cplx_scope.

(** *** IEEE 754 binary64 *)

(** A non-negative decimal literal [n/d] with [n], [d] below 2^53 is the
    correctly rounded quotient of two exactly represented integers, which is
    the double a C++ compiler reads the literal as. *)
Definition Q2F (q : Q) : float :=
  match Qnum q with
  | Zneg p => PrimFloat.opp (PrimFloat.div (of_uint63 (Uint63.of_Z (Zpos p)))
                                           (of_uint63 (Uint63.of_Z (Zpos (Qden q)))))
  | n => PrimFloat.div (of_uint63 (Uint63.of_Z n)) (of_uint63 (Uint63.of_Z (Zpos (Qden q))))
  end.

(** Modelled from the spec: [hydra::math_constants::sqrt2] is not part of the
    sources; the spec uses it as the square root of 2 (4.2). In double
    precision that is the double nearest to it, 0x1.6a09e667f3bcdp+0. *)
Definition sqrt2_binary64 : float := 0x1.6a09e667f3bcdp+0%float.

#[export] Instance binary64 : Arith float := {
  lit := Q2F;
  sqrt2 := sqrt2_binary64;
  d_add := PrimFloat.add;
  d_sub := PrimFloat.sub;
  d_mul := PrimFloat.mul;
  d_div := PrimFloat.div;
  d_opp := PrimFloat.opp;
  d_fabs := PrimFloat.abs;
  d_sqrt := PrimFloat.sqrt;
  d_ltb := PrimFloat.ltb;
  d_leb := PrimFloat.leb
}.

(** *** Exact (real) arithmetic *)

Definition Rltb (x y : R) : bool := if Rlt_dec x y then true else false.
Definition Rleb (x y : R) : bool := if Rle_dec x y then true else false.

#[export] Instance exact : Arith R := {
  lit := Q2R;
  sqrt2 := sqrt 2%R;
  d_add := Rplus;
  d_sub := Rminus;
  d_mul := Rmult;
  d_div := Rdiv;
  d_opp := Ropp;
  d_fabs := Rabs;
  d_sqrt := sqrt;
  d_ltb := Rltb;
  d_leb := Rleb
}.

(** Modelled from the spec: medusa/Faddeeva.h is not part of the sources; the
    spec (4.1) fixes its real entry points as the error function and the
    complementary error function. Over the reals these are
    [erf x = 2/sqrt(pi) * int_0^x exp(-t^2) dt] and [erfc x = 1 - erf x]. *)
Definition gauss (t : R) : R := exp (- (t * t))%R.

Lemma gauss_continuous : forall t, continuity_pt gauss t.
Proof.
  intro t. apply derivable_continuous_pt. unfold gauss. reg.
Qed.

Lemma gauss_integrable (a b : R) : Riemann_integrable gauss a b.
Proof.
  destruct (Rle_dec a b) as [Hab|Hab].
  - apply continuity_implies_RiemannInt; [exact Hab | intros; apply gauss_continuous].
  - apply RiemannInt_P1, continuity_implies_RiemannInt;
      [lra | intros; apply gauss_continuous].
Defined.

Definition Rerf (x : R) : R := (2 / sqrt PI * RiemannInt (gauss_integrable 0 x))%R.
Definition Rerfc (x : R) : R := (1 - Rerf x)%R.

#[export] Instance exact_libm : Libm R := {
  m_exp := exp;
  m_cosh := cosh;
  m_sinh := sinh;
  m_cos := cos;
  m_sin := sin;
  m_erf := Rerf;
  m_erfc := Rerfc
}.

(** ** medusa/Functions.h *)

Module functions.
Section Kernels.
Context {T : Type} {AT : Arith T} {LM : Libm T}.
Local Open Scope dbl_scope.

(** Convolution of exp(-a*t)*cosh(b*t) or exp(-a*t)*sinh(b*t) with the
    Gaussian [tag > 0 -> cosh | tag < 0 -> sinh]. *)
Definition Convoluted_exp_sinhcosh (time a b mu sigma : T) (tag : Z) : T :=
  let x := (time - mu) / (sigma * sqrt2) in
  let z1 := (a - b) * sigma / sqrt2 in
  let z2 := (a + b) * sigma / sqrt2 in
  let faddeeva_z1 := m_exp (z1 * z1 - lit 2 * z1 * x) * m_erfc (z1 - x) in
  let faddeeva_z2 := m_exp (z2 * z2 - lit 2 * z2 * x) * m_erfc (z2 - x) in
  let Convolution := lit 0 in
  let Convolution :=
    if (0 <? tag)%Z then lit 0.25 * (faddeeva_z1 + faddeeva_z2) else Convolution in
  let Convolution :=
    if (tag <? 0)%Z then lit 0.25 * (faddeeva_z1 - faddeeva_z2) else Convolution in
  Convolution.

(** The same convolution integrated in time over [LowerLimit, UpperLimit].
    The parameter [time] is declared and never read. *)
Definition Integrated_convoluted_exp_sinhcosh
    (time a b mu sigma LowerLimit UpperLimit : T) (tag : Z) : T :=
  let x1 := (LowerLimit - mu) / (sigma * sqrt2) in
  let x2 := (UpperLimit - mu) / (sigma * sqrt2) in
  let z1 := (a - b) * sigma / sqrt2 in
  let z2 := (a + b) * sigma / sqrt2 in
  let cumulative_z1 :=
    (m_erf x2 - m_exp (z1 * z1 - lit 2 * z1 * x2) * m_erfc (z1 - x2)
     - (m_erf x1 - m_exp (z1 * z1 - lit 2 * z1 * x1) * m_erfc (z1 - x1))) / z1 in
  let cumulative_z2 :=
    (m_erf x2 - m_exp (z2 * z2 - lit 2 * z2 * x2) * m_erfc (z2 - x2)
     - (m_erf x1 - m_exp (z2 * z2 - lit 2 * z2 * x1) * m_erfc (z2 - x1))) / z2 in
  let Integrated_convolution := lit 0 in
  let Integrated_convolution :=
    if (0 <? tag)%Z then cumulative_z1 + cumulative_z2 else Integrated_convolution in
  let Integrated_convolution :=
    if (tag <? 0)%Z then cumulative_z1 - cumulative_z2 else Integrated_convolution in
  Integrated_convolution.

(** Convolution of exp(-a*t)*cos(b*t) or exp(-a*t)*sin(b*t) with the
    Gaussian, integrated in time [tag > 0 -> cos | tag < 0 -> sin].
    Again [time] is never read. *)
Definition Integrated_convoluted_exp_sincos {C : Type} {CO : ComplexOps T C}
    (time a b mu sigma LowerLimit UpperLimit : T) (tag : Z) : T :=
  let I : C := c_mk (lit 0.0) (lit 1.0) in
  let x1 := (LowerLimit - mu) / (sigma * sqrt2) in
  let x2 := (UpperLimit - mu) / (sigma * sqrt2) in
  let z1 : C := c_mk (a * sigma / sqrt2) (- b * sigma / sqrt2) in
  let z2 : C := c_mk (a * sigma / sqrt2) (b * sigma / sqrt2) in
  let r := c_of_real in
  let cumulative_z1 : C :=
    (r (m_erf x2) - c_exp (z1 * z1 - r (lit 2) * z1 * r x2) * c_erfc (z1 - r x2)
     - (r (m_erf x1) - c_exp (z1 * z1 - r (lit 2) * z1 * r x1) * c_erfc (z1 - r x1)))%cplx in
  let cumulative_z2 : C :=
    (r (m_erf x2) - c_exp (z2 * z2 - r (lit 2) * z2 * r x2) * c_erfc (z2 - r x2)
     - (r (m_erf x1) - c_exp (z2 * z2 - r (lit 2) * z2 * r x1) * c_erfc (z2 - r x1)))%cplx in
  let result : C := r (lit 0) in
  let result :=
    if (0 <? tag)%Z then (cumulative_z1 / z1 + cumulative_z2 / z2)%cplx else result in
  let result :=
    if (tag <? 0)%Z then ((cumulative_z1 / z1 - cumulative_z2 / z2) / I)%cplx else result in
  let Integrated_convolution := c_real result in
  Integrated_convolution.

End Kernels.
End functions.

(** ** medusa/generic/CubicSpline.h *)

Module CubicSpline.
Section Spline.
Context {T : Type} {AT : Arith T}.
Local Open Scope dbl_scope.

(** The template parameter: number of knots. The constructor reads
    [knots[nKnots-1]] and [AS[.][nKnots-2]], so the class is used with
    [nKnots >= 2]. *)
Variable nKnots : nat.

(** The attributes of the class. *)
Record state := {
  factorial : list Z;        (* int factorial[4] *)
  u : list T;                (* double u[nKnots+6] *)
  AS : list (list T);        (* double AS[4][nKnots] *)
  NegativePart : bool;
  xNegative : T
}.

(** Array reads. *)
Definition at_ (l : list T) (i : nat) : T := nth i l (lit 0).
Definition GetOverCoeff (s : state) (i j : nat) : T := at_ (nth i (AS s) []) j.

Section Constructor.
(** [const double (&knots)[nKnots]] and the [nKnots+2] spline coefficients.
    [xNegative] is assigned only in the negative branch; [uninit] is what
    the member holds otherwise. *)
Variables (knots SplineCoefficients : list T) (uninit : T).

Definition ctor_u : list T :=
  [at_ knots 0; at_ knots 0; at_ knots 0]
  ++ map (fun i => at_ knots i) (seq 0 nKnots)
  ++ [at_ knots (nKnots - 1); at_ knots (nKnots - 1); at_ knots (nKnots - 1)].

Let U (i : nat) : T := at_ ctor_u i.
Let b (i : nat) : T := at_ SplineCoefficients i.

(** Prefactors. *)
Definition P (i : nat) : T := (U (i+4) - U (i+1)) * (U (i+4) - U (i+2)) * (U (i+4) - U (i+3)).
Definition Q (i : nat) : T := (U (i+5) - U (i+2)) * (U (i+4) - U (i+2)) * (U (i+4) - U (i+3)).
Definition R (i : nat) : T := (U (i+5) - U (i+3)) * (U (i+5) - U (i+2)) * (U (i+4) - U (i+3)).
Definition S (i : nat) : T := (U (i+6) - U (i+3)) * (U (i+5) - U (i+3)) * (U (i+4) - U (i+3)).

(** Coefficients of the normal polynomial: [a0[k][i]] .. [a3[k][i]]. *)
Definition a0 (k i : nat) : T :=
  match k with
  | 0 => U (i+4) * U (i+4) * U (i+4) / P i
  | 1 => - U (i+1) * U (i+4) * U (i+4) / P i - U (i+2) * U (i+4) * U (i+5) / Q i
         - U (i+3) * U (i+5) * U (i+5) / R i
  | 2 => U (i+2) * U (i+2) * U (i+4) / Q i + U (i+2) * U (i+3) * U (i+5) / R i
         + U (i+3) * U (i+3) * U (i+6) / S i
  | _ => - U (i+3) * U (i+3) * U (i+3) / S i
  end.

Definition a1 (k i : nat) : T :=
  match k with
  | 0 => lit (-3) * U (i+4) * U (i+4) / P i
  | 1 => (lit 2 * U (i+1) * U (i+4) + U (i+4) * U (i+4)) / P i
         + (U (i+2) * U (i+4) + U (i+2) * U (i+5) + U (i+4) * U (i+5)) / Q i
         + (lit 2 * U (i+3) * U (i+5) + U (i+5) * U (i+5)) / R i
  | 2 => - (lit 2 * U (i+2) * U (i+4) + U (i+2) * U (i+2)) / Q i
         - (U (i+2) * U (i+3) + U (i+2) * U (i+5) + U (i+3) * U (i+5)) / R i
         - (lit 2 * U (i+3) * U (i+6) + U (i+3) * U (i+3)) / S i
  | _ => lit 3 * U (i+3) * U (i+3) / S i
  end.

Definition a2 (k i : nat) : T :=
  match k with
  | 0 => lit 3 * U (i+4) / P i
  | 1 => - (lit 2 * U (i+4) + U (i+1)) / P i
         - (U (i+2) + U (i+4) + U (i+5)) / Q i
         - (lit 2 * U (i+5) + U (i+3)) / R i
  | 2 => (lit 2 * U (i+2) + U (i+4)) / Q i
         + (U (i+2) + U (i+5) + U (i+3)) / R i
         + (lit 2 * U (i+3) + U (i+6)) / S i
  | _ => lit (-3) * U (i+3) / S i
  end.

Definition a3 (k i : nat) : T :=
  match k with
  | 0 => lit (-1) / P i
  | 1 => lit 1 / P i + lit 1 / Q i + lit 1 / R i
  | 2 => lit (-1) / Q i - lit 1 / R i - lit 1 / S i
  | _ => lit 1 / S i
  end.

(** [if(std::fabs(AS[r][i])<1e-9) AS[r][i]=0;] *)
Definition snap (x : T) : T := if d_fabs x <? lit 1e-9 then lit 0 else x.

(** Polynomial coefficients of interval [i < nKnots-1], row [r] of [AS]. *)
Definition AS_inner (r i : nat) : T :=
  let a := match r with 0 => a0 | 1 => a1 | 2 => a2 | _ => a3 end in
  snap (b i * a 0 i + b (i+1) * a 1 i + b (i+2) * a 2 i + b (i+3) * a 3 i).

(** After the last knot: linear extrapolation from interval [nKnots-2]. *)
Definition AS_last (r : nat) : T :=
  let v := U (nKnots + 2) in
  let p := (nKnots - 2)%nat in
  let AS1 := AS_inner 1 p + lit 2 * AS_inner 2 p * v + lit 3 * AS_inner 3 p * v * v in
  match r with
  | 0 => AS_inner 0 p + AS_inner 1 p * v + AS_inner 2 p * v * v
         + AS_inner 3 p * v * v * v - AS1 * v
  | 1 => AS1
  | _ => lit 0
  end.

Definition ctor_AS : list (list T) :=
  map (fun r => map (AS_inner r) (seq 0 (nKnots - 1)) ++ [AS_last r]) (seq 0 4).

(** [CubicSpline(const double (&knots)[nKnots], SplineCoefficients)]; the
    two public constructors have the same body. *)
Definition CubicSpline : state :=
  let AS0 := AS_last 0 in
  let AS1 := AS_last 1 in
  {| factorial := [1; 1; 2; 6]%Z;
     u := ctor_u;
     AS := ctor_AS;
     NegativePart := AS1 <? lit 0;
     xNegative := if AS1 <? lit 0 then - AS0 / AS1 else uninit |}.
End Constructor.

(** Find the respective knot number. *)
Definition findKnot (s : state) (x : T) : nat :=
  fold_left (fun j i => if x >=? at_ (u s) (3 + i) then i else j) (seq 0 nKnots) 0%nat.

(** Evaluate the cubic spline. *)
Definition CSplineEval (s : state) (x : T) : T :=
  if (x >? xNegative s) && NegativePart s then lit 1e-3
  else
    let j := findKnot s x in
    GetOverCoeff s 0 j + GetOverCoeff s 1 j * x + GetOverCoeff s 2 j * x * x
    + GetOverCoeff s 3 j * x * x * x.

End Spline.
End CubicSpline.

(** ** medusa/phi_s/phis_signal/PhisSignal.h *)

(** Modelled from the spec: medusa/phi_s/Parameters.h and
    details/Update_ATCoefficients.inl are not part of the sources.
    [AngularFunctions] is the external provider of the ten angular shape
    factors [F.fk] (spec 4.4 step 2, 6); [ATCoefficients] is the fixed formula
    set by which [Update_ATCoefficients] derives the tables [A], [B], [C], [D]
    from the 17 parameters (spec 3, 4.4). *)
Class Parameters (T : Type) := {
  AngularFunctions : T -> T -> T -> list T;
  ATCoefficients : list T -> list T * list T * list T * list T
}.

Module PhisSignal.
Section Functor.
Context {T : Type} {AT : Arith T} {LM : Libm T} {PM : Parameters T}.
Local Open Scope dbl_scope.

(** The functor's parameters and its five coefficient tables
    ([parameters::NFactors], [parameters::AngularTimeCoefficients]: a
    struct holding [double k[10]]). *)
Record state := {
  _par : list T;
  N : list T;
  A : list T;
  B : list T;
  C : list T;
  D : list T
}.

Definition at_ (l : list T) (i : nat) : T := nth i l (lit 0).

(** [constexpr static int CP = (B0sbar ? -1 : 1);] *)
Definition CP (B0sbar : bool) : Z := if B0sbar then (-1)%Z else 1%Z.

Definition Update_ATCoefficients (s : state) : state :=
  let '(a, b, c, d) := ATCoefficients (_par s) in
  {| _par := _par s; N := N s; A := a; B := b; C := c; D := d |}.

(** Update the values of the polarization factor N_k. *)
Definition Update_NFactors (s : state) : state :=
  let par := at_ (_par s) in
  let A_par2 := lit 1 - par 0%nat - par 1%nat in
  if A_par2 >=? lit 0 then
    {| _par := _par s;
       N := [ par 0%nat;
              A_par2;
              par 1%nat;
              d_sqrt (par 1%nat * A_par2);
              d_sqrt (par 0%nat * A_par2);
              d_sqrt (par 0%nat * par 1%nat);
              par 2%nat;
              d_sqrt (par 2%nat * A_par2);
              d_sqrt (par 2%nat * par 1%nat);
              d_sqrt (par 2%nat * par 0%nat) ];
       A := A s; B := B s; C := C s; D := D s |}
  else s.

Definition Update (s : state) : state :=
  Update_NFactors (Update_ATCoefficients s).

(** Time factors h_k(t|Bs0) and h_k(t|Bs0bar). *)
Definition Time_Factor (B0sbar : bool) (s : state)
    (index : nat) (time chT1 shT1 cT2 sT2 : T) : T :=
  let f := lit 0.238732414638 in
  let time_factor :=
    f * m_exp (- (at_ (_par s) 3 + lit 0.65789) * time) *
      (at_ (A s) index * chT1 + at_ (B s) index * shT1 +
       (at_ (C s) index * cT2 + at_ (D s) index * sT2) * lit (inject_Z (CP B0sbar))) in
  time_factor.

(** The weighted sum of the ten terms, as the loop of [Evaluate] builds it. *)
Definition Sum (B0sbar : bool) (s : state) (F : list T)
    (time chT1 shT1 cT2 sT2 : T) : T :=
  fold_left
    (fun UnnormPDF i =>
       UnnormPDF + at_ F i * at_ (N s) i * Time_Factor B0sbar s i time chT1 shT1 cT2 sT2)
    (seq 0 10) (lit 0).

(** Evaluate the sum in Eq. (9). [hydra::CHECK_VALUE] only prints a warning
    when its argument is NaN; it does not change the value. *)
Definition Evaluate (B0sbar : bool) (s : state)
    (time costheta_h costheta_l phi : T) : T :=
  let A_par2 := lit 1 - at_ (_par s) 0 - at_ (_par s) 1 in
  let UnnormPDF := lit 0 in
  if A_par2 <? lit 0 then UnnormPDF
  else
    let F := AngularFunctions costheta_h costheta_l phi in
    let T1 := lit 0.5 * time * at_ (_par s) 4 in
    let T2 := time * at_ (_par s) 5 in
    let chT1 := m_cosh T1 in
    let shT1 := m_sinh T1 in
    let cT2 := m_cos T2 in
    let sT2 := m_sin T2 in
    let UnnormPDF := Sum B0sbar s F time chT1 shT1 cT2 sT2 in
    if UnnormPDF <? lit 0 then lit 0 else UnnormPDF.

End Functor.
End PhisSignal.

(** * Reference forms

    The forms the properties below compare the code with. *)

Section ReferenceForms.
Local Open Scope dbl_scope.

(** The spec's [f(z) = exp(z^2 - 2*z*x) * erfc(z - x)]. *)
Definition faddeeva_term {T : Type} {AT : Arith T} {LM : Libm T} (x z : T) : T :=
  m_exp (z * z - lit 2 * z * x) * m_erfc (z - x).

(** The spec's [ConvolvedExpHyperbolic]: 0.25*(f(z1) + f(z2)) for cosh,
    0.25*(f(z1) - f(z2)) for sinh, with x, z1, z2 as the spec defines
    them. *)
Definition ConvolvedExpHyperbolic {T : Type} {AT : Arith T} {LM : Libm T}
    (cosh_form : bool) (time a b mu sigma : T) : T :=
  let x := (time - mu) / (sigma * sqrt2) in
  let z1 := (a - b) * sigma / sqrt2 in
  let z2 := (a + b) * sigma / sqrt2 in
  if cosh_form
  then lit 0.25 * (faddeeva_term x z1 + faddeeva_term x z2)
  else lit 0.25 * (faddeeva_term x z1 - faddeeva_term x z2).

(** The ten polarization factors as functions of A_0^2, A_perp^2, A_S^2. *)
Definition NFactors_of {T : Type} {AT : Arith T} (A_02 A_perp2 A_S2 : T) : list T :=
  let A_par2 := lit 1 - A_02 - A_perp2 in
  [ A_02; A_par2; A_perp2;
    d_sqrt (A_perp2 * A_par2); d_sqrt (A_02 * A_par2); d_sqrt (A_02 * A_perp2);
    A_S2;
    d_sqrt (A_S2 * A_par2); d_sqrt (A_S2 * A_perp2); d_sqrt (A_S2 * A_02) ].

(** The value of [UnnormPDF] after the loop of [Evaluate]. *)
Definition Evaluate_sum {T : Type} {AT : Arith T} {LM : Libm T} {PM : Parameters T}
    (B0sbar : bool) (s : PhisSignal.state) (time costheta_h costheta_l phi : T) : T :=
  let T1 := lit 0.5 * time * PhisSignal.at_ (PhisSignal._par s) 4 in
  let T2 := time * PhisSignal.at_ (PhisSignal._par s) 5 in
  PhisSignal.Sum B0sbar s (AngularFunctions costheta_h costheta_l phi) time
    (m_cosh T1) (m_sinh T1) (m_cos T2) (m_sin T2).

(** The parts of a time factor: the envelope, the CP-even combination
    (cosh, sinh) and the CP-odd combination (cos, sin). *)
Definition envelope {T : Type} {AT : Arith T} {LM : Libm T}
    (s : PhisSignal.state) (time : T) : T :=
  lit 0.238732414638 * m_exp (- (PhisSignal.at_ (PhisSignal._par s) 3 + lit 0.65789) * time).

Definition CP_even {T : Type} {AT : Arith T} (s : PhisSignal.state)
    (k : nat) (chT1 shT1 : T) : T :=
  PhisSignal.at_ (PhisSignal.A s) k * chT1 + PhisSignal.at_ (PhisSignal.B s) k * shT1.

Definition CP_odd {T : Type} {AT : Arith T} (s : PhisSignal.state)
    (k : nat) (cT2 sT2 : T) : T :=
  PhisSignal.at_ (PhisSignal.C s) k * cT2 + PhisSignal.at_ (PhisSignal.D s) k * sT2.

(** The sum of [Evaluate] with [g k] in place of the k-th time factor. *)
Definition weighted_sum {T : Type} {AT : Arith T} (s : PhisSignal.state)
    (F : list T) (g : nat -> T) : T :=
  fold_left
    (fun acc k => acc + PhisSignal.at_ F k * PhisSignal.at_ (PhisSignal.N s) k * g k)
    (seq 0 10) (lit 0).

(** What [Evaluate] does with the value of the loop. *)
Definition guard {T : Type} {AT : Arith T} (s : PhisSignal.state) (v : T) : T :=
  if lit 1 - PhisSignal.at_ (PhisSignal._par s) 0 - PhisSignal.at_ (PhisSignal._par s) 1
     <? lit 0
  then lit 0
  else if v <? lit 0 then lit 0 else v.

End ReferenceForms.

(** The spec's reduced form [f0 * exp(-DeltaGamma_sd*t) * N0 * F0] with
    [f0 = 3/(4*pi)]. *)
Definition reduced_form (DeltaGamma_sd t N0 F0 : R) : R :=
  (3 / (4 * PI) * exp (- DeltaGamma_sd * t) * N0 * F0)%R.

(** [if (UnnormPDF < 0) return 0; else return UnnormPDF;] *)
Definition clamp (v : R) : R := if Rltb v 0 then 0%R else v.

(** Finite values of [SpecFloat]: zeros and finite non-zero numbers. *)
Definition SFfinite (x : spec_float) : bool :=
  match x with S754_zero _ | S754_finite _ _ _ => true | _ => false end.

(** Expose the real-number operations behind the interface. *)
Ltac to_reals :=
  cbn [d_add d_sub d_mul d_div d_opp d_fabs d_sqrt d_ltb d_leb lit sqrt2 exact
       m_exp m_cosh m_sinh m_cos m_sin m_erf m_erfc exact_libm] in *.

(** ** The convolution integral (exact arithmetic)

    What the kernels are closed forms of: the integrand of the convolution
    of the decay law with the Gaussian resolution, and the auxiliary
    functions of the computation of the Gaussian integral. *)

Section ConvolutionVocabulary.
Local Open Scope R_scope.

(** The density of the Gaussian resolution with mean [mu] and width [sigma]. *)
Definition gaussian (mu sigma t : R) : R :=
  / (sigma * sqrt (2 * PI)) * exp (- ((t - mu) * (t - mu) / (2 * (sigma * sigma)))).

(** The integrands of the convolution of exp(-a*s)*cosh(b*s) and
    exp(-a*s)*sinh(b*s), s >= 0, with that Gaussian, at time [t]. *)
Definition cosh_integrand (mu sigma a b t s : R) : R :=
  exp (- a * s) * cosh (b * s) * gaussian mu sigma (t - s).
Definition sinh_integrand (mu sigma a b t s : R) : R :=
  exp (- a * s) * sinh (b * s) * gaussian mu sigma (t - s).

(** The primitive of [gauss] vanishing at 0. *)
Definition gauss_area (x : R) : R := RiemannInt (gauss_integrable 0 x).

(** The slice exp(-x^2*(1+s^2))/(1+s^2), its first two derivatives in x and
    its integral over s in [0,1]. *)
Definition slice (x s : R) : R := exp (- (x * x * (1 + s * s))) / (1 + s * s).
Definition slice_x (x s : R) : R := - 2 * gauss x * (x * gauss (x * s)).
Definition slice_xx (x s : R) : R :=
  (4 * (x * x) * (1 + s * s) - 2) * exp (- (x * x * (1 + s * s))).

Lemma slice_continuous (x s : R) : continuity_pt (slice x) s.
Proof.
  unfold slice.
  apply (continuity_pt_div (fun s => exp (- (x * x * (1 + s * s)))) (fun s => 1 + s * s)).
  - apply derivable_continuous_pt. reg.
  - apply derivable_continuous_pt. reg.
  - nra.
Qed.

Lemma slice_integrable (x : R) : Riemann_integrable (slice x) 0 1.
Proof.
  apply continuity_implies_RiemannInt; [lra|]. intros; apply slice_continuous.
Qed.

Definition slice_area (x : R) : R := RiemannInt (slice_integrable x).

(** The square of the Gaussian primitive plus the slice integral. *)
Definition polar_sum (x : R) : R := gauss_area x * gauss_area x + slice_area x.

End ConvolutionVocabulary.

(** ** Constructors and copies

    The members of the two classes the sections above leave out: the
    constructors and the copy operations of [PhisSignal], the copy
    operations of [CubicSpline], and the value a polynomial coefficient of
    the spline has before the 1e-9 cut. *)

Section FurtherPhisSignal.
Context {T : Type} {AT : Arith T} {LM : Libm T} {PM : Parameters T}.

(** [explicit PhisSignal(const double (&Hs)[17])]: the base functor takes the
    17 values, then [Update()] runs.  [uninit] is what the members [N], [A],
    [B], [C], [D] hold before. The two constructors taking
    [hydra::Parameter] have the same body. *)
Definition PhisSignal_ctor (Hs : list T) (uninit : PhisSignal.state) : PhisSignal.state :=
  PhisSignal.Update
    {| PhisSignal._par := map (PhisSignal.at_ Hs) (seq 0 17);
       PhisSignal.N := PhisSignal.N uninit;
       PhisSignal.A := PhisSignal.A uninit;
       PhisSignal.B := PhisSignal.B uninit;
       PhisSignal.C := PhisSignal.C uninit;
       PhisSignal.D := PhisSignal.D uninit |}.

(** The copy constructor: the base functor is copied, then the ten entries
    of each table. *)
Definition PhisSignal_copy (other : PhisSignal.state) : PhisSignal.state :=
  {| PhisSignal._par := PhisSignal._par other;
     PhisSignal.N := map (PhisSignal.at_ (PhisSignal.N other)) (seq 0 10);
     PhisSignal.A := map (PhisSignal.at_ (PhisSignal.A other)) (seq 0 10);
     PhisSignal.B := map (PhisSignal.at_ (PhisSignal.B other)) (seq 0 10);
     PhisSignal.C := map (PhisSignal.at_ (PhisSignal.C other)) (seq 0 10);
     PhisSignal.D := map (PhisSignal.at_ (PhisSignal.D other)) (seq 0 10) |}.

(** [operator=]: [if(this == &other) return *this;], else the same copy.
    [same_object] is the outcome of the address test. *)
Definition PhisSignal_assign (same_object : bool) (this other : PhisSignal.state)
    : PhisSignal.state :=
  if same_object then this else PhisSignal_copy other.

End FurtherPhisSignal.

Section FurtherCubicSpline.
Context {T : Type} {AT : Arith T}.
Variable nKnots : nat.

(** The copy constructor: every member is read through the selectors of
    [other] ([GetKnots], [GetOverCoeff], [GetNegativePart], [GetxNegative],
    [GetFactorial]). *)
Definition CubicSpline_copy (other : @CubicSpline.state T) : @CubicSpline.state T :=
  let U := CubicSpline.at_ (CubicSpline.u other) in
  {| CubicSpline.factorial :=
       map (fun i => nth i (CubicSpline.factorial other) 0%Z) (seq 0 4);
     CubicSpline.u :=
       [U 0; U 1; U 2]
       ++ map (fun i => U (3 + i)) (seq 0 nKnots)
       ++ [U (nKnots + 3); U (nKnots + 4); U (nKnots + 5)];
     CubicSpline.AS :=
       map (fun r => map (fun i => CubicSpline.GetOverCoeff other r i) (seq 0 nKnots))
           (seq 0 4);
     CubicSpline.NegativePart := CubicSpline.NegativePart other;
     CubicSpline.xNegative := CubicSpline.xNegative other |}.

(** [operator=]: [if(this == &other) return *this;], else the same copy.
    [same_object] is the outcome of the address test. *)
Definition CubicSpline_assign (same_object : bool) (this other : @CubicSpline.state T)
    : @CubicSpline.state T :=
  if same_object then this else CubicSpline_copy other.

End FurtherCubicSpline.

Section RawCoefficients.
Context {T : Type} {AT : Arith T}.
Local Open Scope dbl_scope.

(** The polynomial coefficient of row [r], interval [i], before the 1e-9
    cut: the right-hand sides of the assignments to [AS[r][i]]. *)
Definition AS_raw (nKnots : nat) (knots coeffs : list T) (r i : nat) : T :=
  let a k := match r with
             | 0%nat => CubicSpline.a0 nKnots knots k i
             | 1%nat => CubicSpline.a1 nKnots knots k i
             | 2%nat => CubicSpline.a2 nKnots knots k i
             | _ => CubicSpline.a3 nKnots knots k i
             end in
  let b := CubicSpline.at_ coeffs in
  b i * a 0%nat + b (i+1)%nat * a 1%nat + b (i+2)%nat * a 2%nat + b (i+3)%nat * a 3%nat.

End RawCoefficients.

(** ** Auxiliary notions *)

(** Strictly increasing knots. *)
Definition increasing_knots (nKnots : nat) (knots : list R) : Prop :=
  forall i j, i < j < nKnots -> (CubicSpline.at_ knots i < CubicSpline.at_ knots j)%R.

(** Zero or NaN: the possible values of [x - x] in double precision, and of
    every product with it. *)
Definition zero_or_nan (x : float) : bool := (is_zero x || is_nan x)%bool.


(** ** The pointwise cos/sin kernel of Functions.h *)

Section FurtherKernels.
Context {T : Type} {AT : Arith T} {LM : Libm T}.
Local Open Scope dbl_scope.

(** Convolution of exp(-a*t)*cos(b*t) or exp(-a*t)*sin(b*t) with the
    Gaussian [tag > 0 -> cos | tag < 0 -> sin]. *)
Definition Convoluted_exp_sincos {C : Type} {CO : ComplexOps T C}
    (time a b mu sigma : T) (tag : Z) : T :=
  let I : C := c_mk (lit 0.0) (lit 1.0) in
  let x := (time - mu) / (sigma * sqrt2) in
  let z1 : C := c_mk (a * sigma / sqrt2) (- b * sigma / sqrt2) in
  let z2 : C := c_mk (a * sigma / sqrt2) (b * sigma / sqrt2) in
  let r := c_of_real in
  let faddeeva_z1 : C :=
    (c_exp (z1 * z1 - r (lit 2) * z1 * r x) * c_erfc (z1 - r x))%cplx in
  let faddeeva_z2 : C :=
    (c_exp (z2 * z2 - r (lit 2) * z2 * r x) * c_erfc (z2 - r x))%cplx in
  let result : C := r (lit 0) in
  let result := if (0 <? tag)%Z then (faddeeva_z1 + faddeeva_z2)%cplx else result in
  let result := if (tag <? 0)%Z then ((faddeeva_z1 - faddeeva_z2) / I)%cplx else result in
  let Convolution := lit 0.25 * c_real result in
  Convolution.

End FurtherKernels.

(** Exact complex arithmetic for [ComplexOps]: pairs of reals with the field operations and
    the complex exponential.  The complex erfc of the Faddeeva package is a
    parameter. *)
Definition exact_complex (cerfc : R * R -> R * R) : ComplexOps R (R * R) := {|
  c_mk := fun x y => (x, y);
  c_real := fst;
  c_of_real := fun x => (x, 0%R);
  c_add := fun z w => (fst z + fst w, snd z + snd w)%R;
  c_sub := fun z w => (fst z - fst w, snd z - snd w)%R;
  c_mul := fun z w => (fst z * fst w - snd z * snd w, fst z * snd w + snd z * fst w)%R;
  c_div := fun z w =>
    let d := (fst w * fst w + snd w * snd w)%R in
    ((fst z * fst w + snd z * snd w) / d, (snd z * fst w - fst z * snd w) / d)%R;
  c_exp := fun z => (exp (fst z) * cos (snd z), exp (fst z) * sin (snd z))%R;
  c_erfc := cerfc
|}.

(** * Properties *)

(** The literals of the sources as doubles: each is the double nearest to
    the decimal. *)
Example literals_binary64 :
  (lit 0.238732414638 = 0x1.e8ec8a4aec2dcp-3 /\
   lit 0.65789 = 0x1.50d6f544bb1afp-1 /\
   lit 1e-3 = 0x1.0624dd2f1a9fcp-10 /\
   lit 1e-9 = 0x1.12e0be826d695p-30 /\
   lit 0.25 = 0.25 /\ lit 0.5 = 0.5 /\ lit 0 = 0 /\ lit 1 = 1 /\
   lit 2 = 2 /\ lit 3 = 3 /\ lit (-1) = -1 /\ lit (-3) = -3)%float.
Proof. vm_compute. repeat split; reflexivity. Qed.

(** ** IEEE 754 facts used below

    All are read off [SpecFloat]'s definition of the operations through the
    specification of the primitive floats. *)

Section Binary64Facts.
Local Open Scope float_scope.

Lemma Prim2SF_zero : Prim2SF zero = S754_zero false.
Proof. reflexivity. Qed.

Lemma Prim2SF_infinity : Prim2SF infinity = S754_infinity false.
Proof. reflexivity. Qed.

Lemma lit_0 : lit 0 = zero.
Proof. reflexivity. Qed.

Lemma SFcompare_finite_refl s m e :
  SFcompare (S754_finite s m e) (S754_finite s m e) = Some Eq.
Proof.
  simpl. destruct s; rewrite Z.compare_refl, Pos.compare_cont_refl; reflexivity.
Qed.

Lemma is_finite_SF x : is_finite x = SFfinite (Prim2SF x).
Proof.
  unfold is_finite, is_nan, is_infinity.
  rewrite !FloatAxioms.eqb_spec, abs_spec, Prim2SF_infinity.
  destruct (Prim2SF x) as [s| s| |s m e]; try (destruct s; reflexivity); try reflexivity.
  unfold SFeqb. rewrite SFcompare_finite_refl. reflexivity.
Qed.

Lemma is_zero_SF x :
  is_zero x = match Prim2SF x with S754_zero _ => true | _ => false end.
Proof.
  unfold is_zero. rewrite FloatAxioms.eqb_spec, Prim2SF_zero.
  destruct (Prim2SF x) as [s| s| |s m e]; try (destruct s; reflexivity); reflexivity.
Qed.

Lemma is_nan_SF x :
  is_nan x = match Prim2SF x with S754_nan => true | _ => false end.
Proof.
  unfold is_nan. rewrite FloatAxioms.eqb_spec.
  destruct (Prim2SF x) as [s| s| |s m e]; try (destruct s; reflexivity); try reflexivity.
  unfold SFeqb. rewrite SFcompare_finite_refl. reflexivity.
Qed.

(** n/0 is an infinity (n non-zero) or NaN (n zero or NaN), for every n. *)
Lemma div_by_zero_not_finite n z : is_zero z = true -> is_finite (n / z) = false.
Proof.
  rewrite is_zero_SF, is_finite_SF, div_spec. unfold SF64div.
  destruct (Prim2SF z); try discriminate. intros _.
  destruct (Prim2SF n); reflexivity.
Qed.

(** Infinities and NaN are absorbing for [+] and [-]. *)
Lemma add_not_finite_l x y : is_finite x = false -> is_finite (x + y) = false.
Proof.
  rewrite !is_finite_SF, add_spec. unfold SF64add.
  destruct (Prim2SF x) as [|sx| |]; try discriminate; intros _;
    destruct (Prim2SF y) as [|sy| |]; try reflexivity; destruct sx, sy; reflexivity.
Qed.

Lemma add_not_finite_r x y : is_finite y = false -> is_finite (x + y) = false.
Proof.
  rewrite !is_finite_SF, add_spec. unfold SF64add.
  destruct (Prim2SF y) as [|sy| |]; try discriminate; intros _;
    destruct (Prim2SF x) as [|sx| |]; try reflexivity; destruct sx, sy; reflexivity.
Qed.

Lemma sub_not_finite_l x y : is_finite x = false -> is_finite (x - y) = false.
Proof.
  rewrite !is_finite_SF, sub_spec. unfold SF64sub.
  destruct (Prim2SF x) as [|sx| |]; try discriminate; intros _;
    destruct (Prim2SF y) as [|sy| |]; try reflexivity; destruct sx, sy; reflexivity.
Qed.

Lemma sub_not_finite_r x y : is_finite y = false -> is_finite (x - y) = false.
Proof.
  rewrite !is_finite_SF, sub_spec. unfold SF64sub.
  destruct (Prim2SF y) as [|sy| |]; try discriminate; intros _;
    destruct (Prim2SF x) as [|sx| |]; try reflexivity; destruct sx, sy; reflexivity.
Qed.

(** The three outcomes of the test [x < 0]. *)
Lemma not_lt_zero x : (x <? zero) = false -> is_nan x = true \/ (zero <=? x) = true.
Proof.
  rewrite FloatAxioms.ltb_spec, FloatAxioms.leb_spec, is_nan_SF, Prim2SF_zero.
  destruct (Prim2SF x) as [s| s| |s m e]; try (destruct s); cbn; auto; discriminate.
Qed.

Lemma lt_zero_not_ge x : (x <? zero) = true -> (zero <=? x) = false.
Proof.
  rewrite FloatAxioms.ltb_spec, FloatAxioms.leb_spec, Prim2SF_zero.
  destruct (Prim2SF x) as [s| s| |s m e]; try (destruct s); cbn; auto; discriminate.
Qed.

Lemma ge_zero_not_lt x : (zero <=? x) = true -> (x <? zero) = false.
Proof.
  intro H. destruct (x <? zero) eqn:E; [|reflexivity].
  apply lt_zero_not_ge in E. congruence.
Qed.

Lemma nan_not_lt x y : is_nan x = true -> (x <? y) = false.
Proof.
  rewrite FloatAxioms.ltb_spec, is_nan_SF.
  destruct (Prim2SF x); try discriminate. reflexivity.
Qed.

(** Multiplying by 1.0 or by -1.0 is exact, and adding a negation is
    subtracting. *)
Lemma Prim2SF_one : Prim2SF 1 = S754_finite false 4503599627370496 (-52).
Proof. reflexivity. Qed.

Lemma Prim2SF_minus_one : Prim2SF (-1) = S754_finite true 4503599627370496 (-52).
Proof. reflexivity. Qed.

Lemma digits2_shift52 (m : positive) :
  Zpos (digits2_pos (Pos.mul 4503599627370496 m)) = (Zpos (digits2_pos m) + 52)%Z.
Proof. cbn. lia. Qed.

Lemma round_times_2p52 (s : bool) (m : positive) (e : Z) :
  SpecFloat.bounded prec emax m e = true ->
  binary_round_aux prec emax s (Zpos (Pos.mul m 4503599627370496)) (e + -52) loc_Exact
  = S754_finite s m e.
Proof.
  unfold SpecFloat.bounded, canonical_mantissa. intro Hb.
  apply andb_prop in Hb. destruct Hb as [Hc He].
  apply Z.eqb_eq in Hc.
  rewrite Pos.mul_comm.
  unfold binary_round_aux, shr_fexp. unfold Zdigits2 at 1.
  rewrite digits2_shift52.
  replace (Zpos (digits2_pos m) + 52 + (e + -52))%Z
    with (Zpos (digits2_pos m) + e)%Z by lia.
  rewrite Hc.
  replace (e - (e + -52))%Z with 52%Z by lia.
  cbn -[fexp digits2_pos Z.sub Z.add Z.leb].
  replace (e + -52 + 52)%Z with e by lia.
  rewrite Hc, Z.sub_diag. cbn -[Z.leb Z.sub].
  rewrite He. reflexivity.
Qed.

Lemma mul_one_r (x : float) : x * 1 = x.
Proof.
  apply Prim2SF_inj. rewrite mul_spec, Prim2SF_one.
  pose proof (Prim2SF_valid x) as Hv.
  destruct (Prim2SF x) as [s|s| |s m e]; cbn in *.
  - destruct s; reflexivity.
  - destruct s; reflexivity.
  - reflexivity.
  - rewrite xorb_false_r. apply round_times_2p52. exact Hv.
Qed.

Lemma mul_minus_one_r (x : float) : x * (-1) = - x.
Proof.
  apply Prim2SF_inj. rewrite mul_spec, opp_spec, Prim2SF_minus_one.
  pose proof (Prim2SF_valid x) as Hv.
  destruct (Prim2SF x) as [s|s| |s m e]; cbn in *.
  - destruct s; reflexivity.
  - destruct s; reflexivity.
  - reflexivity.
  - rewrite xorb_true_r. apply round_times_2p52. exact Hv.
Qed.

Lemma add_opp_r (x y : float) : x + - y = x - y.
Proof.
  apply Prim2SF_inj. rewrite add_spec, sub_spec, opp_spec.
  destruct (Prim2SF x) as [sx|sx| |sx mx ex], (Prim2SF y) as [sy|sy| |sy my ey];
    try reflexivity; destruct sx, sy; reflexivity.
Qed.

End Binary64Facts.

(** ** The integrated kernels at z = 0 (binary64) *)

Section IntegratedPole.
Context {LM : Libm float}.
Local Open Scope dbl_scope.

(** C1 (as amended). [Integrated_convoluted_exp_sinhcosh] has no special
    case for z = 0. Whatever the numerator, a zero divisor makes the
    corresponding [cumulative_z] non-finite and the sum or difference
    inherits it: whenever [z1 = (a-b)*sigma/sqrt2] or
    [z2 = (a+b)*sigma/sqrt2] is a zero and [tag] selects cosh or sinh, the
    returned double is an infinity or NaN, for every implementation of
    erf, erfc and exp and for all other arguments. *)
Theorem Integrated_sinhcosh_divides_by_zero
    (time a b mu sigma LowerLimit UpperLimit : float) (tag : Z) :
  tag <> 0%Z ->
  is_zero ((a - b) * sigma / sqrt2) = true \/ is_zero ((a + b) * sigma / sqrt2) = true ->
  is_finite (functions.Integrated_convoluted_exp_sinhcosh
               time a b mu sigma LowerLimit UpperLimit tag) = false.
Proof.
  intros Htag Hz. unfold functions.Integrated_convoluted_exp_sinhcosh. cbv zeta.
  destruct (0 <? tag)%Z eqn:Hpos; destruct (tag <? 0)%Z eqn:Hneg; try lia.
  - destruct Hz as [Hz|Hz].
    + apply add_not_finite_l, div_by_zero_not_finite, Hz.
    + apply add_not_finite_r, div_by_zero_not_finite, Hz.
  - destruct Hz as [Hz|Hz].
    + apply sub_not_finite_l, div_by_zero_not_finite, Hz.
    + apply sub_not_finite_r, div_by_zero_not_finite, Hz.
Qed.

End IntegratedPole.

(** The hypotheses of [Integrated_sinhcosh_divides_by_zero] hold at
    a = b = 1, sigma = 1 (so z1 = 0): the integral over [0, 1] is not finite. *)
Lemma Integrated_sinhcosh_divides_by_zero_witness :
  (1%Z <> 0%Z /\ is_zero ((1 - 1) * 1 / sqrt2)%float = true) /\
  (forall (LM : Libm float) (time : float),
     is_finite (functions.Integrated_convoluted_exp_sinhcosh
                  time 1%float 1%float 0%float 1%float 0%float 1%float 1) = false).
Proof.
  split; [split; [discriminate | reflexivity] |].
  intros LM time.
  apply (@Integrated_sinhcosh_divides_by_zero LM time 1 1 0 1 0 1 1)%float.
  - discriminate.
  - left. reflexivity.
Defined.

(** C1 fails as stated: at a = b = 1, mu = 0, sigma = 1 over the window
    [0, 1] (LowerLimit <= UpperLimit) with tag = 1, z1 is 0 and the value
    returned is not a finite double, whatever erf, erfc and exp compute. *)
Lemma Integrated_sinhcosh_not_finite_at_z1_zero :
  (0 <=? 1)%float = true /\
  (forall (LM : Libm float) (time : float),
     is_finite (functions.Integrated_convoluted_exp_sinhcosh
                  time 1%float 1%float 0%float 1%float 0%float 1%float 1) = false).
Proof.
  split; [reflexivity|].
  intros LM time. unfold functions.Integrated_convoluted_exp_sinhcosh. cbv zeta.
  change (0 <? 1)%Z with true. change (1 <? 0)%Z with false. cbv iota.
  apply add_not_finite_l, div_by_zero_not_finite. reflexivity.
Qed.

(** ** PhisSignal::Evaluate *)

Section EvaluateGuard.
Context {T : Type} {AT : Arith T} {LM : Libm T} {PM : Parameters T}.
Local Open Scope dbl_scope.

(** C2. When [1 - _par[0] - _par[1] < 0] the functor returns the initial
    value [0.] of [UnnormPDF], for either flavour, every coefficient state
    and every event; the same value comes out for every angular-function
    provider and every libm, so neither is consulted. *)
Theorem Evaluate_unphysical_is_zero
    (B0sbar : bool) (s : PhisSignal.state) (time costheta_h costheta_l phi : T) :
  (lit 1 - PhisSignal.at_ (PhisSignal._par s) 0 - PhisSignal.at_ (PhisSignal._par s) 1
     <? lit 0) = true ->
  PhisSignal.Evaluate B0sbar s time costheta_h costheta_l phi = lit 0.
Proof.
  intro H. unfold PhisSignal.Evaluate. cbv zeta. rewrite H. reflexivity.
Qed.

End EvaluateGuard.

(** [Evaluate_unphysical_is_zero] at A_0^2 = 0.75, A_perp^2 = 0.5 in double
    precision: the result is the double [0.0] for all tables, events and
    collaborators. *)
Lemma Evaluate_unphysical_is_zero_witness :
  (1 - 0.75 - 0.5 <? 0)%float = true /\
  (forall (LM : Libm float) (PM : Parameters float) (B0sbar : bool)
          (rest N A B C D : list float) (time costheta_h costheta_l phi : float),
     PhisSignal.Evaluate B0sbar
       {| PhisSignal._par := 0.75%float :: 0.5%float :: rest;
          PhisSignal.N := N; PhisSignal.A := A; PhisSignal.B := B;
          PhisSignal.C := C; PhisSignal.D := D |}
       time costheta_h costheta_l phi = 0%float).
Proof.
  split; [reflexivity|]. intros.
  apply (@Evaluate_unphysical_is_zero float binary64 LM PM). reflexivity.
Defined.

Section EvaluateClamp.
Context {LM : Libm float} {PM : Parameters float}.
Local Open Scope dbl_scope.

(** C3. With [1 - _par[0] - _par[1] >= 0], in double precision: a NaN sum
    is returned as it is; a sum below zero is replaced by exactly [0.0];
    and in every case the result is NaN or a double [>= 0] (which includes
    -0.0 and an overflowed sum +infinity). *)
Theorem Evaluate_nan_or_nonnegative
    (B0sbar : bool) (s : PhisSignal.state) (time costheta_h costheta_l phi : float) :
  (lit 1 - PhisSignal.at_ (PhisSignal._par s) 0 - PhisSignal.at_ (PhisSignal._par s) 1
     >=? lit 0) = true ->
  let sum := Evaluate_sum B0sbar s time costheta_h costheta_l phi in
  let r := PhisSignal.Evaluate B0sbar s time costheta_h costheta_l phi in
  (is_nan sum = true -> r = sum /\ is_nan r = true) /\
  ((sum <? 0%float) = true -> r = 0%float) /\
  ((sum <? 0%float) = false -> r = sum) /\
  (is_nan r = true \/ (r >=? 0%float) = true).
Proof.
  intros Hge sum r.
  assert (Hr : r = if PrimFloat.ltb sum zero then zero else sum).
  { unfold r, PhisSignal.Evaluate. cbv zeta.
    apply ge_zero_not_lt in Hge. rewrite lit_0.
    change (@d_ltb float binary64) with PrimFloat.ltb. rewrite Hge. reflexivity. }
  change (@d_ltb float binary64) with PrimFloat.ltb.
  change (@d_leb float binary64) with PrimFloat.leb.
  change 0%float with zero.
  repeat split.
  - rewrite Hr, (nan_not_lt sum zero H). reflexivity.
  - rewrite Hr, (nan_not_lt sum zero H). exact H.
  - intro Hlt. rewrite Hr, Hlt. reflexivity.
  - intro Hlt. rewrite Hr, Hlt. reflexivity.
  - rewrite Hr. destruct (PrimFloat.ltb sum zero) eqn:Hlt.
    + right. reflexivity.
    + apply not_lt_zero. exact Hlt.
Qed.

End EvaluateClamp.

(** [Evaluate_nan_or_nonnegative] at A_0^2 = 0.5, A_perp^2 = 0.25 (so
    A_par^2 = 0.25 >= 0), for all tables, events and collaborators. *)
Lemma Evaluate_nan_or_nonnegative_witness :
  (0 <=? 1 - 0.5 - 0.25)%float = true /\
  (forall (LM : Libm float) (PM : Parameters float) (B0sbar : bool)
          (rest N A B C D : list float) (time costheta_h costheta_l phi : float),
     let s := {| PhisSignal._par := 0.5%float :: 0.25%float :: rest;
                 PhisSignal.N := N; PhisSignal.A := A; PhisSignal.B := B;
                 PhisSignal.C := C; PhisSignal.D := D |} in
     let r := PhisSignal.Evaluate B0sbar s time costheta_h costheta_l phi in
     is_nan r = true \/ (0 <=? r)%float = true).
Proof.
  split; [reflexivity|]. intros.
  apply (@Evaluate_nan_or_nonnegative LM PM B0sbar s time costheta_h costheta_l phi).
  reflexivity.
Defined.

(** ** CubicSpline::findKnot and CubicSpline::CSplineEval *)

Section KnotSearch.
Variable p : nat -> bool.

(** The loop [for i: if (p i) j = i] over [a, a+n) ends on the last index
    satisfying [p], or leaves [j] alone when there is none. *)
Lemma scan_last (n a j0 : nat) :
  let r := fold_left (fun j i => if p i then i else j) (seq a n) j0 in
  ((forall i, a <= i < a + n -> p i = false) /\ r = j0) \/
  (a <= r < a + n /\ p r = true /\ forall i, r < i < a + n -> p i = false).
Proof.
  revert a j0. induction n as [|n IH]; intros a j0; cbn.
  - left. split; [intros; lia | reflexivity].
  - destruct (p a) eqn:Ha.
    + right. destruct (IH (S a) a) as [[Hnone Hr]|[Hrange [Hp Hafter]]].
      * cbv zeta in Hr. rewrite Hr. repeat split; try lia; [exact Ha|].
        intros i Hi. apply Hnone. lia.
      * repeat split; try lia; [exact Hp|]. intros i Hi. apply Hafter. lia.
    + destruct (IH (S a) j0) as [[Hnone Hr]|[Hrange [Hp Hafter]]].
      * left. split; [|exact Hr]. intros i Hi.
        destruct (Nat.eq_dec i a) as [->|Hne]; [exact Ha | apply Hnone; lia].
      * right. repeat split; try lia; [exact Hp|]. intros i Hi. apply Hafter. lia.
Qed.
End KnotSearch.

Section SplineEval.
Context {T : Type} {AT : Arith T}.
Variable nKnots : nat.
Local Open Scope dbl_scope.

Let knot (s : CubicSpline.state) (i : nat) : T := CubicSpline.at_ (CubicSpline.u s) (3 + i).

(** [findKnot] returns the largest [i < nKnots] with [u[3+i] <= x], and 0
    when no knot is [<= x] (x below the first knot, or NaN). *)
Lemma findKnot_spec (s : CubicSpline.state) (x : T) :
  let j := CubicSpline.findKnot nKnots s x in
  ((forall i, i < nKnots -> (x >=? knot s i) = false) /\ j = 0) \/
  (j < nKnots /\ (x >=? knot s j) = true /\
   forall i, j < i < nKnots -> (x >=? knot s i) = false).
Proof.
  cbv zeta. unfold CubicSpline.findKnot, knot.
  pose proof (scan_last (fun i => x >=? CubicSpline.at_ (CubicSpline.u s) (3 + i))
                nKnots 0 0) as H.
  cbv zeta beta in H.
  destruct H as [[Hnone Hr]|[Hrange [Hp Hafter]]].
  - left. split; [intros i Hi; apply Hnone; lia | exact Hr].
  - right. split; [lia | split; [exact Hp | intros i Hi; apply Hafter; lia]].
Qed.

(** C4. If [NegativePart] is set and [x > xNegative], [CSplineEval]
    returns the literal 1e-3. Otherwise it returns
    AS[0][j] + AS[1][j]*x + AS[2][j]*x*x + AS[3][j]*x*x*x for
    [j = findKnot x], the largest index [i < nKnots] with [u[3+i] <= x]:
    no later knot is [<= x], so among equal knots the highest index wins.
    (When no knot is [<= x] at all, [j] is 0.) *)
Theorem CSplineEval_spec (s : CubicSpline.state) (x : T) :
  ((x >? CubicSpline.xNegative s) && CubicSpline.NegativePart s = true ->
     CubicSpline.CSplineEval nKnots s x = lit 1e-3) /\
  ((x >? CubicSpline.xNegative s) && CubicSpline.NegativePart s = false ->
     let j := CubicSpline.findKnot nKnots s x in
     CubicSpline.CSplineEval nKnots s x =
       CubicSpline.GetOverCoeff s 0 j + CubicSpline.GetOverCoeff s 1 j * x
       + CubicSpline.GetOverCoeff s 2 j * x * x
       + CubicSpline.GetOverCoeff s 3 j * x * x * x
     /\ (((forall i, i < nKnots -> (x >=? knot s i) = false) /\ j = 0) \/
         (j < nKnots /\ (x >=? knot s j) = true /\
          forall i, j < i < nKnots -> (x >=? knot s i) = false))).
Proof.
  split; intro H; unfold CubicSpline.CSplineEval; rewrite H.
  - reflexivity.
  - cbv zeta. split; [reflexivity | apply findKnot_spec].
Qed.

End SplineEval.

(** [CSplineEval_spec] run in double precision on the spline with knots
    0.25, 0.5, 1, 2 and coefficients 1, 2, 3, 2, 1, 0.5: a knot belongs to the
    interval it opens, points below the first knot and NaN fall into
    interval 0, and beyond [xNegative] the value is the literal 1e-3. With a
    repeated knot (0, 1, 1, 2) the point x = 1 is located in the higher of the
    two intervals. *)
Example CSplineEval_binary64 :
  let s := CubicSpline.CubicSpline 4 [0.25; 0.5; 1; 2]%float [1; 2; 3; 2; 1; 0.5]%float
             0%float in
  map (CubicSpline.findKnot 4 s) [0.125; 0.25; 0.375; 0.5; 0.75; 1; 1.5; 2; 2.25; nan]%float
  = [0; 0; 0; 1; 1; 2; 2; 3; 3; 0] /\
  CubicSpline.NegativePart s = true /\
  (CubicSpline.xNegative s <? 2.5)%float = true /\
  CubicSpline.CSplineEval 4 s 2.5%float = lit 1e-3 /\
  (let t := CubicSpline.CubicSpline 4 [0; 1; 1; 2]%float [1; 2; 3; 2; 1; 0.5]%float
              0%float in
   CubicSpline.findKnot 4 t 1%float = 2).
Proof. vm_compute. repeat split; reflexivity. Qed.

(** ** Convoluted_exp_sinhcosh against the closed form of the spec *)

Section ClosedForm.
Context {T : Type} {AT : Arith T} {LM : Libm T}.
Local Open Scope dbl_scope.

(** For tag > 0 the code computes the cosh form of the closed form, for
    tag < 0 the sinh form, operation for operation (so the equality holds
    in double precision as well as in exact arithmetic). For tag = 0 it
    returns 0. *)
Lemma Convoluted_exp_sinhcosh_cases (time a b mu sigma : T) (tag : Z) :
  ((0 < tag)%Z ->
     functions.Convoluted_exp_sinhcosh time a b mu sigma tag
     = ConvolvedExpHyperbolic true time a b mu sigma) /\
  ((tag < 0)%Z ->
     functions.Convoluted_exp_sinhcosh time a b mu sigma tag
     = ConvolvedExpHyperbolic false time a b mu sigma) /\
  (tag = 0%Z -> functions.Convoluted_exp_sinhcosh time a b mu sigma tag = lit 0).
Proof.
  unfold functions.Convoluted_exp_sinhcosh, ConvolvedExpHyperbolic, faddeeva_term.
  cbv zeta. repeat split; intro H.
  - destruct (Z.ltb_spec 0 tag); [|lia]. destruct (Z.ltb_spec tag 0); [lia|]. reflexivity.
  - destruct (Z.ltb_spec 0 tag); [lia|]. destruct (Z.ltb_spec tag 0); [|lia]. reflexivity.
  - subst tag. reflexivity.
Qed.

(** ** The integrated kernels ignore [time] *)

(** C10. Neither integrated kernel reads its first parameter: any two
    values of [time] give the same result, for every arithmetic, libm and
    complex type. *)
Theorem Integrated_kernels_ignore_time {C : Type} {CO : ComplexOps T C}
    (t t' a b mu sigma LowerLimit UpperLimit : T) (tag : Z) :
  functions.Integrated_convoluted_exp_sinhcosh t a b mu sigma LowerLimit UpperLimit tag
  = functions.Integrated_convoluted_exp_sinhcosh t' a b mu sigma LowerLimit UpperLimit tag
  /\
  functions.Integrated_convoluted_exp_sincos t a b mu sigma LowerLimit UpperLimit tag
  = functions.Integrated_convoluted_exp_sincos t' a b mu sigma LowerLimit UpperLimit tag.
Proof. split; reflexivity. Qed.

End ClosedForm.

(** ** Convoluted_exp_sinhcosh as a convolution integral (exact arithmetic)

    With erf defined as 2/sqrt(pi) times the integral of exp(-t^2), the
    expression of the code is the convolution of exp(-a*s)*cosh(b*s), resp.
    exp(-a*s)*sinh(b*s), taken over s >= 0, with the Gaussian density of mean
    [mu] and width [sigma]. Three steps: erfc decays like a Gaussian on the
    non-negative axis (so erf tends to 1); the expression of the code solves
    the evolution equations of the decay law driven by the Gaussian; the
    convolution truncated at T differs from the value of the code by erfc
    terms that vanish as T grows. *)

Section GaussianIntegral.
Local Open Scope R_scope.

(** The fundamental theorem of calculus for a function with a continuous
    derivative given pointwise. *)
Lemma FTC_lim (f f' : R -> R) (a b : R) :
  a <= b -> (forall x, derivable_pt_lim f x (f' x)) -> continuity f' ->
  forall pr : Riemann_integrable f' a b, RiemannInt pr = f b - f a.
Proof.
  intros Hab Hd Hc pr.
  set (diff := (fun s => exist _ (f' s) (Hd s)) : derivable f).
  assert (Hcont : continuity (derive f diff)) by (intro s; exact (Hc s)).
  exact (RiemannInt_P33 (mkC1 Hcont) pr Hab).
Qed.

Lemma Rabs_between (a b : R) : Rabs a <= b <-> - b <= a <= b.
Proof.
  split.
  - intro H. pose proof (Rle_abs a). pose proof (Rle_abs (- a)) as H'.
    rewrite Rabs_Ropp in H'. lra.
  - apply Rabs_le.
Qed.

(** A first-order Taylor remainder bounded by a bound of the second
    derivative. *)
Lemma second_order_bound (f f' f'' : R -> R) (B x h : R) :
  (forall y, derivable_pt_lim f y (f' y)) ->
  (forall y, derivable_pt_lim f' y (f'' y)) ->
  (forall y, Rabs (y - x) <= Rabs h -> Rabs (f'' y) <= B) ->
  Rabs (f (x + h) - f x - h * f' x) <= B * (h * h).
Proof.
  intros Hf Hf' HB.
  assert (B0 : 0 <= B).
  { apply Rle_trans with (Rabs (f'' x)); [apply Rabs_pos|].
    apply HB. replace (x - x) with 0 by ring. rewrite Rabs_R0. apply Rabs_pos. }
  destruct (Rtotal_order h 0) as [Hh|[Hh|Hh]].
  - destruct (MVT_cor2 f f' (x + h) x) as [xi [E1 [L1 U1]]]; [lra|intros; apply Hf|].
    destruct (MVT_cor2 f' f'' xi x) as [eta [E2 [L2 U2]]]; [lra|intros; apply Hf'|].
    replace (f (x + h) - f x - h * f' x) with (f'' eta * ((x - xi) * - h)).
    2:{ replace (f (x + h) - f x) with (- (f x - f (x + h))) by ring.
        rewrite E1. replace (f' x) with (f' xi + (f' x - f' xi)) by ring. rewrite E2. ring. }
    rewrite Rabs_mult.
    assert (Hb : Rabs (f'' eta) <= B).
    { apply HB. rewrite (Rabs_left h Hh), Rabs_left; lra. }
    assert (Hp : Rabs ((x - xi) * - h) <= h * h).
    { rewrite Rabs_right; [nra|]. apply Rle_ge. nra. }
    pose proof (Rabs_pos (f'' eta)). pose proof (Rabs_pos ((x - xi) * - h)). nra.
  - subst h. replace (f (x + 0) - f x - 0 * f' x) with 0
      by (replace (x + 0) with x by ring; ring).
    rewrite Rabs_R0. lra.
  - destruct (MVT_cor2 f f' x (x + h)) as [xi [E1 [L1 U1]]]; [lra|intros; apply Hf|].
    destruct (MVT_cor2 f' f'' x xi) as [eta [E2 [L2 U2]]]; [lra|intros; apply Hf'|].
    replace (f (x + h) - f x - h * f' x) with (f'' eta * ((xi - x) * h)).
    2:{ rewrite E1. replace (f' xi) with (f' x + (f' xi - f' x)) by ring. rewrite E2. ring. }
    rewrite Rabs_mult.
    assert (Hb : Rabs (f'' eta) <= B).
    { apply HB. rewrite (Rabs_right h), Rabs_right; lra. }
    assert (Hp : Rabs ((xi - x) * h) <= h * h).
    { rewrite Rabs_right; [nra|]. apply Rle_ge. nra. }
    pose proof (Rabs_pos (f'' eta)). pose proof (Rabs_pos ((xi - x) * h)). nra.
Qed.


Lemma gauss_area_derivative (x : R) : derivable_pt_lim gauss_area x (gauss x).
Proof.
  set (a := Rmin x 0 - 1). set (b := Rmax x 0 + 1).
  assert (Ha0 : a < 0) by (unfold a; pose proof (Rmin_r x 0); lra).
  assert (Hax : a < x) by (unfold a; pose proof (Rmin_l x 0); lra).
  assert (H0b : 0 < b) by (unfold b; pose proof (Rmax_r x 0); lra).
  assert (Hxb : x < b) by (unfold b; pose proof (Rmax_l x 0); lra).
  assert (Hab : a <= b) by lra.
  assert (C0 : forall y, a <= y <= b -> continuity_pt gauss y)
    by (intros; apply gauss_continuous).
  pose proof (@RiemannInt_P27 gauss a b x Hab C0 (conj Hax Hxb)) as Hprim.
  set (F := primitive Hab (FTC_P1 Hab C0)) in *.
  apply derivable_pt_lim_locally_ext
    with (f := fun y => F y - F 0) (a := a) (b := b).
  - lra.
  - intros z [Haz Hzb]. unfold gauss_area.
    unfold F, primitive.
    destruct (Rle_dec a z) as [Hz1|Hz1]; [|lra].
    destruct (Rle_dec z b) as [Hz2|Hz2]; [|lra].
    destruct (Rle_dec a 0) as [H01|H01]; [|lra].
    destruct (Rle_dec 0 b) as [H02|H02]; [|lra].
    rewrite <- (@RiemannInt_P26 gauss a 0 z (FTC_P1 Hab C0 H01 H02) (gauss_integrable 0 z)
                 (FTC_P1 Hab C0 Hz1 Hz2)).
    ring.
  - replace (gauss x) with (gauss x - 0) by ring.
    apply (derivable_pt_lim_minus F (fct_cte (F 0)) x (gauss x) 0).
    + exact Hprim.
    + apply derivable_pt_lim_const.
Qed.

Lemma Rerf_derivative (x : R) : derivable_pt_lim Rerf x (2 / sqrt PI * gauss x).
Proof.
  apply (derivable_pt_lim_scal gauss_area (2 / sqrt PI) x (gauss x)).
  apply gauss_area_derivative.
Qed.

Lemma gauss_area_0 : gauss_area 0 = 0.
Proof. unfold gauss_area. apply RiemannInt_P9. Qed.

Lemma gauss_pos (x : R) : 0 < gauss x.
Proof. apply exp_pos. Qed.

Lemma exp_opp_le_1 (u : R) : 0 <= u -> exp (- u) <= 1.
Proof.
  intros [Hu|Hu].
  - left. pose proof (exp_increasing (- u) 0) as H. rewrite exp_0 in H. apply H. lra.
  - subst u. rewrite Ropp_0, exp_0. lra.
Qed.

Lemma gauss_le_1 (x : R) : gauss x <= 1.
Proof. apply exp_opp_le_1. nra. Qed.

Lemma gauss_area_nonneg (x : R) : 0 <= x -> 0 <= gauss_area x.
Proof.
  intro Hx. unfold gauss_area.
  replace 0 with (0 * (x - 0)) at 1 by ring.
  rewrite <- (RiemannInt_P15 (RiemannInt_P14 0 x 0)).
  apply RiemannInt_P19; [exact Hx|].
  intros y _. unfold fct_cte. left. apply gauss_pos.
Qed.


Lemma gauss_split (x s : R) : exp (- (x * x * (1 + s * s))) = gauss x * gauss (x * s).
Proof. unfold gauss. rewrite <- exp_plus. f_equal. ring. Qed.


Lemma slice_x_continuous (x s : R) : continuity_pt (slice_x x) s.
Proof. apply derivable_continuous_pt. unfold slice_x, gauss. reg. Qed.


Lemma slice_x_integrable (x : R) : Riemann_integrable (slice_x x) 0 1.
Proof.
  apply continuity_implies_RiemannInt; [lra|]. intros; apply slice_x_continuous.
Qed.


Lemma slice_derivative (s x : R) :
  derivable_pt_lim (fun x => slice x s) x (slice_x x s).
Proof.
  assert (Hc : 1 + s * s <> 0) by nra.
  unfold slice, slice_x.
  assert (Hin : derivable_pt_lim (fun x => - (x * x * (1 + s * s))) x
                  (- ((1 * x + x * 1) * (1 + s * s)))).
  { apply (derivable_pt_lim_opp (fun x => x * x * (1 + s * s))).
    pose proof (derivable_pt_lim_scal (fun x => x * x) (1 + s * s) x (1 * x + x * 1)) as H.
    apply derivable_pt_lim_ext with (f := mult_real_fct (1 + s * s) (fun x => x * x)).
    - intro z. unfold mult_real_fct. ring.
    - replace ((1 * x + x * 1) * (1 + s * s)) with ((1 + s * s) * (1 * x + x * 1)) by ring.
      apply H. apply (derivable_pt_lim_mult id id); apply derivable_pt_lim_id. }
  pose proof (derivable_pt_lim_comp _ exp x _ _ Hin (derivable_pt_lim_exp _)) as He.
  pose proof (derivable_pt_lim_div_scal _ x _ (1 + s * s) He) as Hd.
  match type of Hd with derivable_pt_lim _ _ ?l =>
    match goal with |- derivable_pt_lim _ _ ?l' => replace l' with l; [exact Hd|] end
  end.
  unfold comp. rewrite gauss_split. field. exact Hc.
Qed.

Lemma slice_x_derivative (s x : R) :
  derivable_pt_lim (fun x => slice_x x s) x (slice_xx x s).
Proof.
  apply derivable_pt_lim_ext
    with (f := fun x => - 2 * (x * exp (- (x * x * (1 + s * s))))).
  { intro z. unfold slice_x. rewrite gauss_split. ring. }
  assert (Hin : derivable_pt_lim (fun x => - (x * x * (1 + s * s))) x
                  (- ((1 * x + x * 1) * (1 + s * s)))).
  { apply (derivable_pt_lim_opp (fun x => x * x * (1 + s * s))).
    pose proof (derivable_pt_lim_scal (fun x => x * x) (1 + s * s) x (1 * x + x * 1)) as H.
    apply derivable_pt_lim_ext with (f := mult_real_fct (1 + s * s) (fun x => x * x)).
    - intro z. unfold mult_real_fct. ring.
    - replace ((1 * x + x * 1) * (1 + s * s)) with ((1 + s * s) * (1 * x + x * 1)) by ring.
      apply H. apply (derivable_pt_lim_mult id id); apply derivable_pt_lim_id. }
  pose proof (derivable_pt_lim_comp _ exp x _ _ Hin (derivable_pt_lim_exp _)) as He.
  pose proof (derivable_pt_lim_mult id _ x _ _ (derivable_pt_lim_id x) He) as Hm.
  pose proof (derivable_pt_lim_scal _ (- 2) x _ Hm) as Hs.
  match type of Hs with derivable_pt_lim _ _ ?l =>
    match goal with |- derivable_pt_lim _ _ ?l' => replace l' with l; [exact Hs|] end
  end.
  unfold slice_xx, id, comp, mult_fct, mult_real_fct. cbv beta. ring.
Qed.

Lemma slice_xx_bound (x h y s : R) :
  Rabs h <= 1 -> 0 <= s <= 1 -> Rabs (y - x) <= Rabs h ->
  Rabs (slice_xx y s) <= 2 + 8 * ((Rabs x + 1) * (Rabs x + 1)).
Proof.
  intros Hh Hs Hy.
  assert (Hyx : - 1 <= y - x <= 1).
  { apply Rabs_between in Hy. lra. }
  pose proof (Rle_abs x) as Hx1. pose proof (Rle_abs (- x)) as Hx2.
  rewrite Rabs_Ropp in Hx2.
  set (ax := Rabs x) in *.
  assert (Hyy : y * y <= (ax + 1) * (ax + 1)) by nra.
  unfold slice_xx. rewrite Rabs_mult.
  set (E := exp (- (y * y * (1 + s * s)))).
  assert (HE : 0 < E <= 1).
  { split; [apply exp_pos|]. apply exp_opp_le_1. nra. }
  rewrite (Rabs_right E) by lra.
  assert (Hc : Rabs (4 * (y * y) * (1 + s * s) - 2) <= 2 + 8 * (y * y)).
  { assert (Hy2 : 0 <= y * y) by nra.
    assert (Hcc : 1 <= 1 + s * s <= 2) by nra.
    apply Rabs_between. split; nra. }
  pose proof (Rabs_pos (4 * (y * y) * (1 + s * s) - 2)). nra.
Qed.

(** Differentiation of the slice integral under the integral sign. *)
Lemma slice_area_increment (x h : R) :
  Rabs h <= 1 ->
  Rabs (slice_area (x + h) - slice_area x - h * RiemannInt (slice_x_integrable x))
  <= (2 + 8 * ((Rabs x + 1) * (Rabs x + 1))) * (h * h).
Proof.
  intro Hh. set (B := 2 + 8 * ((Rabs x + 1) * (Rabs x + 1))).
  pose (pr_a := RiemannInt_P10 h (slice_integrable x) (slice_x_integrable x)).
  pose (pr_D := RiemannInt_P10 (-1) (slice_integrable (x + h)) pr_a).
  assert (HD : RiemannInt pr_D
               = slice_area (x + h) - slice_area x - h * RiemannInt (slice_x_integrable x)).
  { unfold pr_D. rewrite RiemannInt_P13 with (pr1 := slice_integrable (x + h)) (pr2 := pr_a).
    unfold pr_a. rewrite RiemannInt_P13 with (pr1 := slice_integrable x)
                                            (pr2 := slice_x_integrable x).
    unfold slice_area. ring. }
  rewrite <- HD.
  assert (Hpt : forall s, 0 < s < 1 ->
            Rabs (slice (x + h) s + -1 * (slice x s + h * slice_x x s)) <= B * (h * h)).
  { intros s Hs.
    replace (slice (x + h) s + -1 * (slice x s + h * slice_x x s))
      with (slice (x + h) s - slice x s - h * slice_x x s) by ring.
    apply second_order_bound
      with (f := fun x => slice x s) (f' := fun x => slice_x x s) (f'' := fun x => slice_xx x s).
    - intro y. apply slice_derivative.
    - intro y. apply slice_x_derivative.
    - intros y Hy. apply slice_xx_bound with (h := h); [exact Hh|lra|exact Hy]. }
  apply Rabs_between. split.
  - replace (- (B * (h * h))) with ((- (B * (h * h))) * (1 - 0)) by ring.
    rewrite <- (RiemannInt_P15 (RiemannInt_P14 0 1 (- (B * (h * h))))).
    apply RiemannInt_P19; [lra|].
    intros s Hs. unfold fct_cte. specialize (Hpt s Hs).
    apply Rabs_between in Hpt. lra.
  - replace (B * (h * h)) with ((B * (h * h)) * (1 - 0)) by ring.
    rewrite <- (RiemannInt_P15 (RiemannInt_P14 0 1 (B * (h * h)))).
    apply RiemannInt_P19; [lra|].
    intros s Hs. unfold fct_cte. specialize (Hpt s Hs).
    apply Rabs_between in Hpt. lra.
Qed.

Lemma slice_area_derivative (x : R) :
  derivable_pt_lim slice_area x (RiemannInt (slice_x_integrable x)).
Proof.
  set (B := 2 + 8 * ((Rabs x + 1) * (Rabs x + 1))).
  assert (HB : 0 < B + 1) by (unfold B; pose proof (Rabs_pos x); nra).
  intros eps Heps.
  assert (Hd : 0 < Rmin 1 (eps / (B + 1))).
  { apply Rmin_glb_lt; [lra|]. apply Rdiv_lt_0_compat; assumption. }
  exists (mkposreal _ Hd). intros h Hh0 Hh. cbn [pos] in Hh.
  assert (Hh1 : Rabs h <= 1).
  { left. apply Rlt_le_trans with (1 := Hh). apply Rmin_l. }
  assert (Hh2 : Rabs h < eps / (B + 1)).
  { apply Rlt_le_trans with (1 := Hh). apply Rmin_r. }
  pose proof (@slice_area_increment x h Hh1) as Hinc. fold B in Hinc.
  set (L := RiemannInt (slice_x_integrable x)) in *.
  set (N := slice_area (x + h) - slice_area x - h * L) in *.
  replace ((slice_area (x + h) - slice_area x) / h - L) with (N / h)
    by (unfold N; field; exact Hh0).
  unfold Rdiv. rewrite Rabs_mult, Rabs_inv.
  assert (Hah : 0 < Rabs h) by (apply Rabs_pos_lt; exact Hh0).
  assert (Hhh : h * h = Rabs h * Rabs h).
  { unfold Rabs. destruct (Rcase_abs h); ring. }
  rewrite Hhh in Hinc.
  apply Rle_lt_trans with (B * Rabs h).
  - apply Rmult_le_reg_r with (Rabs h); [exact Hah|].
    rewrite Rmult_assoc, Rinv_l by lra. lra.
  - assert (Hm : Rabs h * (B + 1) < eps).
    { apply Rmult_lt_reg_r with (/ (B + 1)); [apply Rinv_0_lt_compat; exact HB|].
      rewrite Rmult_assoc, Rinv_r by lra. unfold Rdiv in Hh2. lra. }
    assert (0 <= B) by (unfold B; pose proof (Rabs_pos x); nra).
    nra.
Qed.

(** The derivative of the slice integral in terms of the Gaussian primitive. *)
Lemma slice_x_area (x : R) :
  RiemannInt (slice_x_integrable x) = - 2 * gauss x * gauss_area x.
Proof.
  rewrite (@FTC_lim (fun s => - 2 * gauss x * gauss_area (x * s)) (slice_x x) 0 1).
  - rewrite Rmult_1_r, Rmult_0_r, gauss_area_0. ring.
  - lra.
  - intro s. unfold slice_x.
    apply (derivable_pt_lim_scal (fun s => gauss_area (x * s)) (- 2 * gauss x) s).
    assert (Hlin : derivable_pt_lim (fun s => x * s) s (x * 1)).
    { apply (derivable_pt_lim_scal id x s 1). apply derivable_pt_lim_id. }
    pose proof (derivable_pt_lim_comp _ gauss_area s _ _ Hlin (gauss_area_derivative _)) as H.
    replace (x * gauss (x * s)) with (gauss (x * s) * (x * 1)) by ring.
    exact H.
  - intro s. apply slice_x_continuous.
Qed.


Lemma polar_sum_derivative (x : R) : derivable_pt_lim polar_sum x 0.
Proof.
  unfold polar_sum.
  replace 0 with ((gauss x * gauss_area x + gauss_area x * gauss x)
                  + RiemannInt (slice_x_integrable x))
    by (rewrite slice_x_area; ring).
  apply (derivable_pt_lim_plus (fun x => gauss_area x * gauss_area x) slice_area).
  - apply (derivable_pt_lim_mult gauss_area gauss_area); apply gauss_area_derivative.
  - apply slice_area_derivative.
Qed.

Lemma polar_sum_0 : polar_sum 0 = PI / 4.
Proof.
  unfold polar_sum. rewrite gauss_area_0, Rmult_0_l, Rplus_0_l.
  unfold slice_area.
  assert (Hc : continuity (fun s => / (1 + s ^ 2))).
  { intro s. apply continuity_pt_inv.
    - apply derivable_continuous_pt. reg.
    - assert (0 <= s ^ 2) by (apply pow2_ge_0). lra. }
  assert (pr : Riemann_integrable (fun s => / (1 + s ^ 2)) 0 1).
  { apply continuity_implies_RiemannInt; [lra|]. intros; apply Hc. }
  rewrite (@RiemannInt_P18 (slice 0) (fun s => / (1 + s ^ 2)) 0 1 (slice_integrable 0) pr).
  - rewrite (@FTC_lim atan (fun s => / (1 + s ^ 2)) 0 1); [|lra| |exact Hc].
    + rewrite atan_1, atan_0. ring.
    + intro s. apply derivable_pt_lim_atan.
  - lra.
  - intros s _. unfold slice.
    replace (- (0 * 0 * (1 + s * s))) with 0 by ring.
    rewrite exp_0. unfold Rdiv. rewrite Rmult_1_l. f_equal. ring.
Qed.

(** (integral of exp(-t^2) over [0,x])^2 + slice_area x = pi/4. *)
Lemma polar_sum_constant (x : R) : 0 <= x -> polar_sum x = PI / 4.
Proof.
  intros [Hx|Hx].
  - destruct (MVT_cor2 polar_sum (fun _ => 0) 0 x) as [c [E _]].
    + exact Hx.
    + intros; apply polar_sum_derivative.
    + rewrite polar_sum_0 in E. lra.
  - subst x. apply polar_sum_0.
Qed.

Lemma slice_area_bounds (x : R) : 0 <= slice_area x <= gauss x.
Proof.
  unfold slice_area.
  assert (Hpt : forall s, 0 <= slice x s <= gauss x).
  { intro s. unfold slice. rewrite gauss_split.
    pose proof (gauss_pos x). pose proof (gauss_pos (x * s)). pose proof (gauss_le_1 (x * s)).
    assert (Hi : 0 < / (1 + s * s) <= 1).
    { split; [apply Rinv_0_lt_compat; nra|].
      rewrite <- Rinv_1. apply Rinv_le_contravar; nra. }
    unfold Rdiv. set (g := gauss x) in *. set (k := gauss (x * s)) in *.
    set (i := / (1 + s * s)) in *.
    assert (Hki : 0 <= k * i <= 1) by nra.
    rewrite Rmult_assoc. split; nra. }
  split.
  - apply Rle_trans with (RiemannInt (RiemannInt_P14 0 1 0)).
    + rewrite RiemannInt_P15. lra.
    + apply RiemannInt_P19; [lra|]. intros s _. apply Hpt.
  - apply Rle_trans with (RiemannInt (RiemannInt_P14 0 1 (gauss x))).
    + apply RiemannInt_P19; [lra|]. intros s _. apply Hpt.
    + rewrite RiemannInt_P15. lra.
Qed.

(** erfc is non-negative and has Gaussian decay on the non-negative axis;
    in particular erf tends to 1 at infinity. *)
Lemma Rerfc_bounds (x : R) : 0 <= x -> 0 <= Rerfc x <= 2 * gauss x.
Proof.
  intro Hx.
  pose proof (polar_sum_constant Hx) as Hc. unfold polar_sum in Hc.
  pose proof (slice_area_bounds x) as [Hs0 Hs1].
  pose proof (gauss_area_nonneg Hx) as Ha.
  pose proof PI_RGT_0 as Hpi. pose proof PI2_3_2 as Hpi3.
  assert (Hr : 0 < sqrt PI) by (apply sqrt_lt_R0; exact Hpi).
  assert (Hrr : sqrt PI * sqrt PI = PI) by (apply sqrt_sqrt; lra).
  unfold Rerfc, Rerf. fold (gauss_area x).
  set (A := gauss_area x) in *. set (G := slice_area x) in *. set (r := sqrt PI) in *.
  set (e := 2 / r * A).
  assert (He : e * e = 1 - 4 / PI * G).
  { unfold e. replace (2 / r * A * (2 / r * A)) with (4 * (A * A) / (r * r)) by (field; lra).
    rewrite Hrr. replace (A * A) with (PI / 4 - G) by lra. field. lra. }
  assert (He0 : 0 <= e).
  { unfold e. apply Rmult_le_pos; [|exact Ha]. apply Rlt_le, Rdiv_lt_0_compat; lra. }
  assert (HS : 0 <= 4 / PI * G <= 2 * gauss x).
  { assert (Hq : 0 < 4 / PI <= 2).
    { split; [apply Rdiv_lt_0_compat; lra|].
      apply Rmult_le_reg_r with PI; [lra|]. unfold Rdiv. rewrite Rmult_assoc, Rinv_l; lra. }
    pose proof (gauss_pos x). split; nra. }
  assert (He1 : e <= 1) by nra.
  split; [lra|]. nra.
Qed.

End GaussianIntegral.

Section Evolution.
Local Open Scope R_scope.
Variables (mu sigma : R).
Hypothesis sigma_pos : 0 < sigma.


Let xt (t : R) : R := (t - mu) / (sigma * sqrt 2).
Let term (z t : R) : R := faddeeva_term (xt t) z.

Lemma sqrt2_pos : 0 < sqrt 2.
Proof. apply sqrt_lt_R0. lra. Qed.

Lemma xt_derivative (t : R) : derivable_pt_lim xt t (/ (sigma * sqrt 2)).
Proof.
  unfold xt.
  replace (/ (sigma * sqrt 2)) with ((1 - 0) / (sigma * sqrt 2)) by (unfold Rdiv; ring).
  apply (derivable_pt_lim_div_scal (fun y => y - mu) t (1 - 0) (sigma * sqrt 2)).
  apply (derivable_pt_lim_minus id (fct_cte mu) t 1 0).
  - apply derivable_pt_lim_id.
  - apply derivable_pt_lim_const.
Qed.

(** Each term f(z) solves f' = -gamma*f + 2*G for gamma = 2*z/(sigma*sqrt2). *)
Lemma term_derivative (z t : R) :
  derivable_pt_lim (term z) t
    (- (2 * z / (sigma * sqrt 2)) * term z t
     + 2 / (sigma * sqrt 2 * sqrt PI) * exp (- (xt t * xt t))).
Proof.
  pose proof sqrt2_pos as H2.
  assert (Hpi : 0 < sqrt PI) by (apply sqrt_lt_R0, PI_RGT_0).
  assert (Htwo : Q2R 2 = 2) by (unfold Q2R; cbn; lra).
  unfold term, faddeeva_term. to_reals.
  set (two := Q2R 2) in *.
  set (k := / (sigma * sqrt 2)).
  assert (HE : derivable_pt_lim (fun y => z * z - two * z * xt y) t (0 - two * z * k)).
  { apply (derivable_pt_lim_minus (fct_cte (z * z)) (fun y => two * z * xt y) t 0 (two * z * k)).
    - apply derivable_pt_lim_const.
    - apply (derivable_pt_lim_scal xt (two * z) t k). apply xt_derivative. }
  assert (Hexp : derivable_pt_lim (fun y => exp (z * z - two * z * xt y)) t
                   (exp (z * z - two * z * xt t) * (0 - two * z * k))).
  { apply (derivable_pt_lim_comp (fun y => z * z - two * z * xt y) exp t _ _ HE).
    apply derivable_pt_lim_exp. }
  assert (HW : derivable_pt_lim (fun y => z - xt y) t (0 - k)).
  { apply (derivable_pt_lim_minus (fct_cte z) xt t 0 k).
    - apply derivable_pt_lim_const.
    - apply xt_derivative. }
  assert (Herfc0 : forall y, derivable_pt_lim Rerfc y (0 - 2 / sqrt PI * gauss y)).
  { intro y. unfold Rerfc.
    apply (derivable_pt_lim_minus (fct_cte 1) Rerf y 0 (2 / sqrt PI * gauss y)).
    - apply derivable_pt_lim_const.
    - apply Rerf_derivative. }
  assert (Herfc : derivable_pt_lim (fun y => Rerfc (z - xt y)) t
                    ((0 - 2 / sqrt PI * gauss (z - xt t)) * (0 - k))).
  { apply (derivable_pt_lim_comp (fun y => z - xt y) Rerfc t _ _ HW). apply Herfc0. }
  pose proof (derivable_pt_lim_mult _ _ _ _ _ Hexp Herfc) as Hprod.
  match type of Hprod with derivable_pt_lim _ _ ?l =>
    match goal with |- derivable_pt_lim _ _ ?l' => replace l' with l; [exact Hprod|] end
  end.
  cbv beta.
  replace (exp (- (xt t * xt t)))
    with (exp (z * z - two * z * xt t) * gauss (z - xt t)).
  - unfold k. rewrite Htwo. field. lra.
  - unfold gauss. rewrite <- exp_plus. f_equal. rewrite Htwo. ring.
Qed.

(** The convolved cosh and sinh forms obey the evolution equations of
    exp(-a*t)*cosh(b*t) and exp(-a*t)*sinh(b*t) switched on at t = 0, with the
    Gaussian in place of the switching impulse:
    Hc' = -a*Hc + b*Hs + G and Hs' = -a*Hs + b*Hc. *)
Lemma Convoluted_exp_sinhcosh_evolution (a b t : R) :
  let Hc u := functions.Convoluted_exp_sinhcosh u a b mu sigma 1 in
  let Hs u := functions.Convoluted_exp_sinhcosh u a b mu sigma (-1) in
  derivable_pt_lim Hc t (- a * Hc t + b * Hs t + gaussian mu sigma t) /\
  derivable_pt_lim Hs t (- a * Hs t + b * Hc t).
Proof.
  intros Hc Hs.
  pose proof sqrt2_pos as H2.
  assert (Hpi : 0 < sqrt PI) by (apply sqrt_lt_R0, PI_RGT_0).
  assert (Hs2 : sqrt 2 * sqrt 2 = 2) by (apply sqrt_sqrt; lra).
  assert (Hs2pi : sqrt (2 * PI) = sqrt 2 * sqrt PI).
  { apply sqrt_mult; [lra | pose proof PI_RGT_0; lra]. }
  assert (Hq : Q2R 0.25 = / 4) by (unfold Q2R; cbn; lra).
  set (z1 := (a - b) * sigma / sqrt 2).
  set (z2 := (a + b) * sigma / sqrt 2).
  pose proof (term_derivative z1 t) as D1.
  pose proof (term_derivative z2 t) as D2.
  assert (Hden : 2 * (sigma * sigma) = (sigma * sqrt 2) * (sigma * sqrt 2)).
  { replace ((sigma * sqrt 2) * (sigma * sqrt 2))
      with (sigma * sigma * (sqrt 2 * sqrt 2)) by ring.
    rewrite Hs2. ring. }
  assert (Hgauss : 2 / (sigma * sqrt 2 * sqrt PI) * exp (- (xt t * xt t)) = 2 * gaussian mu sigma t).
  { unfold gaussian. rewrite Hs2pi, Hden.
    replace (xt t * xt t) with ((t - mu) * (t - mu) / ((sigma * sqrt 2) * (sigma * sqrt 2)))
      by (unfold xt; field; lra).
    field. lra. }
  assert (Hrate : forall g, 2 * (g * sigma / sqrt 2) / (sigma * sqrt 2) = g).
  { intro g. replace (2 * (g * sigma / sqrt 2) / (sigma * sqrt 2))
      with (g * (2 * sigma * sigma) / ((sigma * sqrt 2) * (sigma * sqrt 2)))
      by (field; lra).
    rewrite <- Hden. field. lra. }
  assert (Hg1 : 2 * z1 / (sigma * sqrt 2) = a - b) by apply Hrate.
  assert (Hg2 : 2 * z2 / (sigma * sqrt 2) = a + b) by apply Hrate.
  rewrite Hgauss, Hg1 in D1. rewrite Hgauss, Hg2 in D2.
  assert (HHc : forall u, Hc u = Q2R 0.25 * (term z1 u + term z2 u)) by reflexivity.
  assert (HHs : forall u, Hs u = Q2R 0.25 * (term z1 u - term z2 u)) by reflexivity.
  split.
  - rewrite !HHc, HHs.
    replace (- a * (Q2R 0.25 * (term z1 t + term z2 t))
             + b * (Q2R 0.25 * (term z1 t - term z2 t)) + gaussian mu sigma t)
      with (Q2R 0.25 * ((- (a - b) * term z1 t + 2 * gaussian mu sigma t)
                        + (- (a + b) * term z2 t + 2 * gaussian mu sigma t)))
      by (rewrite Hq; field).
    apply (derivable_pt_lim_scal (fun u => term z1 u + term z2 u) (Q2R 0.25) t).
    apply (derivable_pt_lim_plus (term z1) (term z2) t _ _ D1 D2).
  - rewrite !HHs, HHc.
    replace (- a * (Q2R 0.25 * (term z1 t - term z2 t))
             + b * (Q2R 0.25 * (term z1 t + term z2 t)))
      with (Q2R 0.25 * ((- (a - b) * term z1 t + 2 * gaussian mu sigma t)
                        - (- (a + b) * term z2 t + 2 * gaussian mu sigma t)))
      by (rewrite Hq; field).
    apply (derivable_pt_lim_scal (fun u => term z1 u - term z2 u) (Q2R 0.25) t).
    apply (derivable_pt_lim_minus (term z1) (term z2) t _ _ D1 D2).
Qed.

(** A pair (P, Q) driven by (g1, g2) through P' = -a*P + b*Q + g1 and
    Q' = -a*Q + b*P + g2 gives an antiderivative of
    exp(-a*s) * (cosh(b*s)*g1(t-s) + sinh(b*s)*g2(t-s)) in s. *)
Lemma driven_pair_antiderivative (a b t : R) (P Q g1 g2 : R -> R) :
  (forall u, derivable_pt_lim P u (- a * P u + b * Q u + g1 u)) ->
  (forall u, derivable_pt_lim Q u (- a * Q u + b * P u + g2 u)) ->
  forall s,
    derivable_pt_lim
      (fun s => - (exp (- a * s) * (cosh (b * s) * P (t - s) + sinh (b * s) * Q (t - s)))) s
      (exp (- a * s) * (cosh (b * s) * g1 (t - s) + sinh (b * s) * g2 (t - s))).
Proof.
  intros HP HQ s.
  assert (Hlin : forall c, derivable_pt_lim (fun y => c * y) s (c * 1)).
  { intro c. apply (derivable_pt_lim_scal id c s 1). apply derivable_pt_lim_id. }
  assert (Hrev : derivable_pt_lim (fun y => t - y) s (0 - 1)).
  { apply (derivable_pt_lim_minus (fct_cte t) id s 0 1).
    - apply derivable_pt_lim_const.
    - apply derivable_pt_lim_id. }
  pose proof (derivable_pt_lim_comp _ exp s _ _ (Hlin (- a)) (derivable_pt_lim_exp _)) as HE.
  pose proof (derivable_pt_lim_comp _ cosh s _ _ (Hlin b) (derivable_pt_lim_cosh _)) as Hch.
  pose proof (derivable_pt_lim_comp _ sinh s _ _ (Hlin b) (derivable_pt_lim_sinh _)) as Hsh.
  pose proof (derivable_pt_lim_comp _ P s _ _ Hrev (HP _)) as HPs.
  pose proof (derivable_pt_lim_comp _ Q s _ _ Hrev (HQ _)) as HQs.
  pose proof (derivable_pt_lim_mult _ _ _ _ _ Hch HPs) as H1.
  pose proof (derivable_pt_lim_mult _ _ _ _ _ Hsh HQs) as H2.
  pose proof (derivable_pt_lim_plus _ _ _ _ _ H1 H2) as H3.
  pose proof (derivable_pt_lim_mult _ _ _ _ _ HE H3) as H4.
  pose proof (derivable_pt_lim_opp _ _ _ H4) as H5.
  match type of H5 with derivable_pt_lim _ _ ?l =>
    match goal with |- derivable_pt_lim _ _ ?l' => replace l' with l; [exact H5|] end
  end.
  unfold comp, mult_fct, plus_fct. ring.
Qed.


Lemma gaussian_continuous (u : R) : continuity_pt (gaussian mu sigma) u.
Proof. apply derivable_continuous_pt. unfold gaussian. reg. Qed.

End Evolution.

Section Truncated.
Local Open Scope R_scope.

(** The truncated convolution of a driven pair, by the fundamental theorem. *)
Lemma driven_pair_truncated (a b t T : R) (P Q g1 g2 : R -> R) :
  0 <= T ->
  (forall u, derivable_pt_lim P u (- a * P u + b * Q u + g1 u)) ->
  (forall u, derivable_pt_lim Q u (- a * Q u + b * P u + g2 u)) ->
  continuity g1 -> continuity g2 ->
  forall pr : Riemann_integrable
                (fun s => exp (- a * s) * (cosh (b * s) * g1 (t - s) + sinh (b * s) * g2 (t - s)))
                0 T,
    RiemannInt pr
    = P t - exp (- a * T) * (cosh (b * T) * P (t - T) + sinh (b * T) * Q (t - T)).
Proof.
  intros HT HP HQ Hg1 Hg2 pr.
  set (Psi := fun s => - (exp (- a * s) * (cosh (b * s) * P (t - s) + sinh (b * s) * Q (t - s)))).
  set (psi := fun s => exp (- a * s) * (cosh (b * s) * g1 (t - s) + sinh (b * s) * g2 (t - s))) in *.
  assert (Hd : forall s, derivable_pt_lim Psi s (psi s))
    by (intro s; apply driven_pair_antiderivative; assumption).
  set (diff := (fun s => exist _ (psi s) (Hd s)) : derivable Psi).
  assert (Hcont : continuity (derive Psi diff)).
  { intro s. change (continuity_pt psi s). unfold psi.
    assert (Hlin : forall c, continuity_pt (fun y => c * y) s).
    { intro c. apply derivable_continuous_pt. reg. }
    assert (Hrev : continuity_pt (fun y => t - y) s).
    { apply derivable_continuous_pt. reg. }
    apply (continuity_pt_mult (fun y => exp (- a * y))
             (fun y => cosh (b * y) * g1 (t - y) + sinh (b * y) * g2 (t - y))).
    - apply derivable_continuous_pt. reg.
    - apply (continuity_pt_plus (fun y => cosh (b * y) * g1 (t - y))
               (fun y => sinh (b * y) * g2 (t - y))).
      + apply (continuity_pt_mult (fun y => cosh (b * y)) (fun y => g1 (t - y))).
        * apply derivable_continuous_pt. reg.
        * apply (continuity_pt_comp (fun y => t - y) g1 s Hrev). apply Hg1.
      + apply (continuity_pt_mult (fun y => sinh (b * y)) (fun y => g2 (t - y))).
        * apply derivable_continuous_pt. reg.
        * apply (continuity_pt_comp (fun y => t - y) g2 s Hrev). apply Hg2. }
  pose proof (RiemannInt_P33 (mkC1 Hcont) pr HT) as Hftc.
  transitivity (Psi T - Psi 0); [exact Hftc|]. unfold Psi.
  replace (- a * 0) with 0 by ring. replace (b * 0) with 0 by ring.
  rewrite exp_0, cosh_0, sinh_0. replace (t - 0) with t by ring. ring.
Qed.

Variables (mu sigma : R).
Hypothesis sigma_pos : 0 < sigma.

Lemma cosh_integrand_integrable (a b t T : R) :
  0 <= T -> Riemann_integrable (cosh_integrand mu sigma a b t) 0 T.
Proof.
  intro HT. apply continuity_implies_RiemannInt; [exact HT|].
  intros s _. apply derivable_continuous_pt.
  unfold cosh_integrand, gaussian. reg.
Defined.

Lemma sinh_integrand_integrable (a b t T : R) :
  0 <= T -> Riemann_integrable (sinh_integrand mu sigma a b t) 0 T.
Proof.
  intro HT. apply continuity_implies_RiemannInt; [exact HT|].
  intros s _. apply derivable_continuous_pt.
  unfold sinh_integrand, gaussian. reg.
Defined.

(** The convolution truncated at T against the values of the code. *)
Lemma Convoluted_exp_sinhcosh_truncated (a b t T : R) (HT : 0 <= T) :
  let Hc u := functions.Convoluted_exp_sinhcosh u a b mu sigma 1 in
  let Hs u := functions.Convoluted_exp_sinhcosh u a b mu sigma (-1) in
  RiemannInt (@cosh_integrand_integrable a b t T HT)
  = Hc t - exp (- a * T) * (cosh (b * T) * Hc (t - T) + sinh (b * T) * Hs (t - T)) /\
  RiemannInt (@sinh_integrand_integrable a b t T HT)
  = Hs t - exp (- a * T) * (cosh (b * T) * Hs (t - T) + sinh (b * T) * Hc (t - T)).
Proof.
  intros Hc Hs.
  assert (HdC : forall u, derivable_pt_lim Hc u (- a * Hc u + b * Hs u + gaussian mu sigma u))
    by (intro u; apply (@Convoluted_exp_sinhcosh_evolution mu sigma sigma_pos a b u)).
  assert (HdS : forall u, derivable_pt_lim Hs u (- a * Hs u + b * Hc u + fct_cte 0 u)).
  { intro u. unfold fct_cte. rewrite Rplus_0_r.
    apply (@Convoluted_exp_sinhcosh_evolution mu sigma sigma_pos a b u). }
  assert (Hg : continuity (gaussian mu sigma)) by (intro u; apply gaussian_continuous).
  assert (H0 : continuity (fct_cte 0)) by (apply continuity_const; intros x y; reflexivity).
  split.
  - assert (pr : Riemann_integrable
                   (fun s => exp (- a * s) * (cosh (b * s) * gaussian mu sigma (t - s)
                                              + sinh (b * s) * fct_cte 0 (t - s))) 0 T).
    { apply (Riemann_integrable_ext (f := cosh_integrand mu sigma a b t)).
      - intros s _. unfold cosh_integrand, fct_cte. ring.
      - apply cosh_integrand_integrable, HT. }
    rewrite <- (@driven_pair_truncated a b t T Hc Hs _ _ HT HdC HdS Hg H0 pr).
    apply RiemannInt_P18; [exact HT|].
    intros s _. unfold cosh_integrand, fct_cte. ring.
  - assert (pr : Riemann_integrable
                   (fun s => exp (- a * s) * (cosh (b * s) * fct_cte 0 (t - s)
                                              + sinh (b * s) * gaussian mu sigma (t - s))) 0 T).
    { apply (Riemann_integrable_ext (f := sinh_integrand mu sigma a b t)).
      - intros s _. unfold sinh_integrand, fct_cte. ring.
      - apply sinh_integrand_integrable, HT. }
    assert (HdS' : forall u, derivable_pt_lim Hs u (- a * Hs u + b * Hc u + fct_cte 0 u))
      by exact HdS.
    assert (HdC' : forall u, derivable_pt_lim Hc u (- a * Hc u + b * Hs u + gaussian mu sigma u))
      by exact HdC.
    rewrite <- (@driven_pair_truncated a b t T Hs Hc _ _ HT HdS' HdC' H0 Hg pr).
    apply RiemannInt_P18; [exact HT|].
    intros s _. unfold sinh_integrand, fct_cte. ring.
Qed.
End Truncated.

Section TruncationRemainder.
Local Open Scope R_scope.
Variables (mu sigma : R).
Hypothesis sigma_pos : 0 < sigma.

Let xt (t : R) : R := (t - mu) / (sigma * sqrt 2).

(** A term f(z) at time t - T, damped over T, is the same exponential with
    the argument of erfc moved by T/(sigma*sqrt2). *)
Lemma faddeeva_term_shift (z t T : R) :
  exp (- (2 * z / (sigma * sqrt 2)) * T) * faddeeva_term (xt (t - T)) z
  = exp (z * z - 2 * z * xt t) * Rerfc (z - xt t + T / (sigma * sqrt 2)).
Proof.
  pose proof sqrt2_pos as H2.
  assert (Htwo : Q2R 2 = 2) by (unfold Q2R; cbn; lra).
  assert (Hx : xt (t - T) = xt t - T / (sigma * sqrt 2)) by (unfold xt; field; lra).
  unfold faddeeva_term. to_reals. rewrite Htwo, Hx.
  rewrite <- Rmult_assoc, <- exp_plus. f_equal.
  - f_equal. field. lra.
  - f_equal. ring.
Qed.

Lemma truncation_remainder (a b t T : R) :
  let Hc u := functions.Convoluted_exp_sinhcosh u a b mu sigma 1 in
  let Hs u := functions.Convoluted_exp_sinhcosh u a b mu sigma (-1) in
  let z1 := (a - b) * sigma / sqrt 2 in
  let z2 := (a + b) * sigma / sqrt 2 in
  let tail z := exp (z * z - 2 * z * xt t) * Rerfc (z - xt t + T / (sigma * sqrt 2)) in
  exp (- a * T) * (cosh (b * T) * Hc (t - T) + sinh (b * T) * Hs (t - T))
  = / 4 * (tail z1 + tail z2) /\
  exp (- a * T) * (cosh (b * T) * Hs (t - T) + sinh (b * T) * Hc (t - T))
  = / 4 * (tail z1 - tail z2).
Proof.
  intros Hc Hs z1 z2 tail.
  pose proof sqrt2_pos as H2.
  assert (Hs2 : sqrt 2 * sqrt 2 = 2) by (apply sqrt_sqrt; lra).
  assert (Hq : Q2R 0.25 = / 4) by (unfold Q2R; cbn; lra).
  assert (Hrate : forall g, 2 * (g * sigma / sqrt 2) / (sigma * sqrt 2) = g).
  { intro g. replace (2 * (g * sigma / sqrt 2) / (sigma * sqrt 2))
      with (g * (2 * sigma) / (sigma * (sqrt 2 * sqrt 2))) by (field; lra).
    rewrite Hs2. field. lra. }
  pose proof (faddeeva_term_shift z1 t T) as S1.
  pose proof (faddeeva_term_shift z2 t T) as S2.
  unfold z1 in S1 at 1. unfold z2 in S2 at 1. rewrite Hrate in S1, S2.
  fold (tail z1) in S1. fold (tail z2) in S2.
  set (f1 := faddeeva_term (xt (t - T)) z1) in *.
  set (f2 := faddeeva_term (xt (t - T)) z2) in *.
  assert (HHc : Hc (t - T) = Q2R 0.25 * (f1 + f2)) by reflexivity.
  assert (HHs : Hs (t - T) = Q2R 0.25 * (f1 - f2)) by reflexivity.
  assert (X1 : exp (- (a - b) * T) = exp (- a * T) * exp (b * T)).
  { rewrite <- exp_plus. f_equal. ring. }
  assert (X2 : exp (- (a + b) * T) = exp (- a * T) * exp (- (b * T))).
  { rewrite <- exp_plus. f_equal. ring. }
  rewrite HHc, HHs, Hq, <- S1, <- S2, X1, X2. unfold cosh, sinh.
  split; field.
Qed.

Lemma gauss_decay (y : R) : 0 < y -> gauss y < / y.
Proof.
  intro Hy. unfold gauss. rewrite exp_Ropp.
  apply Rinv_lt_contravar.
  - apply Rmult_lt_0_compat; [exact Hy|apply exp_pos].
  - assert (Hyy : y * y <> 0) by nra.
    pose proof (exp_ineq1 (y * y) Hyy). nra.
Qed.

End TruncationRemainder.

Section ConvolutionLimit.
Local Open Scope R_scope.

(** The truncated convolutions converge to the values of the code. *)
Lemma Convoluted_exp_sinhcosh_convolution (mu sigma a b t : R) :
  0 < sigma ->
  forall eps, 0 < eps ->
  exists T0, 0 <= T0 /\
    forall T (HT : 0 <= T), T0 <= T ->
      Rabs (RiemannInt (cosh_integrand_integrable mu sigma a b t HT)
            - functions.Convoluted_exp_sinhcosh t a b mu sigma 1) < eps /\
      Rabs (RiemannInt (sinh_integrand_integrable mu sigma a b t HT)
            - functions.Convoluted_exp_sinhcosh t a b mu sigma (-1)) < eps.
Proof.
  intros Hsigma eps Heps.
  pose proof sqrt2_pos as H2.
  assert (Hs : 0 < sigma * sqrt 2) by (apply Rmult_lt_0_compat; assumption).
  set (x := (t - mu) / (sigma * sqrt 2)).
  set (z1 := (a - b) * sigma / sqrt 2). set (z2 := (a + b) * sigma / sqrt 2).
  set (E1 := exp (z1 * z1 - 2 * z1 * x)). set (E2 := exp (z2 * z2 - 2 * z2 * x)).
  assert (HE1 : 0 < E1) by apply exp_pos. assert (HE2 : 0 < E2) by apply exp_pos.
  set (Y := 1 + (E1 + E2) / eps).
  assert (HY : 1 <= Y).
  { unfold Y. assert (0 < (E1 + E2) / eps) by (apply Rdiv_lt_0_compat; lra). lra. }
  assert (HYe : E1 + E2 < eps * Y).
  { unfold Y. replace (eps * (1 + (E1 + E2) / eps)) with (eps + (E1 + E2)) by (field; lra).
    lra. }
  set (m := Rabs (x - z1) + Rabs (x - z2)).
  exists (sigma * sqrt 2 * (Y + m)). split.
  { apply Rmult_le_pos; [lra|]. unfold m.
    pose proof (Rabs_pos (x - z1)). pose proof (Rabs_pos (x - z2)). lra. }
  intros T HT HT0.
  set (tau := T / (sigma * sqrt 2)).
  assert (Htau : Y + m <= tau).
  { unfold tau. apply Rmult_le_reg_r with (sigma * sqrt 2); [exact Hs|].
    unfold Rdiv. rewrite Rmult_assoc, Rinv_l by lra. lra. }
  assert (Hy : forall z, Rabs (x - z) <= m -> Y <= z - x + tau).
  { intros z Hz. pose proof (Rle_abs (x - z)). lra. }
  assert (Htail : forall z, Rabs (x - z) <= m ->
            0 <= Rerfc (z - x + tau) <= 2 * / Y).
  { intros z Hz. specialize (Hy z Hz).
    assert (Hpos : 0 < z - x + tau) by lra.
    pose proof (Rerfc_bounds (Rlt_le _ _ Hpos)) as [B0 B1].
    pose proof (gauss_decay Hpos) as Hg.
    assert (Hinv : / (z - x + tau) <= / Y) by (apply Rinv_le_contravar; lra).
    lra. }
  assert (Hm1 : Rabs (x - z1) <= m) by (unfold m; pose proof (Rabs_pos (x - z2)); lra).
  assert (Hm2 : Rabs (x - z2) <= m) by (unfold m; pose proof (Rabs_pos (x - z1)); lra).
  pose proof (Htail z1 Hm1) as [L1 U1]. pose proof (Htail z2 Hm2) as [L2 U2].
  pose proof (@Convoluted_exp_sinhcosh_truncated mu sigma Hsigma a b t T HT) as Htr.
  pose proof (@truncation_remainder mu sigma Hsigma a b t T) as Hrem.
  cbv zeta in Htr, Hrem. destruct Htr as [Ic Is]. destruct Hrem as [Rc Rs].
  fold x z1 z2 tau in Rc, Rs. fold E1 E2 in Rc, Rs.
  rewrite Rc in Ic. rewrite Rs in Is. rewrite Ic, Is.
  set (e1 := Rerfc (z1 - x + tau)) in *. set (e2 := Rerfc (z2 - x + tau)) in *.
  assert (HiY : 0 < / Y) by (apply Rinv_0_lt_compat; lra).
  assert (Hbound : / 4 * (E1 * e1 + E2 * e2) < eps).
  { assert (Hk : (E1 + E2) * / Y < eps).
    { apply Rmult_lt_reg_r with Y; [lra|]. rewrite Rmult_assoc, Rinv_l by lra. lra. }
    assert (E1 * e1 <= E1 * (2 * / Y)) by (apply Rmult_le_compat_l; lra).
    assert (E2 * e2 <= E2 * (2 * / Y)) by (apply Rmult_le_compat_l; lra).
    lra. }
  assert (P1 : 0 <= E1 * e1) by (apply Rmult_le_pos; lra).
  assert (P2 : 0 <= E2 * e2) by (apply Rmult_le_pos; lra).
  split; apply Rabs_def1; lra.
Qed.

End ConvolutionLimit.

Section ClosedFormClaim.
Local Open Scope R_scope.

(** C5. For tag > 0 (resp. tag < 0) Convoluted_exp_sinhcosh computes
    0.25*(f(z1) + f(z2)) (resp. 0.25*(f(z1) - f(z2))) with x, z1, z2 and
    f(z) = exp(z^2 - 2*z*x)*erfc(z - x) as the spec gives them, operation for
    operation in every arithmetic; and in exact arithmetic, for sigma > 0,
    this value is the convolution of exp(-a*s)*cosh(b*s) (resp. sinh), s >= 0,
    with the Gaussian of mean mu and width sigma at t = time: the integral over
    [0, T] of the decay law times the Gaussian density at t - s converges to
    it as T grows. *)
Theorem Convoluted_exp_sinhcosh_closed_form :
  (forall (T : Type) (AT : Arith T) (LM : Libm T) (time a b mu sigma : T) (tag : Z),
      ((0 < tag)%Z ->
         functions.Convoluted_exp_sinhcosh time a b mu sigma tag
         = ConvolvedExpHyperbolic true time a b mu sigma) /\
      ((tag < 0)%Z ->
         functions.Convoluted_exp_sinhcosh time a b mu sigma tag
         = ConvolvedExpHyperbolic false time a b mu sigma) /\
      (tag = 0%Z -> functions.Convoluted_exp_sinhcosh time a b mu sigma tag = lit 0)) /\
  (forall (mu sigma a b time : R) (tag : Z),
      0 < sigma ->
      forall eps, 0 < eps ->
      exists T0, 0 <= T0 /\
        forall T (HT : 0 <= T), T0 <= T ->
          ((0 < tag)%Z ->
             Rabs (RiemannInt (cosh_integrand_integrable mu sigma a b time HT)
                   - functions.Convoluted_exp_sinhcosh time a b mu sigma tag) < eps) /\
          ((tag < 0)%Z ->
             Rabs (RiemannInt (sinh_integrand_integrable mu sigma a b time HT)
                   - functions.Convoluted_exp_sinhcosh time a b mu sigma tag) < eps)).
Proof.
  split.
  - intros T AT LM time a b mu sigma tag. apply Convoluted_exp_sinhcosh_cases.
  - intros mu sigma a b time tag Hsigma eps Heps.
    destruct (@Convoluted_exp_sinhcosh_convolution mu sigma a b time Hsigma eps Heps)
      as [T0 [HT0 H]].
    exists T0. split; [exact HT0|]. intros T HT HTT.
    destruct (H T HT HTT) as [Hc Hs].
    split; intro Htag.
    + replace (functions.Convoluted_exp_sinhcosh time a b mu sigma tag)
        with (functions.Convoluted_exp_sinhcosh time a b mu sigma 1); [exact Hc|].
      destruct (Convoluted_exp_sinhcosh_cases time a b mu sigma tag) as [E _].
      destruct (Convoluted_exp_sinhcosh_cases time a b mu sigma 1) as [E1 _].
      rewrite (E Htag). apply E1. lia.
    + replace (functions.Convoluted_exp_sinhcosh time a b mu sigma tag)
        with (functions.Convoluted_exp_sinhcosh time a b mu sigma (-1)); [exact Hs|].
      destruct (Convoluted_exp_sinhcosh_cases time a b mu sigma tag) as [_ [E _]].
      destruct (Convoluted_exp_sinhcosh_cases time a b mu sigma (-1)) as [_ [E1 _]].
      rewrite (E Htag). apply E1. lia.
Qed.

End ClosedFormClaim.

(** ** PhisSignal::Update_NFactors *)

Section NFactors.
Local Open Scope dbl_scope.

(** [Update_ATCoefficients] writes the tables A, B, C, D only. *)
Lemma Update_ATCoefficients_frame {T : Type} {AT : Arith T} {PM : Parameters T}
    (s : PhisSignal.state) :
  PhisSignal._par (PhisSignal.Update_ATCoefficients s) = PhisSignal._par s /\
  PhisSignal.N (PhisSignal.Update_ATCoefficients s) = PhisSignal.N s.
Proof.
  unfold PhisSignal.Update_ATCoefficients.
  destruct (ATCoefficients (PhisSignal._par s)) as [[[a b] c] d]. split; reflexivity.
Qed.

Context {PM : Parameters float}.

(** C7. In double precision: when A_par^2 = 1 - A_0^2 - A_perp^2 < 0,
    [Update_NFactors] and hence [Update] leave the table N exactly as it
    was; when A_par^2 >= 0 the table after [Update] consists of the ten
    values computed from A_0^2, A_perp^2 and A_S^2, whatever it held. *)
Theorem Update_NFactors_guard (s : PhisSignal.state) :
  let par := PhisSignal.at_ (PhisSignal._par s) in
  let A_par2 : float := lit 1 - par 0%nat - par 1%nat in
  ((A_par2 <? lit 0) = true ->
     PhisSignal.N (PhisSignal.Update_NFactors s) = PhisSignal.N s /\
     PhisSignal.N (PhisSignal.Update s) = PhisSignal.N s) /\
  ((A_par2 >=? lit 0) = true ->
     PhisSignal.N (PhisSignal.Update s) = NFactors_of (par 0%nat) (par 1%nat) (par 2%nat)).
Proof.
  intros par A_par2.
  destruct (Update_ATCoefficients_frame s) as [Hpar HN].
  split; intro H.
  - apply lt_zero_not_ge in H.
    unfold PhisSignal.Update, PhisSignal.Update_NFactors. cbv zeta.
    rewrite Hpar. fold par. fold A_par2.
    change (@d_leb float binary64 (lit 0) A_par2) with (PrimFloat.leb zero A_par2).
    rewrite H. split; [reflexivity | exact HN].
  - unfold PhisSignal.Update, PhisSignal.Update_NFactors. cbv zeta.
    rewrite Hpar. fold par. fold A_par2. rewrite H. reflexivity.
Qed.

End NFactors.

(** [Update_NFactors_guard] in double precision, for every previous content
    of the tables: at A_0^2 = 0.75, A_perp^2 = 0.5 (A_par^2 = -0.25) the
    table N is untouched; at A_0^2 = 0.5, A_perp^2 = 0.25, A_S^2 = 0.0625 it
    becomes the ten recomputed values. *)
Lemma Update_NFactors_guard_witness :
  ((1 - 0.75 - 0.5 <? 0)%float = true /\ (0 <=? 1 - 0.5 - 0.25)%float = true) /\
  (forall (PM : Parameters float) (rest N A B C D : list float),
     PhisSignal.N (PhisSignal.Update
                     {| PhisSignal._par := 0.75%float :: 0.5%float :: rest;
                        PhisSignal.N := N; PhisSignal.A := A; PhisSignal.B := B;
                        PhisSignal.C := C; PhisSignal.D := D |}) = N) /\
  (forall (PM : Parameters float) (rest N A B C D : list float),
     PhisSignal.N (PhisSignal.Update
                     {| PhisSignal._par := 0.5%float :: 0.25%float :: 0.0625%float :: rest;
                        PhisSignal.N := N; PhisSignal.A := A; PhisSignal.B := B;
                        PhisSignal.C := C; PhisSignal.D := D |})
     = [0.5; 0.25; 0.25; 0.25; PrimFloat.sqrt 0.125; PrimFloat.sqrt 0.125;
        0.0625; 0.125; 0.125; PrimFloat.sqrt 0.03125]%float).
Proof.
  split; [split; reflexivity|]. split.
  - intros PM rest N A B C D.
    apply (@Update_NFactors_guard PM
             {| PhisSignal._par := 0.75%float :: 0.5%float :: rest;
                PhisSignal.N := N; PhisSignal.A := A; PhisSignal.B := B;
                PhisSignal.C := C; PhisSignal.D := D |}).
    reflexivity.
  - intros PM rest N A B C D.
    rewrite (proj2 (@Update_NFactors_guard PM
             {| PhisSignal._par := 0.5%float :: 0.25%float :: 0.0625%float :: rest;
                PhisSignal.N := N; PhisSignal.A := A; PhisSignal.B := B;
                PhisSignal.C := C; PhisSignal.D := D |})) by reflexivity.
    vm_compute. reflexivity.
Defined.

(** ** Exact arithmetic: tools *)

Section ExactTools.
Local Open Scope R_scope.

Lemma lit_Z (z : Z) : Q2R (inject_Z z) = IZR z.
Proof. unfold Q2R, inject_Z. cbn. rewrite Rinv_1. ring. Qed.

Lemma Rltb_true x y : Rltb x y = true <-> x < y.
Proof. unfold Rltb. destruct (Rlt_dec x y); split; intros; try discriminate; tauto. Qed.

Lemma Rltb_false x y : Rltb x y = false <-> y <= x.
Proof.
  unfold Rltb. destruct (Rlt_dec x y); split; intros; try discriminate; try lra; tauto.
Qed.

(** A loop [acc += t i] whose summand splits as [g i + h i] (or
    [g i - h i]) is the sum (difference) of the two loops. *)
Lemma fold_sum_plus (t g h : nat -> R) (l : list nat) (a b : R) :
  (forall i, t i = g i + h i) ->
  fold_left (fun acc i => acc + t i) l (a + b)
  = fold_left (fun acc i => acc + g i) l a + fold_left (fun acc i => acc + h i) l b.
Proof.
  intro Ht. revert a b. induction l as [|i l IH]; intros a b; cbn; [reflexivity|].
  rewrite Ht. replace (a + b + (g i + h i)) with ((a + g i) + (b + h i)) by ring.
  apply IH.
Qed.

Lemma fold_sum_minus (t g h : nat -> R) (l : list nat) (a b : R) :
  (forall i, t i = g i - h i) ->
  fold_left (fun acc i => acc + t i) l (a - b)
  = fold_left (fun acc i => acc + g i) l a - fold_left (fun acc i => acc + h i) l b.
Proof.
  intro Ht. revert a b. induction l as [|i l IH]; intros a b; cbn; [reflexivity|].
  rewrite Ht. replace (a - b + (g i - h i)) with ((a + g i) - (b + h i)) by ring.
  apply IH.
Qed.

End ExactTools.

(** ** The two flavours of PhisSignal *)

Section Flavour.
Local Open Scope dbl_scope.

Lemma fold_left_pointwise {X Y : Type} (f g : X -> Y -> X) (l : list Y) (a : X) :
  (forall acc i, f acc i = g acc i) -> fold_left f l a = fold_left g l a.
Proof.
  intro H. revert a. induction l as [|i l IH]; intro a; cbn; [reflexivity|].
  rewrite H. apply IH.
Qed.

(** In double precision the factor CP = +1 or -1 is absorbed exactly. *)
Lemma Time_Factor_binary64 {LM : Libm float} (s : PhisSignal.state)
    (k : nat) (t chT1 shT1 cT2 sT2 : float) :
  PhisSignal.Time_Factor false s k t chT1 shT1 cT2 sT2
  = envelope s t * (CP_even s k chT1 shT1 + CP_odd s k cT2 sT2) /\
  PhisSignal.Time_Factor true s k t chT1 shT1 cT2 sT2
  = envelope s t * (CP_even s k chT1 shT1 - CP_odd s k cT2 sT2).
Proof.
  unfold PhisSignal.Time_Factor, envelope, PhisSignal.CP. cbv zeta.
  fold (CP_even s k chT1 shT1). fold (CP_odd s k cT2 sT2).
  change (@lit float binary64 (inject_Z 1)) with 1%float.
  change (@lit float binary64 (inject_Z (-1))) with (-1)%float.
  change (@d_mul float binary64) with PrimFloat.mul.
  change (@d_add float binary64) with PrimFloat.add.
  change (@d_sub float binary64) with PrimFloat.sub.
  rewrite mul_one_r, mul_minus_one_r, add_opp_r. split; reflexivity.
Qed.

Lemma Evaluate_binary64 {LM : Libm float} {PM : Parameters float}
    (s : PhisSignal.state) (time costheta_h costheta_l phi : float) :
  let F := AngularFunctions costheta_h costheta_l phi in
  let T1 := lit 0.5 * time * PhisSignal.at_ (PhisSignal._par s) 4 in
  let T2 := time * PhisSignal.at_ (PhisSignal._par s) 5 in
  let even k := CP_even s k (m_cosh T1) (m_sinh T1) in
  let odd k := CP_odd s k (m_cos T2) (m_sin T2) in
  PhisSignal.Evaluate false s time costheta_h costheta_l phi
  = guard s (weighted_sum s F (fun k => envelope s time * (even k + odd k))) /\
  PhisSignal.Evaluate true s time costheta_h costheta_l phi
  = guard s (weighted_sum s F (fun k => envelope s time * (even k - odd k))).
Proof.
  intros F T1 T2 even odd.
  unfold PhisSignal.Evaluate, guard, PhisSignal.Sum, weighted_sum. cbv zeta.
  fold F. fold T1. fold T2.
  split.
  - rewrite (fold_left_pointwise _
               (fun acc k => acc + PhisSignal.at_ F k * PhisSignal.at_ (PhisSignal.N s) k *
                                   (envelope s time * (even k + odd k)))).
    + reflexivity.
    + intros acc i.
      rewrite (proj1 (Time_Factor_binary64 s i time (m_cosh T1) (m_sinh T1)
                        (m_cos T2) (m_sin T2))). reflexivity.
  - rewrite (fold_left_pointwise _
               (fun acc k => acc + PhisSignal.at_ F k * PhisSignal.at_ (PhisSignal.N s) k *
                                   (envelope s time * (even k - odd k)))).
    + reflexivity.
    + intros acc i.
      rewrite (proj2 (Time_Factor_binary64 s i time (m_cosh T1) (m_sinh T1)
                        (m_cos T2) (m_sin T2))). reflexivity.
Qed.

(** In exact arithmetic the sums themselves split into an even and an odd
    sum. *)
Lemma Evaluate_exact {PM : Parameters R}
    (s : PhisSignal.state) (time costheta_h costheta_l phi : R) :
  let F := AngularFunctions costheta_h costheta_l phi in
  let T1 := lit 0.5 * time * PhisSignal.at_ (PhisSignal._par s) 4 in
  let T2 := time * PhisSignal.at_ (PhisSignal._par s) 5 in
  let E := weighted_sum s F (fun k => envelope s time * CP_even s k (cosh T1) (sinh T1)) in
  let O := weighted_sum s F (fun k => envelope s time * CP_odd s k (cos T2) (sin T2)) in
  PhisSignal.Evaluate false s time costheta_h costheta_l phi = guard s (E + O)%R /\
  PhisSignal.Evaluate true s time costheta_h costheta_l phi = guard s (E - O)%R.
Proof.
  intros F T1 T2 E O.
  unfold guard, PhisSignal.Evaluate. cbv zeta.
  fold F. fold T1. fold T2.
  assert (HB0 : PhisSignal.Sum false s F time (m_cosh T1) (m_sinh T1) (m_cos T2) (m_sin T2)
                = (E + O)%R).
  { unfold PhisSignal.Sum, E, O, weighted_sum.
    to_reals. rewrite RMicromega.Q2R_0.
    rewrite <- (Rplus_0_l 0) at 1.
    apply (fold_sum_plus
             (fun i => PhisSignal.at_ F i * PhisSignal.at_ (PhisSignal.N s) i *
                       PhisSignal.Time_Factor false s i time (cosh T1) (sinh T1)
                         (cos T2) (sin T2))%R).
    intro i. unfold PhisSignal.Time_Factor, envelope, CP_even, CP_odd, PhisSignal.CP.
    to_reals. rewrite lit_Z. ring. }
  assert (HB0bar : PhisSignal.Sum true s F time (m_cosh T1) (m_sinh T1) (m_cos T2) (m_sin T2)
                   = (E - O)%R).
  { unfold PhisSignal.Sum, E, O, weighted_sum.
    to_reals. rewrite RMicromega.Q2R_0.
    rewrite <- (Rminus_0_r 0) at 1.
    apply (fold_sum_minus
             (fun i => PhisSignal.at_ F i * PhisSignal.at_ (PhisSignal.N s) i *
                       PhisSignal.Time_Factor true s i time (cosh T1) (sinh T1)
                         (cos T2) (sin T2))%R).
    intro i. unfold PhisSignal.Time_Factor, envelope, CP_even, CP_odd, PhisSignal.CP.
    to_reals. rewrite lit_Z. ring. }
  rewrite HB0, HB0bar. split; reflexivity.
Qed.

(** C8. For one and the same state and event, the two instantiations
    differ only by the sign in front of the CP-odd part
    [odd_k = c_k*cos(DeltaM*t) + d_k*sin(DeltaM*t)].
    - In every arithmetic the k-th time factor is
      [envelope * (even_k + odd_k * CP)], CP = 1 for B0 and CP = -1 for
      B0sbar.
    - In double precision this is bit for bit [envelope * (even_k + odd_k)]
      for B0 and [envelope * (even_k - odd_k)] for B0sbar, and [Evaluate]
      is the same guarded loop over these terms.
    - In exact arithmetic, with E and O the weighted sums of the even and
      odd parts, B0 returns the guarded [E + O] and B0sbar the guarded
      [E - O]. *)
Theorem Evaluate_flavour_flip :
  (forall (T : Type) (AT : Arith T) (LM : Libm T) (B0sbar : bool) (s : PhisSignal.state)
          (k : nat) (t chT1 shT1 cT2 sT2 : T),
      PhisSignal.Time_Factor B0sbar s k t chT1 shT1 cT2 sT2
      = envelope s t * (CP_even s k chT1 shT1
                        + CP_odd s k cT2 sT2 * lit (inject_Z (PhisSignal.CP B0sbar)))) /\
  (PhisSignal.CP false = 1%Z /\ PhisSignal.CP true = (-1)%Z) /\
  (forall (LM : Libm float) (PM : Parameters float) (s : PhisSignal.state)
          (time costheta_h costheta_l phi : float),
      let F := AngularFunctions costheta_h costheta_l phi in
      let T1 := lit 0.5 * time * PhisSignal.at_ (PhisSignal._par s) 4 in
      let T2 := time * PhisSignal.at_ (PhisSignal._par s) 5 in
      let even k := CP_even s k (m_cosh T1) (m_sinh T1) in
      let odd k := CP_odd s k (m_cos T2) (m_sin T2) in
      PhisSignal.Evaluate false s time costheta_h costheta_l phi
      = guard s (weighted_sum s F (fun k => envelope s time * (even k + odd k))) /\
      PhisSignal.Evaluate true s time costheta_h costheta_l phi
      = guard s (weighted_sum s F (fun k => envelope s time * (even k - odd k)))) /\
  (forall (PM : Parameters R) (s : PhisSignal.state) (time costheta_h costheta_l phi : R),
      let F := AngularFunctions costheta_h costheta_l phi in
      let T1 := lit 0.5 * time * PhisSignal.at_ (PhisSignal._par s) 4 in
      let T2 := time * PhisSignal.at_ (PhisSignal._par s) 5 in
      let E := weighted_sum s F
                 (fun k => envelope s time * CP_even s k (cosh T1) (sinh T1)) in
      let O := weighted_sum s F
                 (fun k => envelope s time * CP_odd s k (cos T2) (sin T2)) in
      PhisSignal.Evaluate false s time costheta_h costheta_l phi = guard s (E + O)%R /\
      PhisSignal.Evaluate true s time costheta_h costheta_l phi = guard s (E - O)%R).
Proof.
  split; [reflexivity|].
  split; [split; reflexivity|].
  split.
  - intros LM PM s time costheta_h costheta_l phi. apply Evaluate_binary64.
  - intros PM s time costheta_h costheta_l phi. apply Evaluate_exact.
Qed.

End Flavour.

(** ** The constructor's negative-part flag *)

Section NegativePart.
Local Open Scope dbl_scope.

(** The entry of the last interval in row [r] of the table the constructor
    builds is the linear-extrapolation coefficient [AS_last r]. *)
Lemma ctor_last_entry {T : Type} {AT : Arith T}
    (nKnots : nat) (knots coeffs : list T) (uninit : T) (r : nat) :
  r < 4 ->
  CubicSpline.GetOverCoeff (CubicSpline.CubicSpline nKnots knots coeffs uninit) r (nKnots - 1)
  = CubicSpline.AS_last nKnots knots coeffs r.
Proof.
  intro Hr. unfold CubicSpline.GetOverCoeff, CubicSpline.CubicSpline, CubicSpline.ctor_AS.
  cbn [CubicSpline.AS].
  assert (Hrow : forall r', r' < 4 ->
            nth r' (map (fun r0 => map (CubicSpline.AS_inner nKnots knots coeffs r0)
                                     (seq 0 (nKnots - 1))
                                   ++ [CubicSpline.AS_last nKnots knots coeffs r0])
                        (seq 0 4)) []
            = map (CubicSpline.AS_inner nKnots knots coeffs r') (seq 0 (nKnots - 1))
              ++ [CubicSpline.AS_last nKnots knots coeffs r']).
  { intros r' Hr'. do 4 (destruct r' as [|r']; [reflexivity|]). lia. }
  rewrite (Hrow r Hr). unfold CubicSpline.at_.
  rewrite app_nth2; rewrite length_map, length_seq; [|lia].
  rewrite Nat.sub_diag. reflexivity.
Qed.

(** In every arithmetic: the flag is the slope test, and the threshold is
    the quotient the code writes. *)
Lemma ctor_flag {T : Type} {AT : Arith T}
    (nKnots : nat) (knots coeffs : list T) (uninit : T) :
  let s := CubicSpline.CubicSpline nKnots knots coeffs uninit in
  let a0 := CubicSpline.GetOverCoeff s 0 (nKnots - 1) in
  let a1 := CubicSpline.GetOverCoeff s 1 (nKnots - 1) in
  CubicSpline.NegativePart s = (a1 <? lit 0) /\
  ((a1 <? lit 0) = true -> CubicSpline.xNegative s = - a0 / a1) /\
  CubicSpline.GetOverCoeff s 2 (nKnots - 1) = lit 0 /\
  CubicSpline.GetOverCoeff s 3 (nKnots - 1) = lit 0.
Proof.
  intros s a0 a1. unfold a0, a1, s.
  rewrite !ctor_last_entry by lia.
  unfold CubicSpline.CubicSpline. cbv zeta. cbn [CubicSpline.NegativePart CubicSpline.xNegative].
  repeat split. intro H. rewrite H. reflexivity.
Qed.

(** In exact arithmetic the threshold is the zero of the line, which is
    positive before it and negative after it. *)
Lemma ctor_crossing (nKnots : nat) (knots coeffs : list R) (uninit : R) :
  let s := CubicSpline.CubicSpline nKnots knots coeffs uninit in
  let a0 := CubicSpline.GetOverCoeff s 0 (nKnots - 1) in
  let a1 := CubicSpline.GetOverCoeff s 1 (nKnots - 1) in
  (CubicSpline.NegativePart s = true <-> (a1 < 0)%R) /\
  (CubicSpline.NegativePart s = true ->
     (a0 + a1 * CubicSpline.xNegative s = 0)%R /\
     (forall x, (CubicSpline.xNegative s < x)%R -> (a0 + a1 * x < 0)%R) /\
     (forall x, (x < CubicSpline.xNegative s)%R -> (0 < a0 + a1 * x)%R)).
Proof.
  intros s a0 a1.
  destruct (ctor_flag nKnots knots coeffs uninit) as [Hflag [Hx _]].
  fold s a0 a1 in Hflag, Hx. to_reals. rewrite RMicromega.Q2R_0 in *.
  rewrite Hflag. split; [apply Rltb_true|].
  intro Hneg. specialize (Hx Hneg). apply Rltb_true in Hneg.
  assert (Hzero : (a0 + a1 * CubicSpline.xNegative s = 0)%R).
  { rewrite Hx. field. lra. }
  split; [exact Hzero|]. split; intros x Hxlt; nra.
Qed.

(** C6 (as amended). After construction (nKnots >= 2), [NegativePart] is the
    outcome of the test [AS[1][nKnots-1] < 0] on the slope of the linear
    extrapolation (whose quadratic and cubic coefficients are 0), and when
    it is true [xNegative] is the quotient
    [-AS[0][nKnots-1] / AS[1][nKnots-1]] in the arithmetic of the code. In
    exact arithmetic that quotient is the zero of the line:
    [AS[0][nKnots-1] + AS[1][nKnots-1]*xNegative = 0], the line being
    positive before and negative after it. *)
Theorem CubicSpline_negative_part (nKnots : nat) :
  2 <= nKnots ->
  (forall (T : Type) (AT : Arith T) (knots coeffs : list T) (uninit : T),
      let s := CubicSpline.CubicSpline nKnots knots coeffs uninit in
      let a0 := CubicSpline.GetOverCoeff s 0 (nKnots - 1) in
      let a1 := CubicSpline.GetOverCoeff s 1 (nKnots - 1) in
      CubicSpline.NegativePart s = (a1 <? lit 0) /\
      ((a1 <? lit 0) = true -> CubicSpline.xNegative s = - a0 / a1) /\
      CubicSpline.GetOverCoeff s 2 (nKnots - 1) = lit 0 /\
      CubicSpline.GetOverCoeff s 3 (nKnots - 1) = lit 0) /\
  (forall (knots coeffs : list R) (uninit : R),
      let s := CubicSpline.CubicSpline nKnots knots coeffs uninit in
      let a0 := CubicSpline.GetOverCoeff s 0 (nKnots - 1) in
      let a1 := CubicSpline.GetOverCoeff s 1 (nKnots - 1) in
      (CubicSpline.NegativePart s = true <-> (a1 < 0)%R) /\
      (CubicSpline.NegativePart s = true ->
         (a0 + a1 * CubicSpline.xNegative s = 0)%R /\
         (forall x, (CubicSpline.xNegative s < x)%R -> (a0 + a1 * x < 0)%R) /\
         (forall x, (x < CubicSpline.xNegative s)%R -> (0 < a0 + a1 * x)%R))).
Proof.
  intros _. split.
  - intros. apply ctor_flag.
  - intros. apply ctor_crossing.
Qed.

End NegativePart.

(** [CubicSpline_negative_part] for nKnots = 2: in double precision on the
    knots 0, 1 with coefficients 1, 1, 1, 0.140625 (flag set, threshold the
    stored quotient), and in exact arithmetic for all knots and
    coefficients. *)
Lemma CubicSpline_negative_part_witness :
  2 <= 2 /\
  (let s := CubicSpline.CubicSpline 2 [0; 1]%float [1; 1; 1; 0.140625]%float 0%float in
   let a0 := CubicSpline.GetOverCoeff s 0 1 in
   let a1 := CubicSpline.GetOverCoeff s 1 1 in
   (a1 <? 0)%float = true /\
   CubicSpline.NegativePart s = true /\
   CubicSpline.xNegative s = (- a0 / a1)%float) /\
  (forall (knots coeffs : list R) (uninit : R),
     let s := CubicSpline.CubicSpline 2 knots coeffs uninit in
     CubicSpline.NegativePart s = true ->
     (CubicSpline.GetOverCoeff s 0 1
      + CubicSpline.GetOverCoeff s 1 1 * CubicSpline.xNegative s = 0)%R).
Proof.
  split; [lia|].
  destruct (CubicSpline_negative_part (le_n 2)) as [Hany Hexact].
  split.
  - intros s a0 a1.
    destruct (Hany float binary64 [0; 1]%float [1; 1; 1; 0.140625]%float 0%float)
      as [Hflag [Hx _]].
    assert (Hneg : (a1 <? 0)%float = true) by (vm_compute; reflexivity).
    subst a1 a0 s. cbv zeta in Hflag, Hx.
    split; [exact Hneg|]. split.
    + rewrite Hflag. exact Hneg.
    + apply Hx. exact Hneg.
  - intros knots coeffs uninit s Hneg.
    destruct (Hexact knots coeffs uninit) as [_ Hcross].
    apply Hcross. exact Hneg.
Defined.

(** C6 fails as stated, on two constructed splines in double precision
    (knots 0 and 1, nKnots = 2).
    - Coefficients -1, -1, -1, -1: the extrapolation beyond the last knot is
      the constant -1 (slope 0), negative everywhere, and [CSplineEval]
      returns -1 there; yet [NegativePart] is false.
    - Coefficients 1, 1, 1, 0.140625: [NegativePart] is true,
      AS[0][1] = 2.71875, AS[1][1] = -2.578125, and for the stored
      [xNegative] the sum AS[0][1] + AS[1][1]*xNegative is 2^-51, not 0. *)
Lemma CubicSpline_negative_part_counterexample :
  (forall uninit : float,
     let s := CubicSpline.CubicSpline 2 [0; 1]%float [-1; -1; -1; -1]%float uninit in
     CubicSpline.NegativePart s = false /\
     CubicSpline.GetOverCoeff s 0 1 = (-1)%float /\
     CubicSpline.GetOverCoeff s 1 1 = 0%float /\
     CubicSpline.GetOverCoeff s 2 1 = 0%float /\
     CubicSpline.GetOverCoeff s 3 1 = 0%float /\
     CubicSpline.CSplineEval 2 s 2%float = (-1)%float /\
     CubicSpline.CSplineEval 2 s 1000%float = (-1)%float) /\
  (let s := CubicSpline.CubicSpline 2 [0; 1]%float [1; 1; 1; 0.140625]%float 0%float in
   let a0 := CubicSpline.GetOverCoeff s 0 1 in
   let a1 := CubicSpline.GetOverCoeff s 1 1 in
   CubicSpline.NegativePart s = true /\
   a0 = 2.71875%float /\ a1 = (-2.578125)%float /\
   CubicSpline.xNegative s = (- a0 / a1)%float /\
   (a0 + a1 * CubicSpline.xNegative s)%float = 0x1p-51%float /\
   is_zero (a0 + a1 * CubicSpline.xNegative s)%float = false).
Proof.
  split.
  - intros uninit s.
    repeat split; try (vm_compute; reflexivity);
      unfold CubicSpline.CSplineEval;
      replace (CubicSpline.NegativePart s) with false by (vm_compute; reflexivity);
      rewrite andb_false_r; vm_compute; reflexivity.
  - vm_compute. repeat split; reflexivity.
Qed.

(** ** Evaluate at a purely longitudinal parameter point (exact arithmetic) *)

Section PureLongitudinal.
Local Open Scope R_scope.
Context {PM : Parameters R}.

Variable s : @PhisSignal.state R.
Let par := PhisSignal.at_ (PhisSignal._par s).
Hypothesis A_02_one : par 0%nat = 1.
Hypothesis A_perp2_zero : par 1%nat = 0.
Hypothesis A_S2_zero : par 2%nat = 0.
Hypothesis DeltaGamma_zero : par 4%nat = 0.
Hypothesis DeltaM_zero : par 5%nat = 0.

Lemma Update_par : PhisSignal._par (PhisSignal.Update s) = PhisSignal._par s.
Proof.
  unfold PhisSignal.Update, PhisSignal.Update_NFactors. cbv zeta.
  destruct (Update_ATCoefficients_frame s) as [Hpar _].
  destruct (_ >=? _)%dbl; cbn; exact Hpar.
Qed.

(** Only N_0 survives: N = (1, 0, ..., 0). *)
Lemma Update_N_pure : PhisSignal.N (PhisSignal.Update s) = [1; 0; 0; 0; 0; 0; 0; 0; 0; 0].
Proof.
  unfold PhisSignal.Update, PhisSignal.Update_NFactors. cbv zeta.
  destruct (Update_ATCoefficients_frame s) as [Hpar _]. rewrite Hpar.
  fold par. rewrite A_02_one, A_perp2_zero, A_S2_zero.
  to_reals. rewrite RMicromega.Q2R_0, RMicromega.Q2R_1.
  replace (1 - 1 - 0) with 0 by ring.
  unfold Rleb. destruct (Rle_dec 0 0) as [_|Hn]; [|exfalso; lra].
  cbn [PhisSignal.N].
  rewrite !Rmult_0_l, !Rmult_0_r, sqrt_0. reflexivity.
Qed.

(** The reduction the code actually performs. *)
Lemma Evaluate_pure_reduction (B0sbar : bool) (t costheta_h costheta_l phi : R) :
  let s' := PhisSignal.Update s in
  let F0 := PhisSignal.at_ (AngularFunctions costheta_h costheta_l phi) 0 in
  let a0 := PhisSignal.at_ (PhisSignal.A s') 0 in
  let c0 := PhisSignal.at_ (PhisSignal.C s') 0 in
  PhisSignal.Evaluate B0sbar s' t costheta_h costheta_l phi
  = clamp (F0 * 1 * (Q2R 0.238732414638 * exp (- (par 3%nat + Q2R 0.65789) * t)
                     * (a0 + c0 * IZR (PhisSignal.CP B0sbar)))).
Proof.
  intros s' F0 a0 c0.
  unfold PhisSignal.Evaluate, PhisSignal.Sum. cbv zeta.
  unfold s'. rewrite Update_par, Update_N_pure. fold s'. fold par.
  rewrite A_02_one, A_perp2_zero, DeltaGamma_zero, DeltaM_zero.
  to_reals. rewrite RMicromega.Q2R_0, RMicromega.Q2R_1.
  replace (1 - 1 - 0) with 0 by ring.
  rewrite !Rmult_0_r.
  assert (H00 : Rltb 0 0 = false) by (apply Rltb_false; lra). rewrite H00.
  unfold PhisSignal.Time_Factor. cbv zeta. unfold s'. rewrite Update_par. fold s'. fold par.
  to_reals. rewrite lit_Z, cosh_0, sinh_0, cos_0, sin_0.
  cbn [fold_left seq].
  repeat match goal with
         | |- context [PhisSignal.at_ (?x :: ?l) ?i] =>
             let v := eval cbv [PhisSignal.at_ nth] in (PhisSignal.at_ (x :: l) i) in
             change (PhisSignal.at_ (x :: l) i) with v
         end.
  fold F0 a0 c0. unfold clamp.
  match goal with |- (if Rltb ?x 0 then _ else _) = (if Rltb ?y 0 then _ else _) =>
    replace x with y by ring end.
  reflexivity.
Qed.

End PureLongitudinal.

Section PureLongitudinalClaims.
Local Open Scope R_scope.

(** C9 (as amended). In exact arithmetic, with DeltaGamma = 0, DeltaM = 0,
    A_0^2 = 1 and A_perp^2 = A_S^2 = 0, after [Update]: N_0 = 1 and
    N_1 .. N_9 = 0, so only the k = 0 term is left, and
    [Evaluate(t, ...)] is
    [F_0 * N_0 * f * exp(-(DeltaGamma_sd + 0.65789)*t) * (a_0 + CP*c_0)]
    with f = 0.238732414638, clamped at 0 from below. The sinh and sin
    terms vanish; the cosh and cos terms are 1 and leave the coefficients
    a_0 and c_0; the exponent carries the offset 0.65789. *)
Theorem Evaluate_pure_longitudinal {PM : Parameters R} (s : @PhisSignal.state R)
    (B0sbar : bool) (t costheta_h costheta_l phi : R) :
  PhisSignal.at_ (PhisSignal._par s) 0 = 1 ->
  PhisSignal.at_ (PhisSignal._par s) 1 = 0 ->
  PhisSignal.at_ (PhisSignal._par s) 2 = 0 ->
  PhisSignal.at_ (PhisSignal._par s) 4 = 0 ->
  PhisSignal.at_ (PhisSignal._par s) 5 = 0 ->
  let s' := PhisSignal.Update s in
  let DeltaGamma_sd := PhisSignal.at_ (PhisSignal._par s) 3 in
  let F0 := PhisSignal.at_ (AngularFunctions costheta_h costheta_l phi) 0 in
  let N0 := PhisSignal.at_ (PhisSignal.N s') 0 in
  let a0 := PhisSignal.at_ (PhisSignal.A s') 0 in
  let c0 := PhisSignal.at_ (PhisSignal.C s') 0 in
  N0 = 1 /\
  (forall k, (1 <= k < 10)%nat -> PhisSignal.at_ (PhisSignal.N s') k = 0) /\
  PhisSignal.Evaluate B0sbar s' t costheta_h costheta_l phi
  = clamp (F0 * N0 * (Q2R 0.238732414638 * exp (- (DeltaGamma_sd + Q2R 0.65789) * t)
                      * (a0 + c0 * IZR (PhisSignal.CP B0sbar)))).
Proof.
  intros H0 H1 H2 H4 H5 s' DeltaGamma_sd F0 N0 a0 c0.
  assert (HN : PhisSignal.N s' = [1; 0; 0; 0; 0; 0; 0; 0; 0; 0])
    by (apply Update_N_pure; assumption).
  assert (HN0 : N0 = 1) by (unfold N0; rewrite HN; reflexivity).
  split; [exact HN0|]. split.
  - intros k Hk. rewrite HN.
    do 10 (destruct k as [|k]; [try lia; reflexivity|]). lia.
  - rewrite HN0. apply Evaluate_pure_reduction; assumption.
Qed.

(** The offset makes the code's value decay faster than the reduced form
    of the spec. *)
Lemma offset_decays : exp (- (0 + Q2R 0.65789) * 1) < 1.
Proof.
  pose proof (exp_increasing (- (0 + Q2R 0.65789) * 1) 0) as H.
  rewrite exp_0 in H. apply H.
  unfold Q2R. cbn. lra.
Qed.

End PureLongitudinalClaims.

(** [Evaluate_pure_longitudinal] at the parameter vector
    (1, 0, 0, 0.6, 0, 0, ...) for every provider, flavour, previous table
    contents and event. *)
Lemma Evaluate_pure_longitudinal_witness :
  let par := [1; 0; 0; 0.6; 0; 0; 0; 0; 0; 0; 0; 0; 0; 0; 0; 0; 0]%R in
  (PhisSignal.at_ par 0 = 1 /\ PhisSignal.at_ par 1 = 0 /\ PhisSignal.at_ par 2 = 0 /\
   PhisSignal.at_ par 4 = 0 /\ PhisSignal.at_ par 5 = 0)%R /\
  (forall (PM : Parameters R) (B0sbar : bool) (N A B C D : list R)
          (t costheta_h costheta_l phi : R),
     let s' := PhisSignal.Update
                 {| PhisSignal._par := par; PhisSignal.N := N; PhisSignal.A := A;
                    PhisSignal.B := B; PhisSignal.C := C; PhisSignal.D := D |} in
     PhisSignal.Evaluate B0sbar s' t costheta_h costheta_l phi
     = clamp (PhisSignal.at_ (AngularFunctions costheta_h costheta_l phi) 0
              * PhisSignal.at_ (PhisSignal.N s') 0
              * (Q2R 0.238732414638 * exp (- (0.6 + Q2R 0.65789) * t)
                 * (PhisSignal.at_ (PhisSignal.A s') 0
                    + PhisSignal.at_ (PhisSignal.C s') 0 * IZR (PhisSignal.CP B0sbar))))%R).
Proof.
  intro par. split; [repeat split; reflexivity|].
  intros PM B0sbar N A B C D t costheta_h costheta_l phi s'.
  apply (@Evaluate_pure_longitudinal PM
           {| PhisSignal._par := par; PhisSignal.N := N; PhisSignal.A := A;
              PhisSignal.B := B; PhisSignal.C := C; PhisSignal.D := D |}
           B0sbar t costheta_h costheta_l phi); reflexivity.
Defined.

(** C9 fails as stated. At the parameter vector (1, 0, 0, 0, 0, 0, ...)
    (DeltaGamma = DeltaM = 0, only A_0^2 = 1, DeltaGamma_sd = 0), for every
    provider of angular functions and coefficients, either flavour and every
    event whose F_0 is not 0: [Evaluate] does not equal
    [f0 * exp(-DeltaGamma_sd*t) * N0 * F0] at both t = 0 and t = 1, because
    the code's exponent is -(DeltaGamma_sd + 0.65789)*t. *)
Lemma Evaluate_pure_longitudinal_counterexample :
  let par := [1; 0; 0; 0; 0; 0; 0; 0; 0; 0; 0; 0; 0; 0; 0; 0; 0]%R in
  (PhisSignal.at_ par 0 = 1 /\ PhisSignal.at_ par 1 = 0 /\ PhisSignal.at_ par 2 = 0 /\
   PhisSignal.at_ par 4 = 0 /\ PhisSignal.at_ par 5 = 0)%R /\
  (forall (PM : Parameters R) (B0sbar : bool) (N A B C D : list R)
          (costheta_h costheta_l phi : R),
     let s' := PhisSignal.Update
                 {| PhisSignal._par := par; PhisSignal.N := N; PhisSignal.A := A;
                    PhisSignal.B := B; PhisSignal.C := C; PhisSignal.D := D |} in
     let F0 := PhisSignal.at_ (AngularFunctions costheta_h costheta_l phi) 0 in
     let N0 := PhisSignal.at_ (PhisSignal.N s') 0 in
     F0 <> 0%R ->
     ~ (PhisSignal.Evaluate B0sbar s' 0%R costheta_h costheta_l phi
        = reduced_form (PhisSignal.at_ par 3) 0 N0 F0 /\
        PhisSignal.Evaluate B0sbar s' 1%R costheta_h costheta_l phi
        = reduced_form (PhisSignal.at_ par 3) 1 N0 F0)).
Proof.
  intro par. split; [repeat split; reflexivity|].
  intros PM B0sbar N A B C D costheta_h costheta_l phi s' F0 N0 HF0 [E0 E1].
  set (s := {| PhisSignal._par := par; PhisSignal.N := N; PhisSignal.A := A;
               PhisSignal.B := B; PhisSignal.C := C; PhisSignal.D := D |}) in *.
  assert (HN0 : N0 = 1%R).
  { unfold N0, s'. rewrite (@Update_N_pure PM s); reflexivity. }
  rewrite (@Evaluate_pure_reduction PM s) in E0, E1 by reflexivity.
  fold s' in E0, E1. fold F0 in E0, E1.
  unfold reduced_form in E0, E1. rewrite HN0 in E0, E1.
  change (PhisSignal.at_ (PhisSignal._par s) 3) with 0%R in E0, E1.
  change (PhisSignal.at_ par 3) with 0%R in E0, E1.
  set (K := (PhisSignal.at_ (PhisSignal.A s') 0
             + PhisSignal.at_ (PhisSignal.C s') 0 * IZR (PhisSignal.CP B0sbar))%R) in *.
  pose proof offset_decays as Hdecay.
  pose proof (exp_pos (- (0 + Q2R 0.65789) * 1)) as Hpos.
  set (d := exp (- (0 + Q2R 0.65789) * 1)) in *.
  replace (- (0 + Q2R 0.65789) * 0)%R with 0%R in E0 by ring.
  replace (- 0 * 0)%R with 0%R in E0 by ring.
  replace (- 0 * 1)%R with 0%R in E1 by ring.
  rewrite exp_0 in E0, E1.
  assert (Hf0 : (0 < 3 / (4 * PI))%R).
  { apply Rdiv_lt_0_compat; [lra|]. pose proof PI_RGT_0. lra. }
  set (f0 := (3 / (4 * PI))%R) in *.
  set (X := (F0 * 1 * (Q2R 0.238732414638 * 1 * K))%R) in *.
  replace (F0 * 1 * (Q2R 0.238732414638 * d * K))%R with (X * d)%R in E1
    by (unfold X; ring).
  unfold clamp in E0, E1.
  destruct (Rltb X 0) eqn:HX.
  - (* clamped at t = 0: the right-hand side would have to be 0 *)
    assert (f0 * F0 = 0)%R by lra.
    apply Rmult_integral in H. destruct H; lra.
  - apply Rltb_false in HX.
    destruct (Rltb (X * d) 0) eqn:HXd.
    + apply Rltb_true in HXd. nra.
    + assert (X * d = X)%R by lra.
      assert (X = 0)%R by nra.
      assert (f0 * F0 = 0)%R by lra.
      apply Rmult_integral in H1. destruct H1; lra.
Qed.

(** * Further properties

    Properties of the code beyond the claims of the specification. *)

(** ** More IEEE 754 facts *)

Section Binary64Symmetry.
Local Open Scope float_scope.

Lemma float_sub_opp_r (x y : float) : x - - y = x + y.
Proof.
  apply Prim2SF_inj. rewrite add_spec, sub_spec, opp_spec.
  destruct (Prim2SF x) as [sx|sx| |sx mx ex], (Prim2SF y) as [sy|sy| |sy my ey];
    try reflexivity; destruct sx, sy; reflexivity.
Qed.

Lemma float_add_comm (x y : float) : x + y = y + x.
Proof.
  apply Prim2SF_inj. rewrite !add_spec. unfold SF64add, SFadd.
  destruct (Prim2SF x) as [sx|sx| |sx mx ex], (Prim2SF y) as [sy|sy| |sy my ey];
    try reflexivity; try (destruct sx, sy; reflexivity).
  rewrite (Z.min_comm ey ex). f_equal. apply Z.add_comm.
Qed.

End Binary64Symmetry.

Section Binary64Specials.
Local Open Scope float_scope.

Lemma zero_or_nan_SF x :
  zero_or_nan x = match Prim2SF x with S754_zero _ | S754_nan => true | _ => false end.
Proof.
  unfold zero_or_nan. rewrite is_zero_SF, is_nan_SF. destruct (Prim2SF x); reflexivity.
Qed.

Lemma sub_diag_zero_or_nan x : zero_or_nan (x - x) = true.
Proof.
  rewrite zero_or_nan_SF, sub_spec. unfold SF64sub, SFsub.
  destruct (Prim2SF x) as [s|s| |s m e]; try (destruct s; reflexivity); try reflexivity.
  rewrite Z.sub_diag. reflexivity.
Qed.

Lemma mul_zero_or_nan_r x y : zero_or_nan y = true -> zero_or_nan (x * y) = true.
Proof.
  rewrite !zero_or_nan_SF, mul_spec. unfold SF64mul, SFmul.
  destruct (Prim2SF y) as [sy|sy| |sy my ey]; try discriminate; intros _;
    destruct (Prim2SF x) as [sx|sx| |sx mx ex]; reflexivity.
Qed.

Lemma div_zero_or_nan_not_finite n z : zero_or_nan z = true -> is_finite (n / z) = false.
Proof.
  rewrite zero_or_nan_SF, is_finite_SF, div_spec. unfold SF64div, SFdiv.
  destruct (Prim2SF z) as [sz|sz| |sz mz ez]; try discriminate; intros _;
    destruct (Prim2SF n) as [sn|sn| |sn mn en]; reflexivity.
Qed.

Lemma mul_not_finite_r x y : is_finite y = false -> is_finite (x * y) = false.
Proof.
  rewrite !is_finite_SF, mul_spec. unfold SF64mul, SFmul.
  destruct (Prim2SF y) as [sy|sy| |sy my ey]; try discriminate; intros _;
    destruct (Prim2SF x) as [sx|sx| |sx mx ex]; reflexivity.
Qed.

Lemma abs_not_finite_not_lt x y : is_finite x = false -> (abs x <? y) = false.
Proof.
  rewrite is_finite_SF, FloatAxioms.ltb_spec, abs_spec. unfold SFltb, SFabs.
  destruct (Prim2SF x) as [sx|sx| |sx mx ex]; try discriminate; intros _;
    destruct (Prim2SF y) as [sy|sy| |sy my ey]; try reflexivity; destruct sy; reflexivity.
Qed.

Lemma mul_nan_r x y : is_nan y = true -> is_nan (x * y) = true.
Proof.
  rewrite !is_nan_SF, mul_spec. unfold SF64mul, SFmul.
  destruct (Prim2SF y); try discriminate; intros _; destruct (Prim2SF x); reflexivity.
Qed.

Lemma add_nan_r x y : is_nan y = true -> is_nan (x + y) = true.
Proof.
  rewrite !is_nan_SF, add_spec. unfold SF64add, SFadd.
  destruct (Prim2SF y); try discriminate; intros _; destruct (Prim2SF x); reflexivity.
Qed.

Lemma nan_not_gt x y : is_nan y = true -> (x <? y) = false.
Proof.
  rewrite FloatAxioms.ltb_spec, is_nan_SF. unfold SFltb.
  destruct (Prim2SF y); try discriminate. intros _. destruct (Prim2SF x) as [s|s| |s m e];
    try reflexivity; destruct s; reflexivity.
Qed.

Lemma nan_not_ge x y : is_nan y = true -> (x <=? y) = false.
Proof.
  rewrite FloatAxioms.leb_spec, is_nan_SF. unfold SFleb.
  destruct (Prim2SF y); try discriminate. intros _. destruct (Prim2SF x) as [s|s| |s m e];
    try reflexivity; destruct s; reflexivity.
Qed.

End Binary64Specials.

(** ** The kernels of Functions.h in exact arithmetic *)

Section IntegratedKernel.
Local Open Scope R_scope.
Variables (mu sigma : R).
Hypothesis sigma_pos : 0 < sigma.

Let xt (t : R) : R := (t - mu) / (sigma * sqrt 2).

(** [erf(x) - f(z)] as a function of time: the bracket of the integrated
    kernel.  Its derivative is 2*z/(sigma*sqrt2) * f(z). *)
Lemma bracket_derivative (z t : R) :
  derivable_pt_lim (fun t => Rerf (xt t) - faddeeva_term (xt t) z) t
    (2 * z / (sigma * sqrt 2) * faddeeva_term (xt t) z).
Proof.
  pose proof sqrt2_pos as H2.
  assert (Hpi : 0 < sqrt PI) by (apply sqrt_lt_R0, PI_RGT_0).
  pose proof (derivable_pt_lim_comp xt Rerf t _ _ (xt_derivative mu sigma t)
                (Rerf_derivative (xt t))) as He.
  pose proof (term_derivative mu sigma_pos z t) as Hf. cbv beta in Hf.
  fold (xt t) in Hf.
  pose proof (derivable_pt_lim_minus _ _ _ _ _ He Hf) as Hd.
  match type of Hd with derivable_pt_lim _ _ ?l =>
    match goal with |- derivable_pt_lim _ _ ?l' => replace l' with l; [exact Hd|] end
  end.
  unfold gauss. field. lra.
Qed.

(** The kernel in terms of the two terms f(z1), f(z2). *)
Lemma Convoluted_exp_sinhcosh_terms (a b t : R) (tag : Z) :
  functions.Convoluted_exp_sinhcosh t a b mu sigma tag
  = (if (0 <? tag)%Z then / 4 else if (tag <? 0)%Z then / 4 else 0)
    * (faddeeva_term (xt t) ((a - b) * sigma / sqrt 2)
       + (if (tag <? 0)%Z then -1 else 1)
         * faddeeva_term (xt t) ((a + b) * sigma / sqrt 2)).
Proof.
  assert (Hq : Q2R 0.25 = / 4) by (unfold Q2R; cbn; lra).
  unfold functions.Convoluted_exp_sinhcosh, faddeeva_term, xt. cbv zeta. to_reals.
  rewrite Hq, RMicromega.Q2R_0.
  destruct (Z.ltb_spec 0 tag); destruct (Z.ltb_spec tag 0); try lia; ring.
Qed.

Lemma Convoluted_exp_sinhcosh_derivable (a b : R) (tag : Z) (t : R) :
  derivable_pt (fun t => functions.Convoluted_exp_sinhcosh t a b mu sigma tag) t.
Proof.
  set (z1 := (a - b) * sigma / sqrt 2). set (z2 := (a + b) * sigma / sqrt 2).
  set (c := if (0 <? tag)%Z then / 4 else if (tag <? 0)%Z then / 4 else 0).
  set (e := if (tag <? 0)%Z then -1 else 1).
  pose proof (term_derivative mu sigma_pos z1 t) as D1.
  pose proof (term_derivative mu sigma_pos z2 t) as D2.
  cbv beta in D1, D2.
  pose proof (derivable_pt_lim_scal _ e t _ D2) as D2'.
  pose proof (derivable_pt_lim_plus _ _ t _ _ D1 D2') as D3.
  pose proof (derivable_pt_lim_scal _ c t _ D3) as D4.
  eexists. eapply derivable_pt_lim_ext; [|exact D4].
  intro u. rewrite Convoluted_exp_sinhcosh_terms. reflexivity.
Qed.

Lemma Convoluted_exp_sinhcosh_integrable (a b : R) (tag : Z) (L U : R) :
  L <= U ->
  Riemann_integrable (fun t => functions.Convoluted_exp_sinhcosh t a b mu sigma tag) L U.
Proof.
  intro HLU. apply continuity_implies_RiemannInt; [exact HLU|].
  intros t _. apply derivable_continuous_pt, Convoluted_exp_sinhcosh_derivable.
Qed.

(** The integrated kernel in terms of the brackets [erf(x) - f(z)]. *)
Lemma Integrated_convoluted_exp_sinhcosh_terms (time a b L U : R) (tag : Z) :
  let B z t := Rerf (xt t) - faddeeva_term (xt t) z in
  let z1 := (a - b) * sigma / sqrt 2 in
  let z2 := (a + b) * sigma / sqrt 2 in
  functions.Integrated_convoluted_exp_sinhcosh time a b mu sigma L U tag
  = (if (0 <? tag)%Z then 1 else if (tag <? 0)%Z then 1 else 0)
    * ((B z1 U - B z1 L) / z1
       + (if (tag <? 0)%Z then -1 else 1) * ((B z2 U - B z2 L) / z2)).
Proof.
  unfold functions.Integrated_convoluted_exp_sinhcosh, faddeeva_term, xt. cbv zeta. to_reals.
  rewrite RMicromega.Q2R_0.
  destruct (Z.ltb_spec 0 tag); destruct (Z.ltb_spec tag 0); try lia; ring.
Qed.

(** X1. In exact arithmetic, for sigma > 0 and a <> +-b, the integrated
    kernel is 8/(sigma*sqrt2) times the integral of the pointwise kernel over
    [LowerLimit, UpperLimit]. *)
Theorem Integrated_convoluted_exp_sinhcosh_is_integral
    (time a b L U : R) (tag : Z) (HLU : L <= U) :
  a <> b -> a <> - b ->
  RiemannInt (Convoluted_exp_sinhcosh_integrable a b tag HLU)
  = sigma * sqrt 2 / 8
    * functions.Integrated_convoluted_exp_sinhcosh time a b mu sigma L U tag.
Proof.
  intros Hab Hab'.
  pose proof sqrt2_pos as H2.
  set (z1 := (a - b) * sigma / sqrt 2). set (z2 := (a + b) * sigma / sqrt 2).
  assert (Hz1 : z1 <> 0).
  { unfold z1, Rdiv. apply Rmult_integral_contrapositive_currified;
      [apply Rmult_integral_contrapositive_currified; lra|].
    apply Rinv_neq_0_compat. lra. }
  assert (Hz2 : z2 <> 0).
  { unfold z2, Rdiv. apply Rmult_integral_contrapositive_currified;
      [apply Rmult_integral_contrapositive_currified; lra|].
    apply Rinv_neq_0_compat. lra. }
  set (c4 := if (0 <? tag)%Z then 1 else if (tag <? 0)%Z then 1 else 0).
  set (e := if (tag <? 0)%Z then -1 else 1).
  set (B := fun z t => Rerf (xt t) - faddeeva_term (xt t) z).
  set (Phi := fun t => sigma * sqrt 2 / 8 * (c4 * (B z1 t / z1 + e * (B z2 t / z2)))).
  rewrite (@FTC_lim Phi (fun t => functions.Convoluted_exp_sinhcosh t a b mu sigma tag) L U).
  - rewrite Integrated_convoluted_exp_sinhcosh_terms. cbv zeta.
    fold z1 z2 c4 e. fold (B z1 U) (B z1 L) (B z2 U) (B z2 L).
    unfold Phi. field. split; assumption.
  - exact HLU.
  - intro t. rewrite Convoluted_exp_sinhcosh_terms. fold z1 z2 e.
    pose proof (bracket_derivative z1 t) as D1.
    pose proof (bracket_derivative z2 t) as D2.
    pose proof (derivable_pt_lim_div_scal _ t _ z1 D1) as D1'.
    pose proof (derivable_pt_lim_div_scal _ t _ z2 D2) as D2'.
    pose proof (derivable_pt_lim_scal _ e t _ D2') as D2''.
    pose proof (derivable_pt_lim_plus _ _ t _ _ D1' D2'') as D3.
    pose proof (derivable_pt_lim_scal _ c4 t _ D3) as D4.
    pose proof (derivable_pt_lim_scal _ (sigma * sqrt 2 / 8) t _ D4) as D5.
    eapply derivable_pt_lim_ext; [|
      match type of D5 with derivable_pt_lim _ _ ?l =>
        match goal with |- derivable_pt_lim _ _ ?l' => replace l' with l; [exact D5|] end
      end].
    + intro u. reflexivity.
    + unfold c4. destruct (0 <? tag)%Z; [|destruct (tag <? 0)%Z]; field; repeat split; lra.
  - intro t. apply derivable_continuous_pt, Convoluted_exp_sinhcosh_derivable.
Qed.

End IntegratedKernel.

Lemma Integrated_convoluted_exp_sinhcosh_is_integral_witness :
  RiemannInt (@Convoluted_exp_sinhcosh_integrable 0 1 Rlt_0_1 1 0 1 0 1 Rle_0_1)
  = (1 * sqrt 2 / 8
     * functions.Integrated_convoluted_exp_sinhcosh 0 1 0 0 1 0 1 1)%R.
Proof. apply Integrated_convoluted_exp_sinhcosh_is_integral; lra. Defined.

Section IntervalAlgebra.
Local Open Scope R_scope.


End IntervalAlgebra.

Section KernelSign.
Local Open Scope R_scope.





End KernelSign.


Section KernelDerivative.
Local Open Scope R_scope.

(** X5. In exact arithmetic, for sigma > 0, the kernels are
    differentiable in time and obey the evolution equations of the decay law
    driven by the Gaussian density G of mean mu and width sigma:
    d/dt cosh-kernel = -a * cosh-kernel + b * sinh-kernel + G(t) and
    d/dt sinh-kernel = -a * sinh-kernel + b * cosh-kernel. *)
Theorem Convoluted_exp_sinhcosh_time_derivative
    (a b mu sigma t : R) (tagc tags : Z) :
  0 < sigma -> (0 < tagc)%Z -> (tags < 0)%Z ->
  let Hc u := functions.Convoluted_exp_sinhcosh u a b mu sigma tagc in
  let Hs u := functions.Convoluted_exp_sinhcosh u a b mu sigma tags in
  derivable_pt_lim Hc t (- a * Hc t + b * Hs t + gaussian mu sigma t) /\
  derivable_pt_lim Hs t (- a * Hs t + b * Hc t).
Proof.
  intros Hsigma Hc0 Hs0 Hc Hs.
  assert (Ec : forall u, functions.Convoluted_exp_sinhcosh u a b mu sigma 1 = Hc u).
  { intro u. unfold Hc.
    destruct (Convoluted_exp_sinhcosh_cases u a b mu sigma 1) as [E1 _].
    destruct (Convoluted_exp_sinhcosh_cases u a b mu sigma tagc) as [E2 _].
    rewrite E1, E2 by lia. reflexivity. }
  assert (Es : forall u, functions.Convoluted_exp_sinhcosh u a b mu sigma (-1) = Hs u).
  { intro u. unfold Hs.
    destruct (Convoluted_exp_sinhcosh_cases u a b mu sigma (-1)) as [_ [E1 _]].
    destruct (Convoluted_exp_sinhcosh_cases u a b mu sigma tags) as [_ [E2 _]].
    rewrite E1, E2 by lia. reflexivity. }
  destruct (@Convoluted_exp_sinhcosh_evolution mu sigma Hsigma a b t) as [Dc Ds].
  cbv zeta in Dc, Ds. rewrite !Ec, !Es in Dc. rewrite !Ec, !Es in Ds.
  split; eapply derivable_pt_lim_ext; try eassumption; assumption.
Qed.

End KernelDerivative.

Section KernelDerivativeWitness.
Local Open Scope R_scope.

Lemma Convoluted_exp_sinhcosh_time_derivative_witness :
  0 < 1 /\
  derivable_pt_lim (fun u => functions.Convoluted_exp_sinhcosh u 1 0 0 1 (-1)%Z) 0
    (- 1 * functions.Convoluted_exp_sinhcosh 0 1 0 0 1 (-1)%Z
     + 0 * functions.Convoluted_exp_sinhcosh 0 1 0 0 1 1%Z).
Proof.
  split; [lra|].
  apply (proj2 (@Convoluted_exp_sinhcosh_time_derivative 1 0 0 1 0 1 (-1)
                  Rlt_0_1 ltac:(lia) ltac:(lia))).
Defined.

End KernelDerivativeWitness.

Section KernelParity.
Local Open Scope dbl_scope.

(** X4. In double precision, for every libm, the cosh forms (tag > 0) of
    the pointwise and of the integrated kernel return the same double for b
    and for -b; in exact arithmetic the sinh forms (tag < 0) are odd in b. *)
Theorem Convoluted_exp_sinhcosh_parity (tagc tags : Z) :
  (0 < tagc)%Z -> (tags < 0)%Z ->
  (forall (LM : Libm float) (time a b mu sigma LowerLimit UpperLimit : float),
      functions.Convoluted_exp_sinhcosh time a (- b) mu sigma tagc
      = functions.Convoluted_exp_sinhcosh time a b mu sigma tagc /\
      functions.Integrated_convoluted_exp_sinhcosh time a (- b) mu sigma
        LowerLimit UpperLimit tagc
      = functions.Integrated_convoluted_exp_sinhcosh time a b mu sigma
          LowerLimit UpperLimit tagc) /\
  (forall (time a b mu sigma LowerLimit UpperLimit : R),
      functions.Convoluted_exp_sinhcosh time a (- b) mu sigma tags
      = - functions.Convoluted_exp_sinhcosh time a b mu sigma tags /\
      functions.Integrated_convoluted_exp_sinhcosh time a (- b) mu sigma
        LowerLimit UpperLimit tags
      = - functions.Integrated_convoluted_exp_sinhcosh time a b mu sigma
            LowerLimit UpperLimit tags).
Proof.
  intros Hc Hs. split.
  - intros LM time a b mu sigma L U.
    unfold functions.Convoluted_exp_sinhcosh, functions.Integrated_convoluted_exp_sinhcosh.
    cbv zeta.
    destruct (Z.ltb_spec 0 tagc); [|lia]. destruct (Z.ltb_spec tagc 0); [lia|].
    cbn [d_add d_sub d_mul d_div d_opp binary64].
    rewrite float_sub_opp_r, add_opp_r.
    split; [f_equal|]; apply float_add_comm.
  - intros time a b mu sigma L U.
    unfold functions.Convoluted_exp_sinhcosh, functions.Integrated_convoluted_exp_sinhcosh.
    cbv zeta.
    destruct (Z.ltb_spec 0 tags); [lia|]. destruct (Z.ltb_spec tags 0); [|lia].
    to_reals.
    replace ((a - - b) * sigma / sqrt 2)%R with ((a + b) * sigma / sqrt 2)%R
      by (unfold Rdiv; ring).
    replace ((a + - b) * sigma / sqrt 2)%R with ((a - b) * sigma / sqrt 2)%R
      by (unfold Rdiv; ring).
    split; ring.
Qed.

End KernelParity.

Lemma Convoluted_exp_sinhcosh_parity_witness :
  (0 < 1)%Z /\ (-1 < 0)%Z /\
  functions.Convoluted_exp_sinhcosh 0%R 1%R (Ropp 1) 0%R 1%R (-1)
  = Ropp (functions.Convoluted_exp_sinhcosh 0%R 1%R 1%R 0%R 1%R (-1)).
Proof.
  split; [lia|]. split; [lia|].
  apply (proj2 (@Convoluted_exp_sinhcosh_parity 1 (-1) ltac:(lia) ltac:(lia))
           0%R 1%R 1%R 0%R 1%R 0%R 0%R).
Defined.

(** ** The cubic spline in exact arithmetic *)

Section KnotVector.
Context {T : Type} {AT : Arith T}.

(** The knot vector [u] stored by the constructor: the knots, with the
    first and the last one repeated three more times. *)
Lemma ctor_u_at (nKnots : nat) (knots : list T) (j : nat) :
  1 <= nKnots -> j < nKnots + 6 ->
  CubicSpline.at_ (CubicSpline.ctor_u nKnots knots) j
  = CubicSpline.at_ knots (Nat.min (j - 3) (nKnots - 1)).
Proof.
  intros Hn Hj. unfold CubicSpline.ctor_u.
  do 3 (destruct j as [|j]; [reflexivity|]).
  cbn [app CubicSpline.at_ nth]. unfold CubicSpline.at_.
  replace (S (S (S j)) - 3) with j by lia.
  destruct (Nat.lt_ge_cases j nKnots) as [Hlt|Hge].
  - rewrite app_nth1 by (rewrite length_map, length_seq; exact Hlt).
    rewrite (nth_indep _ (lit 0) (nth 0 knots (lit 0)))
      by (rewrite length_map, length_seq; exact Hlt).
    rewrite (map_nth (fun i => nth i knots (lit 0)) (seq 0 nKnots) 0 j).
    rewrite seq_nth by exact Hlt. f_equal. lia.
  - rewrite app_nth2 by (rewrite length_map, length_seq; exact Hge).
    rewrite length_map, length_seq.
    replace (Nat.min j (nKnots - 1)) with (nKnots - 1) by lia.
    destruct (j - nKnots) as [|[|[|k]]] eqn:E; try reflexivity. lia.
Qed.

(** The entry of an interval before the last one is the snapped coefficient
    [AS_inner]. *)
Lemma ctor_inner_entry (nKnots : nat) (knots coeffs : list T) (uninit : T) (r i : nat) :
  r < 4 -> i < nKnots - 1 ->
  CubicSpline.GetOverCoeff (CubicSpline.CubicSpline nKnots knots coeffs uninit) r i
  = CubicSpline.AS_inner nKnots knots coeffs r i.
Proof.
  intros Hr Hi. unfold CubicSpline.GetOverCoeff, CubicSpline.CubicSpline, CubicSpline.ctor_AS.
  cbn [CubicSpline.AS].
  assert (Hrow : nth r (map (fun r0 => map (CubicSpline.AS_inner nKnots knots coeffs r0)
                                      (seq 0 (nKnots - 1))
                                    ++ [CubicSpline.AS_last nKnots knots coeffs r0])
                         (seq 0 4)) []
                 = map (CubicSpline.AS_inner nKnots knots coeffs r) (seq 0 (nKnots - 1))
                   ++ [CubicSpline.AS_last nKnots knots coeffs r]).
  { do 4 (destruct r as [|r]; [reflexivity|]). lia. }
  rewrite Hrow. unfold CubicSpline.at_.
  rewrite app_nth1 by (rewrite length_map, length_seq; exact Hi).
  rewrite (nth_indep _ (lit 0) (CubicSpline.AS_inner nKnots knots coeffs r 0))
    by (rewrite length_map, length_seq; exact Hi).
  rewrite (map_nth (CubicSpline.AS_inner nKnots knots coeffs r) (seq 0 (nKnots - 1)) 0 i).
  rewrite seq_nth by exact Hi. reflexivity.
Qed.

End KnotVector.

Section RawCoefficientsFacts.
Context {T : Type} {AT : Arith T}.

Lemma AS_inner_raw (nKnots : nat) (knots coeffs : list T) (r i : nat) :
  CubicSpline.AS_inner nKnots knots coeffs r i
  = CubicSpline.snap (AS_raw nKnots knots coeffs r i).
Proof. destruct r as [|[|[|r]]]; reflexivity. Qed.

End RawCoefficientsFacts.

Section SplineAlgebra.
Local Open Scope R_scope.
Variable nKnots : nat.
Variable knots : list R.
Hypothesis knots_increasing : increasing_knots nKnots knots.

Let U (j : nat) : R := CubicSpline.at_ (CubicSpline.ctor_u nKnots knots) j.

Lemma knots_monotone (i j : nat) :
  (i <= j < nKnots)%nat -> CubicSpline.at_ knots i <= CubicSpline.at_ knots j.
Proof.
  intros [Hij Hj]. destruct (Nat.eq_dec i j) as [->|Hne]; [lra|].
  left. apply knots_increasing. lia.
Qed.

(** Around an interval [i < nKnots - 1] the six knots used by the
    prefactors are ordered, with a strict step across the interval. *)
Lemma ctor_u_window (i : nat) :
  (i + 1 < nKnots)%nat ->
  U (i+1) <= U (i+2) /\ U (i+2) <= U (i+3) /\ U (i+3) < U (i+4) /\
  U (i+4) <= U (i+5) /\ U (i+5) <= U (i+6).
Proof.
  intro Hi. unfold U. rewrite !ctor_u_at by lia.
  repeat split; try (apply knots_monotone; lia).
  replace (Nat.min (i + 3 - 3) (nKnots - 1)) with i by lia.
  replace (Nat.min (i + 4 - 3) (nKnots - 1)) with (i + 1)%nat by lia.
  apply knots_increasing. lia.
Qed.

(** The four basis polynomials of an interval sum to the constant 1. *)
Lemma basis_partition_of_unity (i : nat) :
  (i + 1 < nKnots)%nat ->
  let a r k := match r with
               | 0%nat => CubicSpline.a0 nKnots knots k i
               | 1%nat => CubicSpline.a1 nKnots knots k i
               | 2%nat => CubicSpline.a2 nKnots knots k i
               | _ => CubicSpline.a3 nKnots knots k i
               end in
  a 0%nat 0%nat + a 0%nat 1%nat + a 0%nat 2%nat + a 0%nat 3%nat = 1 /\
  a 1%nat 0%nat + a 1%nat 1%nat + a 1%nat 2%nat + a 1%nat 3%nat = 0 /\
  a 2%nat 0%nat + a 2%nat 1%nat + a 2%nat 2%nat + a 2%nat 3%nat = 0 /\
  a 3%nat 0%nat + a 3%nat 1%nat + a 3%nat 2%nat + a 3%nat 3%nat = 0.
Proof.
  intro Hi. destruct (ctor_u_window i Hi) as [H1 [H2 [H3 [H4 H5]]]].
  assert (L1 : Q2R 1 = 1) by (unfold Q2R; cbn; lra).
  assert (L2 : Q2R 2 = 2) by (unfold Q2R; cbn; lra).
  assert (L3 : Q2R 3 = 3) by (unfold Q2R; cbn; lra).
  assert (M1 : Q2R (-1) = -1) by (unfold Q2R; cbn; lra).
  assert (M3 : Q2R (-3) = -3) by (unfold Q2R; cbn; lra).
  cbv zeta.
  unfold CubicSpline.a0, CubicSpline.a1, CubicSpline.a2, CubicSpline.a3,
    CubicSpline.P, CubicSpline.Q, CubicSpline.R, CubicSpline.S. to_reals.
  fold (U (i+1)) (U (i+2)) (U (i+3)) (U (i+4)) (U (i+5)) (U (i+6)).
  rewrite ?L1, ?L2, ?L3, ?M1, ?M3.
  set (u1 := U (i+1)) in *. set (u2 := U (i+2)) in *. set (u3 := U (i+3)) in *.
  set (u4 := U (i+4)) in *. set (u5 := U (i+5)) in *. set (u6 := U (i+6)) in *.
  repeat split; field; repeat split; lra.
Qed.

End SplineAlgebra.

Section ConstantSpline.
Local Open Scope R_scope.
Variable nKnots : nat.
Variables (knots coeffs : list R) (uninit c : R).
Hypothesis two_knots : (2 <= nKnots)%nat.
Hypothesis knots_increasing : increasing_knots nKnots knots.
Hypothesis coeffs_constant : forall i, (i < nKnots + 2)%nat -> CubicSpline.at_ coeffs i = c.

Lemma snap_zero : CubicSpline.snap (0 : R) = 0.
Proof.
  unfold CubicSpline.snap. to_reals. rewrite RMicromega.Q2R_0.
  destruct (Rltb (Rabs 0) (Q2R 1e-9)); reflexivity.
Qed.

Lemma constant_raw (r i : nat) :
  (i + 1 < nKnots)%nat ->
  AS_raw nKnots knots coeffs r i = match r with 0%nat => c | _ => 0 end.
Proof.
  intro Hi.
  destruct (@basis_partition_of_unity nKnots knots knots_increasing i Hi)
    as [S0 [S1 [S2 S3]]].
  unfold AS_raw. cbv zeta.
  rewrite !coeffs_constant by lia. to_reals.
  destruct r as [|[|[|r]]].
  - rewrite <- (Rmult_1_r c) at 5. rewrite <- S0. ring.
  - rewrite <- (Rmult_0_r c), <- S1. ring.
  - rewrite <- (Rmult_0_r c), <- S2. ring.
  - rewrite <- (Rmult_0_r c), <- S3. ring.
Qed.

Lemma constant_inner (r i : nat) :
  (i + 1 < nKnots)%nat ->
  CubicSpline.AS_inner nKnots knots coeffs r i
  = match r with 0%nat => CubicSpline.snap c | _ => 0 end.
Proof.
  intro Hi. rewrite AS_inner_raw, constant_raw by exact Hi.
  destruct r as [|r]; [reflexivity|apply snap_zero].
Qed.

Lemma constant_last (r : nat) :
  CubicSpline.AS_last nKnots knots coeffs r
  = match r with 0%nat => CubicSpline.snap c | _ => 0 end.
Proof.
  unfold CubicSpline.AS_last. cbv zeta.
  rewrite !constant_inner by lia. to_reals. rewrite RMicromega.Q2R_0.
  destruct r as [|[|r]]; try reflexivity; ring.
Qed.

Lemma constant_entry (r j : nat) :
  (r < 4)%nat -> (j < nKnots)%nat ->
  CubicSpline.GetOverCoeff (CubicSpline.CubicSpline nKnots knots coeffs uninit) r j
  = match r with 0%nat => CubicSpline.snap c | _ => 0 end.
Proof.
  intros Hr Hj. destruct (Nat.eq_dec j (nKnots - 1)) as [->|Hne].
  - rewrite ctor_last_entry by exact Hr. apply constant_last.
  - rewrite ctor_inner_entry by lia. apply constant_inner. lia.
Qed.

End ConstantSpline.

Section ConstantSplineEval.
Local Open Scope R_scope.

(** X6. In exact arithmetic, for strictly increasing knots, a spline whose
    nKnots+2 coefficients all equal c evaluates to c at every x (the basis
    is a partition of unity, and the extrapolation has slope 0), except that
    a non-zero c of magnitude below 1e-9 is cut to 0 by the constructor. *)
Theorem CSplineEval_constant (nKnots : nat) (knots coeffs : list R) (uninit c x : R) :
  (2 <= nKnots)%nat ->
  increasing_knots nKnots knots ->
  (forall i, (i < nKnots + 2)%nat -> CubicSpline.at_ coeffs i = c) ->
  CubicSpline.CSplineEval nKnots (CubicSpline.CubicSpline nKnots knots coeffs uninit) x
  = (if Rltb (Rabs c) (Q2R 1e-9) then 0 else c).
Proof.
  intros Hn Hinc Hc.
  set (s := CubicSpline.CubicSpline nKnots knots coeffs uninit).
  assert (Hneg : CubicSpline.NegativePart s = false).
  { unfold s, CubicSpline.CubicSpline. cbv zeta. cbn [CubicSpline.NegativePart].
    rewrite (@constant_last nKnots knots coeffs c Hn Hinc Hc 1). to_reals.
    rewrite RMicromega.Q2R_0. apply Rltb_false. lra. }
  unfold CubicSpline.CSplineEval. rewrite Hneg, andb_false_r. cbv zeta.
  assert (Hj : (CubicSpline.findKnot nKnots s x < nKnots)%nat).
  { destruct (findKnot_spec nKnots s x) as [[_ H0]|[Hlt _]]; cbv zeta in *; lia. }
  unfold s. rewrite !(@constant_entry nKnots knots coeffs uninit c Hn Hinc Hc) by (lia || exact Hj).
  to_reals. unfold CubicSpline.snap. to_reals. rewrite RMicromega.Q2R_0.
  destruct (Rltb (Rabs c) (Q2R 1e-9)); ring.
Qed.

End ConstantSplineEval.

Section SplineSmoothness.
Local Open Scope R_scope.
Variable nKnots : nat.
Variables (knots coeffs : list R).
Hypothesis knots_increasing : increasing_knots nKnots knots.

Let U (j : nat) : R := CubicSpline.at_ (CubicSpline.ctor_u nKnots knots) j.
Let p (r i : nat) : R := AS_raw nKnots knots coeffs r i.

Lemma raw_pieces_join (i : nat) :
  (i + 2 < nKnots)%nat ->
  let x := CubicSpline.at_ knots (i + 1) in
  p 0 i + p 1 i * x + p 2 i * x * x + p 3 i * x * x * x
  = p 0 (i+1) + p 1 (i+1) * x + p 2 (i+1) * x * x + p 3 (i+1) * x * x * x /\
  p 1 i + 2 * p 2 i * x + 3 * p 3 i * x * x
  = p 1 (i+1) + 2 * p 2 (i+1) * x + 3 * p 3 (i+1) * x * x /\
  2 * p 2 i + 6 * p 3 i * x = 2 * p 2 (i+1) + 6 * p 3 (i+1) * x.
Proof.
  intro Hi.
  assert (Hi0 : (i + 1 < nKnots)%nat) by lia.
  assert (Hi1 : (i + 1 + 1 < nKnots)%nat) by lia.
  destruct (@ctor_u_window nKnots knots knots_increasing i Hi0) as [H1 [H2 [H3 [H4 H5]]]].
  destruct (@ctor_u_window nKnots knots knots_increasing (i+1) Hi1) as [_ [_ [H6 [_ H7]]]].
  assert (Hx : CubicSpline.at_ knots (i + 1) = U (i + 4)).
  { unfold U. rewrite ctor_u_at by lia. f_equal. lia. }
  assert (L1 : Q2R 1 = 1) by (unfold Q2R; cbn; lra).
  assert (L2 : Q2R 2 = 2) by (unfold Q2R; cbn; lra).
  assert (L3 : Q2R 3 = 3) by (unfold Q2R; cbn; lra).
  assert (M1 : Q2R (-1) = -1) by (unfold Q2R; cbn; lra).
  assert (M3 : Q2R (-3) = -3) by (unfold Q2R; cbn; lra).
  cbv zeta. rewrite Hx. unfold p, AS_raw. cbv zeta.
  unfold CubicSpline.a0, CubicSpline.a1, CubicSpline.a2, CubicSpline.a3,
    CubicSpline.P, CubicSpline.Q, CubicSpline.R, CubicSpline.S. to_reals.
  rewrite <- !Nat.add_assoc in *. cbn [Nat.add] in *.
  fold (U (i+1)) (U (i+2)) (U (i+3)) (U (i+4)) (U (i+5)) (U (i+6)) (U (i+7)) in *.
  rewrite ?L1, ?L2, ?L3, ?M1, ?M3.
  set (u1 := U (i+1)) in *. set (u2 := U (i+2)) in *. set (u3 := U (i+3)) in *.
  set (u4 := U (i+4)) in *. set (u5 := U (i+5)) in *. set (u6 := U (i+6)) in *.
  set (u7 := U (i+7)) in *.
  set (b0 := CubicSpline.at_ coeffs i). set (b1 := CubicSpline.at_ coeffs (i+1)).
  set (b2 := CubicSpline.at_ coeffs (i+2)). set (b3 := CubicSpline.at_ coeffs (i+3)).
  set (b4 := CubicSpline.at_ coeffs (i+4)).
  repeat split; field; repeat split; lra.
Qed.

End SplineSmoothness.

Section StoredPieces.
Local Open Scope R_scope.

(** X7. In exact arithmetic, for strictly increasing knots, the cubic
    polynomials the constructor computes for two neighbouring intervals
    (before the 1e-9 cut) agree at the knot between them in value, first and
    second derivative; the stored coefficients do so whenever the cut leaves
    the eight coefficients as they are. *)
Theorem CubicSpline_pieces_C2 (nKnots : nat) (knots coeffs : list R) (uninit : R) (i : nat) :
  increasing_knots nKnots knots ->
  (i + 2 < nKnots)%nat ->
  let x := CubicSpline.at_ knots (i + 1) in
  let joined (q : nat -> nat -> R) :=
    q 0%nat i + q 1%nat i * x + q 2%nat i * x * x + q 3%nat i * x * x * x
    = q 0%nat (i+1)%nat + q 1%nat (i+1)%nat * x + q 2%nat (i+1)%nat * x * x
      + q 3%nat (i+1)%nat * x * x * x /\
    q 1%nat i + 2 * q 2%nat i * x + 3 * q 3%nat i * x * x
    = q 1%nat (i+1)%nat + 2 * q 2%nat (i+1)%nat * x + 3 * q 3%nat (i+1)%nat * x * x /\
    2 * q 2%nat i + 6 * q 3%nat i * x
    = 2 * q 2%nat (i+1)%nat + 6 * q 3%nat (i+1)%nat * x in
  joined (AS_raw nKnots knots coeffs) /\
  ((forall r j, (r < 4)%nat -> j = i \/ j = (i + 1)%nat ->
      CubicSpline.snap (AS_raw nKnots knots coeffs r j) = AS_raw nKnots knots coeffs r j) ->
   joined (CubicSpline.GetOverCoeff (CubicSpline.CubicSpline nKnots knots coeffs uninit))).
Proof.
  intros Hinc Hi x joined.
  assert (Hraw : joined (AS_raw nKnots knots coeffs)).
  { exact (@raw_pieces_join nKnots knots coeffs Hinc i Hi). }
  split; [exact Hraw|]. intro Hcut.
  assert (Hst : forall r j, (r < 4)%nat -> j = i \/ j = (i + 1)%nat ->
            CubicSpline.GetOverCoeff (CubicSpline.CubicSpline nKnots knots coeffs uninit) r j
            = AS_raw nKnots knots coeffs r j).
  { intros r j Hr Hj. rewrite ctor_inner_entry by (destruct Hj; subst; lia).
    rewrite AS_inner_raw. apply Hcut; assumption. }
  unfold joined. rewrite !Hst by (lia || auto). exact Hraw.
Qed.

Lemma extrapolation_tangent
    (nKnots : nat) (knots coeffs : list R) (uninit : R) :
  (2 <= nKnots)%nat ->
  let s := CubicSpline.CubicSpline nKnots knots coeffs uninit in
  let v := CubicSpline.at_ knots (nKnots - 1) in
  let c r := CubicSpline.GetOverCoeff s r (nKnots - 2) in
  let l r := CubicSpline.GetOverCoeff s r (nKnots - 1) in
  l 0%nat + l 1%nat * v = c 0%nat + c 1%nat * v + c 2%nat * v * v + c 3%nat * v * v * v /\
  l 1%nat = c 1%nat + 2 * c 2%nat * v + 3 * c 3%nat * v * v /\
  l 2%nat = 0 /\ l 3%nat = 0.
Proof.
  intros Hn s v c l. unfold l, c, s.
  rewrite !ctor_last_entry, !ctor_inner_entry by lia.
  unfold CubicSpline.AS_last. cbv zeta.
  rewrite ctor_u_at by lia.
  replace (Nat.min (nKnots + 2 - 3) (nKnots - 1)) with (nKnots - 1)%nat by lia.
  fold v. to_reals.
  assert (L2 : Q2R 2 = 2) by (unfold Q2R; cbn; lra).
  assert (L3 : Q2R 3 = 3) by (unfold Q2R; cbn; lra).
  rewrite L2, L3, RMicromega.Q2R_0.
  repeat split; ring.
Qed.

(** X8. In exact arithmetic (nKnots >= 2, any knots and coefficients) the
    stored piece after the last knot is the tangent line, at the last knot,
    of the stored cubic of the last interval: same value, same slope, no
    quadratic or cubic part. *)
Theorem CubicSpline_extrapolation_is_tangent
    (nKnots : nat) (knots coeffs : list R) (uninit : R) :
  (2 <= nKnots)%nat ->
  let s := CubicSpline.CubicSpline nKnots knots coeffs uninit in
  let v := CubicSpline.at_ knots (nKnots - 1) in
  let c r := CubicSpline.GetOverCoeff s r (nKnots - 2) in
  let l r := CubicSpline.GetOverCoeff s r (nKnots - 1) in
  l 0%nat + l 1%nat * v = c 0%nat + c 1%nat * v + c 2%nat * v * v + c 3%nat * v * v * v /\
  l 1%nat = c 1%nat + 2 * c 2%nat * v + 3 * c 3%nat * v * v /\
  l 2%nat = 0 /\ l 3%nat = 0.
Proof. intro Hn. apply extrapolation_tangent. exact Hn. Qed.

End StoredPieces.

Section KnotBrackets.
Local Open Scope R_scope.
Variable nKnots : nat.
Variables (knots coeffs : list R) (uninit : R).
Hypothesis one_knot : (1 <= nKnots)%nat.

Let s := CubicSpline.CubicSpline nKnots knots coeffs uninit.

Lemma ctor_knot (i : nat) :
  (i < nKnots)%nat -> CubicSpline.at_ (CubicSpline.u s) (3 + i) = CubicSpline.at_ knots i.
Proof.
  intro Hi. unfold s, CubicSpline.CubicSpline. cbv zeta. cbn [CubicSpline.u].
  rewrite ctor_u_at by lia. f_equal. lia.
Qed.

Lemma Rleb_true x y : Rleb x y = true <-> x <= y.
Proof. unfold Rleb. destruct (Rle_dec x y); split; intros; try discriminate; tauto. Qed.

Lemma Rleb_false x y : Rleb x y = false <-> y < x.
Proof.
  unfold Rleb. destruct (Rle_dec x y); split; intros; try discriminate; try lra; tauto.
Qed.

(** The index found is the last knot not above x. *)
Lemma findKnot_last_below (x : R) (j : nat) :
  (j < nKnots)%nat ->
  CubicSpline.at_ knots j <= x ->
  (forall i, (j < i < nKnots)%nat -> x < CubicSpline.at_ knots i) ->
  CubicSpline.findKnot nKnots s x = j.
Proof.
  intros Hj Hle Hgt.
  destruct (findKnot_spec nKnots s x) as [[Hnone _]|[Hlt [Hat Hafter]]]; cbv zeta in *.
  - specialize (Hnone j Hj). rewrite ctor_knot in Hnone by exact Hj.
    to_reals. apply Rleb_false in Hnone. lra.
  - set (k := CubicSpline.findKnot nKnots s x) in *.
    rewrite ctor_knot in Hat by exact Hlt. to_reals. apply Rleb_true in Hat.
    destruct (Nat.lt_trichotomy k j) as [Hkj|[Hkj|Hkj]]; [|exact Hkj|].
    + specialize (Hafter j (conj Hkj Hj)). rewrite ctor_knot in Hafter by exact Hj.
      to_reals. apply Rleb_false in Hafter. lra.
    + specialize (Hgt k (conj Hkj Hlt)). lra.
Qed.

Lemma findKnot_none_below (x : R) :
  (forall i, (i < nKnots)%nat -> x < CubicSpline.at_ knots i) ->
  CubicSpline.findKnot nKnots s x = 0%nat.
Proof.
  intro Hgt.
  destruct (findKnot_spec nKnots s x) as [[_ H0]|[Hlt [Hat _]]]; cbv zeta in *.
  - exact H0.
  - rewrite ctor_knot in Hat by exact Hlt. to_reals. apply Rleb_true in Hat.
    specialize (Hgt _ Hlt). lra.
Qed.

End KnotBrackets.

Section KnotBracketsClaims.
Local Open Scope R_scope.

(** X11. In exact arithmetic, for strictly increasing knots, [findKnot]
    of a constructed spline returns the interval that contains x: j when
    knots[j] <= x < knots[j+1], the last index nKnots-1 from the last knot
    on, and 0 for every x below the first knot (where the first cubic is
    extrapolated). *)
Theorem findKnot_brackets (nKnots : nat) (knots coeffs : list R) (uninit x : R) :
  (1 <= nKnots)%nat ->
  increasing_knots nKnots knots ->
  let s := CubicSpline.CubicSpline nKnots knots coeffs uninit in
  (forall j, (j + 1 < nKnots)%nat ->
     CubicSpline.at_ knots j <= x < CubicSpline.at_ knots (j + 1) ->
     CubicSpline.findKnot nKnots s x = j) /\
  (CubicSpline.at_ knots (nKnots - 1) <= x ->
     CubicSpline.findKnot nKnots s x = (nKnots - 1)%nat) /\
  (x < CubicSpline.at_ knots 0 -> CubicSpline.findKnot nKnots s x = 0%nat).
Proof.
  intros Hn Hinc s. repeat split.
  - intros j Hj [Hle Hlt]. apply findKnot_last_below; [exact Hn|lia|exact Hle|].
    intros i Hi. apply Rlt_le_trans with (1 := Hlt).
    apply (knots_monotone Hinc). lia.
  - intro Hle. apply findKnot_last_below; [exact Hn|lia|exact Hle|]. intros i Hi. lia.
  - intro Hlt. apply findKnot_none_below; [exact Hn|].
    intros i Hi. apply Rlt_le_trans with (1 := Hlt).
    apply (knots_monotone Hinc). lia.
Qed.

End KnotBracketsClaims.

Section SplineEnds.
Local Open Scope R_scope.
Variable nKnots : nat.
Variables (knots coeffs : list R).
Hypothesis knots_increasing : increasing_knots nKnots knots.

Let U (j : nat) : R := CubicSpline.at_ (CubicSpline.ctor_u nKnots knots) j.
Let p (r i : nat) : R := AS_raw nKnots knots coeffs r i.


End SplineEnds.

Section SplineEndsClaims.
Local Open Scope R_scope.


End SplineEndsClaims.

Section AfterLastKnot.
Local Open Scope R_scope.

(** X12. In exact arithmetic (nKnots >= 2), from the last knot on
    [CSplineEval] is 1e-3 where the guard fires and the extrapolation line
    elsewhere, and it is never negative there if the line has a negative
    slope (the guard then covers its negative part) or is non-negative at the
    last knot. *)
Theorem CSplineEval_after_last_knot
    (nKnots : nat) (knots coeffs : list R) (uninit x : R) :
  (2 <= nKnots)%nat ->
  CubicSpline.at_ knots (nKnots - 1) <= x ->
  let s := CubicSpline.CubicSpline nKnots knots coeffs uninit in
  let v := CubicSpline.at_ knots (nKnots - 1) in
  let l r := CubicSpline.GetOverCoeff s r (nKnots - 1) in
  CubicSpline.CSplineEval nKnots s x
  = (if Rltb (CubicSpline.xNegative s) x && CubicSpline.NegativePart s
     then Q2R 1e-3 else l 0%nat + l 1%nat * x) /\
  (CubicSpline.NegativePart s = true \/ 0 <= l 0%nat + l 1%nat * v ->
   0 <= CubicSpline.CSplineEval nKnots s x).
Proof.
  intros Hn Hx s v l.
  assert (Hj : CubicSpline.findKnot nKnots s x = (nKnots - 1)%nat).
  { apply findKnot_last_below; [lia|lia|exact Hx|]. intros i Hi. lia. }
  destruct (@extrapolation_tangent nKnots knots coeffs uninit Hn) as [_ [_ [H2 H3]]].
  destruct (ctor_crossing nKnots knots coeffs uninit) as [Hflag Hcross].
  fold s in H2, H3, Hflag, Hcross. fold (l 0%nat) (l 1%nat) in Hflag, Hcross.
  assert (Heval : CubicSpline.CSplineEval nKnots s x
                  = (if Rltb (CubicSpline.xNegative s) x && CubicSpline.NegativePart s
                     then Q2R 1e-3 else l 0%nat + l 1%nat * x)).
  { unfold CubicSpline.CSplineEval. to_reals.
    destruct (Rltb (CubicSpline.xNegative s) x && CubicSpline.NegativePart s);
      [reflexivity|].
    cbv zeta. rewrite Hj, H2, H3. unfold l. ring. }
  split; [exact Heval|]. intro Hpos. rewrite Heval.
  destruct (CubicSpline.NegativePart s) eqn:Hneg.
  - destruct (Hcross eq_refl) as [Hzero [_ Hbefore]].
    destruct (Rltb (CubicSpline.xNegative s) x) eqn:Hlt; cbn [andb].
    + unfold Q2R. cbn. lra.
    + apply Rltb_false in Hlt. destruct Hlt as [Hlt|Heq].
      * left. apply Hbefore. exact Hlt.
      * subst x. lra.
  - rewrite andb_false_r.
    destruct Hpos as [Habs|Hpos]; [discriminate|].
    assert (Hslope : 0 <= l 1%nat).
    { destruct (Rle_lt_dec 0 (l 1%nat)) as [H|H]; [exact H|].
      apply Hflag in H. discriminate. }
    fold v in Hx. nra.
Qed.

End AfterLastKnot.

Section ConvexHull.
Local Open Scope R_scope.
Variable nKnots : nat.
Variables (knots coeffs : list R).
Hypothesis knots_increasing : increasing_knots nKnots knots.

Let U (j : nat) : R := CubicSpline.at_ (CubicSpline.ctor_u nKnots knots) j.

(** The basis polynomial [k] of interval [i] at [x], from the coefficient
    tables a0..a3 of the constructor. *)
Let basis (i k : nat) (x : R) : R :=
  CubicSpline.a0 nKnots knots k i + CubicSpline.a1 nKnots knots k i * x
  + CubicSpline.a2 nKnots knots k i * x * x + CubicSpline.a3 nKnots knots k i * x * x * x.

(** On its interval each basis polynomial is non-negative. *)
Lemma basis_nonneg (i k : nat) (x : R) :
  (i + 1 < nKnots)%nat -> (k < 4)%nat ->
  U (i+3) <= x <= U (i+4) ->
  0 <= basis i k x.
Proof.
  intros Hi Hk [Hx3 Hx4].
  destruct (@ctor_u_window nKnots knots knots_increasing i Hi) as [H1 [H2 [H3 [H4 H5]]]].
  assert (L1 : Q2R 1 = 1) by (unfold Q2R; cbn; lra).
  assert (L2 : Q2R 2 = 2) by (unfold Q2R; cbn; lra).
  assert (L3 : Q2R 3 = 3) by (unfold Q2R; cbn; lra).
  assert (M1 : Q2R (-1) = -1) by (unfold Q2R; cbn; lra).
  assert (M3 : Q2R (-3) = -3) by (unfold Q2R; cbn; lra).
  unfold basis.
  unfold CubicSpline.a0, CubicSpline.a1, CubicSpline.a2, CubicSpline.a3,
    CubicSpline.P, CubicSpline.Q, CubicSpline.R, CubicSpline.S. to_reals.
  fold (U (i+1)) (U (i+2)) (U (i+3)) (U (i+4)) (U (i+5)) (U (i+6)) in *.
  rewrite ?L1, ?L2, ?L3, ?M1, ?M3.
  set (u1 := U (i+1)) in *. set (u2 := U (i+2)) in *. set (u3 := U (i+3)) in *.
  set (u4 := U (i+4)) in *. set (u5 := U (i+5)) in *. set (u6 := U (i+6)) in *.
  assert (P1 : 0 < u4 - u1) by lra. assert (P2 : 0 < u4 - u2) by lra.
  assert (P3 : 0 < u4 - u3) by lra. assert (P4 : 0 < u5 - u2) by lra.
  assert (P5 : 0 < u5 - u3) by lra. assert (P6 : 0 < u6 - u3) by lra.
  assert (Hinv : forall d, 0 < d -> 0 < / d) by (intros; apply Rinv_0_lt_compat; assumption).
  assert (Hmul : forall a b, 0 <= a -> 0 <= b -> 0 <= a * b) by (intros; apply Rmult_le_pos; assumption).
  assert (X1 : 0 <= x - u1) by lra. assert (X2 : 0 <= x - u2) by lra.
  assert (X3 : 0 <= x - u3) by lra. assert (X4 : 0 <= u4 - x) by lra.
  assert (X5 : 0 <= u5 - x) by lra. assert (X6 : 0 <= u6 - x) by lra.
  destruct k as [|[|[|k]]].
  - replace (u4 * u4 * u4 / ((u4 - u1) * (u4 - u2) * (u4 - u3))
             + -3 * u4 * u4 / ((u4 - u1) * (u4 - u2) * (u4 - u3)) * x
             + 3 * u4 / ((u4 - u1) * (u4 - u2) * (u4 - u3)) * x * x
             + -1 / ((u4 - u1) * (u4 - u2) * (u4 - u3)) * x * x * x)
      with ((u4 - x) * (u4 - x) * (u4 - x) * / ((u4 - u1) * (u4 - u2) * (u4 - u3)))
      by (field; repeat split; lra).
    apply Hmul; [repeat apply Hmul; assumption|].
    left. apply Hinv. repeat apply Rmult_lt_0_compat; assumption.
  - match goal with |- 0 <= ?e =>
      replace e with
        ((x - u1) * (u4 - x) * (u4 - x) * / ((u4 - u1) * (u4 - u2) * (u4 - u3))
         + (u5 - x) * (x - u2) * (u4 - x) * / ((u5 - u2) * (u4 - u2) * (u4 - u3))
         + (u5 - x) * (u5 - x) * (x - u3) * / ((u5 - u3) * (u5 - u2) * (u4 - u3)))
        by (field; repeat split; lra)
    end.
    repeat apply Rplus_le_le_0_compat;
      (apply Hmul; [repeat apply Hmul; assumption|];
       left; apply Hinv; repeat apply Rmult_lt_0_compat; assumption).
  - match goal with |- 0 <= ?e =>
      replace e with
        ((x - u2) * (x - u2) * (u4 - x) * / ((u5 - u2) * (u4 - u2) * (u4 - u3))
         + (x - u2) * (x - u3) * (u5 - x) * / ((u5 - u3) * (u5 - u2) * (u4 - u3))
         + (x - u3) * (x - u3) * (u6 - x) * / ((u6 - u3) * (u5 - u3) * (u4 - u3)))
        by (field; repeat split; lra)
    end.
    repeat apply Rplus_le_le_0_compat;
      (apply Hmul; [repeat apply Hmul; assumption|];
       left; apply Hinv; repeat apply Rmult_lt_0_compat; assumption).
  - match goal with |- 0 <= ?e =>
      replace e with
        ((x - u3) * (x - u3) * (x - u3) * / ((u6 - u3) * (u5 - u3) * (u4 - u3)))
        by (field; repeat split; lra)
    end.
    apply Hmul; [repeat apply Hmul; assumption|].
    left. apply Hinv. repeat apply Rmult_lt_0_compat; assumption.
Qed.

Lemma raw_piece_hull (i : nat) (x m M : R) :
  (i + 1 < nKnots)%nat ->
  CubicSpline.at_ knots i <= x <= CubicSpline.at_ knots (i + 1) ->
  (forall k, (k < 4)%nat -> m <= CubicSpline.at_ coeffs (i + k) <= M) ->
  let q r := AS_raw nKnots knots coeffs r i in
  m <= q 0%nat + q 1%nat * x + q 2%nat * x * x + q 3%nat * x * x * x <= M.
Proof.
  intros Hi Hx Hb q.
  assert (Hx' : U (i+3) <= x <= U (i+4)).
  { unfold U. rewrite !ctor_u_at by lia.
    replace (Nat.min (i + 3 - 3) (nKnots - 1)) with i by lia.
    replace (Nat.min (i + 4 - 3) (nKnots - 1)) with (i + 1)%nat by lia. exact Hx. }
  pose proof (@basis_nonneg i 0%nat x Hi ltac:(lia) Hx') as B0.
  pose proof (@basis_nonneg i 1%nat x Hi ltac:(lia) Hx') as B1.
  pose proof (@basis_nonneg i 2%nat x Hi ltac:(lia) Hx') as B2.
  pose proof (@basis_nonneg i 3%nat x Hi ltac:(lia) Hx') as B3.
  destruct (@basis_partition_of_unity nKnots knots knots_increasing i Hi)
    as [S0 [S1 [S2 S3]]].
  assert (Hsum : basis i 0 x + basis i 1 x + basis i 2 x + basis i 3 x = 1).
  { unfold basis.
    transitivity ((CubicSpline.a0 nKnots knots 0 i + CubicSpline.a0 nKnots knots 1 i
                   + CubicSpline.a0 nKnots knots 2 i + CubicSpline.a0 nKnots knots 3 i)
                  + (CubicSpline.a1 nKnots knots 0 i + CubicSpline.a1 nKnots knots 1 i
                     + CubicSpline.a1 nKnots knots 2 i + CubicSpline.a1 nKnots knots 3 i) * x
                  + (CubicSpline.a2 nKnots knots 0 i + CubicSpline.a2 nKnots knots 1 i
                     + CubicSpline.a2 nKnots knots 2 i + CubicSpline.a2 nKnots knots 3 i)
                    * x * x
                  + (CubicSpline.a3 nKnots knots 0 i + CubicSpline.a3 nKnots knots 1 i
                     + CubicSpline.a3 nKnots knots 2 i + CubicSpline.a3 nKnots knots 3 i)
                    * x * x * x); [ring|].
    rewrite S0, S1, S2, S3. ring. }
  assert (Hval : q 0%nat + q 1%nat * x + q 2%nat * x * x + q 3%nat * x * x * x
                 = CubicSpline.at_ coeffs i * basis i 0 x
                   + CubicSpline.at_ coeffs (i+1) * basis i 1 x
                   + CubicSpline.at_ coeffs (i+2) * basis i 2 x
                   + CubicSpline.at_ coeffs (i+3) * basis i 3 x).
  { unfold q, AS_raw, basis. cbv zeta. to_reals. ring. }
  rewrite Hval.
  pose proof (Hb 0%nat ltac:(lia)) as C0. rewrite Nat.add_0_r in C0.
  pose proof (Hb 1%nat ltac:(lia)) as C1.
  pose proof (Hb 2%nat ltac:(lia)) as C2.
  pose proof (Hb 3%nat ltac:(lia)) as C3.
  set (b0 := CubicSpline.at_ coeffs i) in *. set (b1 := CubicSpline.at_ coeffs (i+1)) in *.
  set (b2 := CubicSpline.at_ coeffs (i+2)) in *. set (b3 := CubicSpline.at_ coeffs (i+3)) in *.
  set (e0 := basis i 0 x) in *. set (e1 := basis i 1 x) in *.
  set (e2 := basis i 2 x) in *. set (e3 := basis i 3 x) in *.
  split; nra.
Qed.

End ConvexHull.

Section ConvexHullClaims.
Local Open Scope R_scope.

(** X10. In exact arithmetic, for strictly increasing knots, on the
    interval between two neighbouring knots the cubic the constructor computes
    (before the 1e-9 cut) stays between the smallest and the largest of the
    four spline coefficients it combines; in particular it is non-negative
    where they are. [CSplineEval] returns this value inside the interval when
    the cut leaves the four polynomial coefficients as they are and the
    negative-part guard does not fire. *)
Theorem CubicSpline_convex_hull
    (nKnots : nat) (knots coeffs : list R) (uninit : R) (i : nat) (x m M : R) :
  increasing_knots nKnots knots ->
  (i + 1 < nKnots)%nat ->
  CubicSpline.at_ knots i <= x < CubicSpline.at_ knots (i + 1) ->
  (forall k, (k < 4)%nat -> m <= CubicSpline.at_ coeffs (i + k) <= M) ->
  let q r := AS_raw nKnots knots coeffs r i in
  let s := CubicSpline.CubicSpline nKnots knots coeffs uninit in
  m <= q 0%nat + q 1%nat * x + q 2%nat * x * x + q 3%nat * x * x * x <= M /\
  ((forall r, (r < 4)%nat -> CubicSpline.snap (q r) = q r) ->
   Rltb (CubicSpline.xNegative s) x && CubicSpline.NegativePart s = false ->
   m <= CubicSpline.CSplineEval nKnots s x <= M).
Proof.
  intros Hinc Hi [Hx0 Hx1] Hb q s.
  assert (Hraw : m <= q 0%nat + q 1%nat * x + q 2%nat * x * x + q 3%nat * x * x * x <= M).
  { apply (@raw_piece_hull nKnots knots coeffs Hinc i x m M Hi); [lra|exact Hb]. }
  split; [exact Hraw|]. intros Hcut Hguard.
  assert (Hj : CubicSpline.findKnot nKnots s x = i).
  { apply findKnot_last_below; [lia|lia|exact Hx0|].
    intros j Hj. apply Rlt_le_trans with (1 := Hx1). apply (knots_monotone Hinc). lia. }
  unfold CubicSpline.CSplineEval. to_reals. rewrite Hguard. cbv zeta. rewrite Hj.
  unfold s. rewrite !ctor_inner_entry, !AS_inner_raw by lia.
  fold (q 0%nat) (q 1%nat) (q 2%nat) (q 3%nat). rewrite !Hcut by lia. exact Hraw.
Qed.

End ConvexHullClaims.

Section SplineWitnesses.
Local Open Scope R_scope.

Lemma two_knots_increasing : increasing_knots 2 [0; 1].
Proof.
  intros i j [Hij Hj].
  assert (Hi0 : i = 0%nat) by lia. assert (Hj1 : j = 1%nat) by lia. subst.
  cbn. lra.
Qed.

Lemma three_knots_increasing : increasing_knots 3 [0; 1; 2].
Proof.
  intros i j [Hij Hj].
  destruct i as [|[|i]]; destruct j as [|[|[|j]]]; try lia; cbn; lra.
Qed.

Lemma four_ones (i : nat) : (i < 2 + 2)%nat -> CubicSpline.at_ [1; 1; 1; 1] i = 1.
Proof. intro Hi. do 4 (destruct i as [|i]; [reflexivity|]). lia. Qed.

Lemma CSplineEval_constant_witness :
  CubicSpline.CSplineEval 2 (CubicSpline.CubicSpline 2 [0; 1] [1; 1; 1; 1] 0) (/ 2)
  = (if Rltb (Rabs 1) (Q2R 1e-9) then 0 else 1).
Proof.
  apply CSplineEval_constant; [lia|exact two_knots_increasing|exact four_ones].
Defined.

Lemma CubicSpline_pieces_C2_witness :
  increasing_knots 3 [0; 1; 2] /\
  AS_raw 3 [0; 1; 2] [1; 2; 3; 4; 5] 0 0 + AS_raw 3 [0; 1; 2] [1; 2; 3; 4; 5] 1 0 * 1
  + AS_raw 3 [0; 1; 2] [1; 2; 3; 4; 5] 2 0 * 1 * 1
  + AS_raw 3 [0; 1; 2] [1; 2; 3; 4; 5] 3 0 * 1 * 1 * 1
  = AS_raw 3 [0; 1; 2] [1; 2; 3; 4; 5] 0 1 + AS_raw 3 [0; 1; 2] [1; 2; 3; 4; 5] 1 1 * 1
    + AS_raw 3 [0; 1; 2] [1; 2; 3; 4; 5] 2 1 * 1 * 1
    + AS_raw 3 [0; 1; 2] [1; 2; 3; 4; 5] 3 1 * 1 * 1 * 1.
Proof.
  split; [exact three_knots_increasing|].
  exact (proj1 (proj1 (@CubicSpline_pieces_C2 3 [0; 1; 2] [1; 2; 3; 4; 5] 0 0
                         three_knots_increasing ltac:(lia)))).
Defined.

Lemma CubicSpline_extrapolation_is_tangent_witness :
  let s := CubicSpline.CubicSpline 2 [0; 1] [1; 2; 3; 4] 0 in
  CubicSpline.GetOverCoeff s 1 1
  = CubicSpline.GetOverCoeff s 1 0 + 2 * CubicSpline.GetOverCoeff s 2 0 * 1
    + 3 * CubicSpline.GetOverCoeff s 3 0 * 1 * 1.
Proof.
  exact (proj1 (proj2 (@CubicSpline_extrapolation_is_tangent 2 [0; 1] [1; 2; 3; 4] 0
                         ltac:(lia)))).
Defined.

Lemma findKnot_brackets_witness :
  increasing_knots 2 [0; 1] /\
  CubicSpline.findKnot 2 (CubicSpline.CubicSpline 2 [0; 1] [1; 2; 3; 4] 0) (-1) = 0%nat.
Proof.
  split; [exact two_knots_increasing|].
  apply (@findKnot_brackets 2 [0; 1] [1; 2; 3; 4] 0 (-1) ltac:(lia) two_knots_increasing).
  cbn. lra.
Defined.

Lemma CSplineEval_after_last_knot_witness :
  let s := CubicSpline.CubicSpline 2 [0; 1] [1; 2; 3; 4] 0 in
  CubicSpline.at_ [0; 1] (2 - 1) <= 2 /\
  CubicSpline.CSplineEval 2 s 2
  = (if Rltb (CubicSpline.xNegative s) 2 && CubicSpline.NegativePart s
     then Q2R 1e-3
     else CubicSpline.GetOverCoeff s 0 (2 - 1) + CubicSpline.GetOverCoeff s 1 (2 - 1) * 2).
Proof.
  assert (H : CubicSpline.at_ [0; 1] (2 - 1) <= 2) by (cbn; lra).
  split; [exact H|].
  exact (proj1 (@CSplineEval_after_last_knot 2 [0; 1] [1; 2; 3; 4] 0 2 ltac:(lia) H)).
Defined.


Lemma CubicSpline_convex_hull_witness :
  increasing_knots 2 [0; 1] /\
  let q r := AS_raw 2 [0; 1] [0; 1; 2; 3] r 0 in
  0 <= q 0%nat + q 1%nat * / 2 + q 2%nat * / 2 * / 2 + q 3%nat * / 2 * / 2 * / 2 <= 3.
Proof.
  split; [exact two_knots_increasing|].
  refine (proj1 (@CubicSpline_convex_hull 2 [0; 1] [0; 1; 2; 3] 0 0 (/ 2) 0 3
                   two_knots_increasing ltac:(lia) _ _)).
  - cbn. lra.
  - intros k Hk. do 4 (destruct k as [|k]; [cbn; lra|]). lia.
Defined.

End SplineWitnesses.

(** ** The cubic spline in double precision, and its copies *)

Section SplineSpecials.
Local Open Scope dbl_scope.

(** X13. In double precision a NaN argument is never caught by the
    negative-part guard: for every state of the spline, [findKnot] of NaN is 0
    and [CSplineEval] of NaN is NaN. *)
Theorem CSplineEval_nan (nKnots : nat) (s : @CubicSpline.state float) (x : float) :
  is_nan x = true ->
  CubicSpline.findKnot nKnots s x = 0%nat /\
  is_nan (CubicSpline.CSplineEval nKnots s x) = true.
Proof.
  intro Hx.
  assert (Hj : CubicSpline.findKnot nKnots s x = 0%nat).
  { destruct (findKnot_spec nKnots s x) as [[_ H0]|[_ [Hat _]]]; cbv zeta in *.
    - exact H0.
    - cbn [d_leb binary64] in Hat. rewrite nan_not_ge in Hat by exact Hx. discriminate. }
  split; [exact Hj|].
  unfold CubicSpline.CSplineEval. cbn [d_ltb d_add d_mul binary64].
  rewrite (nan_not_gt _ _ Hx). cbn [andb]. cbv zeta.
  apply add_nan_r, mul_nan_r, Hx.
Qed.

(** X14. In double precision, two equal neighbouring knots make all four
    stored coefficients of the interval between them infinite or NaN,
    whatever the spline coefficients are: the prefactor P of the interval is
    zero or NaN and every polynomial coefficient divides by it. *)
Theorem CubicSpline_repeated_knot
    (nKnots : nat) (knots coeffs : list float) (uninit : float) (i r : nat) :
  i + 1 < nKnots ->
  r < 4 ->
  CubicSpline.at_ knots i = CubicSpline.at_ knots (i + 1) ->
  is_finite (CubicSpline.GetOverCoeff
               (CubicSpline.CubicSpline nKnots knots coeffs uninit) r i) = false.
Proof.
  intros Hi Hr Heq.
  rewrite ctor_inner_entry by lia.
  assert (HP : zero_or_nan (CubicSpline.P nKnots knots i) = true).
  { unfold CubicSpline.P. cbn [d_mul d_sub binary64].
    apply mul_zero_or_nan_r.
    rewrite !ctor_u_at by lia.
    replace (Nat.min (i + 4 - 3) (nKnots - 1)) with (i + 1)%nat by lia.
    replace (Nat.min (i + 3 - 3) (nKnots - 1)) with i by lia.
    rewrite <- Heq. apply sub_diag_zero_or_nan. }
  assert (Hsnap : forall y : float, is_finite y = false -> CubicSpline.snap y = y).
  { intros y Hy. unfold CubicSpline.snap. cbn [d_ltb d_fabs binary64].
    rewrite abs_not_finite_not_lt by exact Hy. reflexivity. }
  unfold CubicSpline.AS_inner. cbv zeta.
  assert (Hraw : forall a : nat -> nat -> float,
            is_finite (a 0%nat i) = false ->
            is_finite (CubicSpline.at_ coeffs i * a 0%nat i
                       + CubicSpline.at_ coeffs (i+1) * a 1%nat i
                       + CubicSpline.at_ coeffs (i+2) * a 2%nat i
                       + CubicSpline.at_ coeffs (i+3) * a 3%nat i) = false).
  { intros a Ha. cbn [d_add d_mul binary64].
    do 3 apply add_not_finite_l. apply mul_not_finite_r. exact Ha. }
  destruct r as [|[|[|r]]]; rewrite Hsnap; try apply Hraw; try (apply Hraw);
    cbn [CubicSpline.a0 CubicSpline.a1 CubicSpline.a2 CubicSpline.a3 d_div binary64];
    apply div_zero_or_nan_not_finite; exact HP.
Qed.

End SplineSpecials.

Section SplineCopy.
Context {T : Type} {AT : Arith T}.
Variable nKnots : nat.
Local Open Scope dbl_scope.

Lemma nth_map_seq {X : Type} (f : nat -> X) (n i : nat) (d : X) :
  i < n -> nth i (map f (seq 0 n)) d = f i.
Proof.
  intro Hi. rewrite (nth_indep _ d (f 0)) by (rewrite length_map, length_seq; exact Hi).
  rewrite (map_nth f (seq 0 n) 0 i), seq_nth by exact Hi. reflexivity.
Qed.

Lemma copy_knot (other : CubicSpline.state) (i : nat) :
  i < nKnots ->
  CubicSpline.at_ (CubicSpline.u (CubicSpline_copy nKnots other)) (3 + i)
  = CubicSpline.at_ (CubicSpline.u other) (3 + i).
Proof.
  intro Hi. unfold CubicSpline_copy. cbv zeta. cbn [CubicSpline.u app Nat.add].
  unfold CubicSpline.at_ at 1. cbn [nth].
  rewrite app_nth1 by (rewrite length_map, length_seq; exact Hi).
  rewrite nth_map_seq by exact Hi. reflexivity.
Qed.

Lemma copy_entry (other : CubicSpline.state) (r j : nat) :
  r < 4 -> j < nKnots ->
  CubicSpline.GetOverCoeff (CubicSpline_copy nKnots other) r j
  = CubicSpline.GetOverCoeff other r j.
Proof.
  intros Hr Hj. unfold CubicSpline.GetOverCoeff at 1. unfold CubicSpline_copy. cbv zeta.
  cbn [CubicSpline.AS].
  rewrite (nth_map_seq (fun r0 => map (fun i => CubicSpline.GetOverCoeff other r0 i)
                                    (seq 0 nKnots)) [] Hr).
  unfold CubicSpline.at_. apply nth_map_seq. exact Hj.
Qed.

Lemma fold_left_ext_in {X Y : Type} (f g : X -> Y -> X) (l : list Y) (a : X) :
  (forall acc i, In i l -> f acc i = g acc i) -> fold_left f l a = fold_left g l a.
Proof.
  revert a. induction l as [|i l IH]; intros a H; cbn; [reflexivity|].
  rewrite H by (left; reflexivity). apply IH. intros acc k Hk. apply H. right. exact Hk.
Qed.

Lemma copy_findKnot (other : CubicSpline.state) (x : T) :
  CubicSpline.findKnot nKnots (CubicSpline_copy nKnots other) x
  = CubicSpline.findKnot nKnots other x.
Proof.
  unfold CubicSpline.findKnot. apply fold_left_ext_in.
  intros acc i Hi. apply in_seq in Hi. rewrite copy_knot by lia. reflexivity.
Qed.

(** X15. In every arithmetic (nKnots >= 1), a copy of a spline (copy
    constructor or [operator=]) finds the same knot and evaluates to the
    same value at every x. *)
Theorem CubicSpline_copy_evaluates_alike (same_object : bool)
    (this other : CubicSpline.state) (x : T) :
  1 <= nKnots ->
  (same_object = true -> this = other) ->
  CubicSpline.CSplineEval nKnots (CubicSpline_copy nKnots other) x
  = CubicSpline.CSplineEval nKnots other x /\
  CubicSpline.CSplineEval nKnots (CubicSpline_assign nKnots same_object this other) x
  = CubicSpline.CSplineEval nKnots other x.
Proof.
  intros Hn Hsame.
  assert (Hcopy : CubicSpline.CSplineEval nKnots (CubicSpline_copy nKnots other) x
                  = CubicSpline.CSplineEval nKnots other x).
  { unfold CubicSpline.CSplineEval. rewrite copy_findKnot. cbv zeta.
    assert (Hj : CubicSpline.findKnot nKnots other x < nKnots).
    { destruct (findKnot_spec nKnots other x) as [[_ H0]|[Hlt _]]; cbv zeta in *; lia. }
    rewrite !copy_entry by (lia || exact Hj). reflexivity. }
  split; [exact Hcopy|].
  unfold CubicSpline_assign. destruct same_object; [|exact Hcopy].
  rewrite (Hsame eq_refl). reflexivity.
Qed.

End SplineCopy.

(** ** The functor: Update, constructors, copies *)

Section PhisSignalUpdate.
Context {T : Type} {AT : Arith T} {LM : Libm T} {PM : Parameters T}.
Local Open Scope dbl_scope.

(** X16. In every arithmetic, [Update] is idempotent: the tables it
    leaves depend on the parameters (and on the previous N where the guard
    of Update_NFactors fails), so a second call changes nothing. *)
Theorem Update_idempotent (s : PhisSignal.state) :
  PhisSignal.Update (PhisSignal.Update s) = PhisSignal.Update s.
Proof.
  unfold PhisSignal.Update, PhisSignal.Update_NFactors, PhisSignal.Update_ATCoefficients.
  destruct (ATCoefficients (PhisSignal._par s)) as [[[a b] c] d] eqn:E.
  cbv zeta. cbn [PhisSignal._par PhisSignal.N PhisSignal.A PhisSignal.B PhisSignal.C
                 PhisSignal.D].
  destruct (lit 1 - PhisSignal.at_ (PhisSignal._par s) 0
            - PhisSignal.at_ (PhisSignal._par s) 1 >=? lit 0) eqn:G;
    cbn [PhisSignal._par PhisSignal.N PhisSignal.A PhisSignal.B PhisSignal.C
         PhisSignal.D]; rewrite E;
    cbn [PhisSignal._par PhisSignal.N PhisSignal.A PhisSignal.B PhisSignal.C
         PhisSignal.D]; rewrite G; reflexivity.
Qed.

(** X18. In every arithmetic, [Evaluate] reads the parameters 0, 1, 3, 4
    and 5 and the stored tables only: two functors that agree on these
    evaluate alike, whatever their other parameters are. *)
Theorem Evaluate_reads (B0sbar : bool) (s s' : PhisSignal.state)
    (time costheta_h costheta_l phi : T) :
  (forall i, In i [0; 1; 3; 4; 5]%nat ->
     PhisSignal.at_ (PhisSignal._par s) i = PhisSignal.at_ (PhisSignal._par s') i) ->
  PhisSignal.N s = PhisSignal.N s' -> PhisSignal.A s = PhisSignal.A s' ->
  PhisSignal.B s = PhisSignal.B s' -> PhisSignal.C s = PhisSignal.C s' ->
  PhisSignal.D s = PhisSignal.D s' ->
  PhisSignal.Evaluate B0sbar s time costheta_h costheta_l phi
  = PhisSignal.Evaluate B0sbar s' time costheta_h costheta_l phi.
Proof.
  intros Hp HN HA HB HC HD.
  unfold PhisSignal.Evaluate, PhisSignal.Sum, PhisSignal.Time_Factor. cbv zeta.
  rewrite HN, HA, HB, HC, HD.
  rewrite (Hp 0%nat), (Hp 1%nat), (Hp 3%nat), (Hp 4%nat), (Hp 5%nat) by (cbn; tauto).
  reflexivity.
Qed.

(** X19. In every arithmetic, a copy (copy constructor or [operator=])
    evaluates like the original at every point. *)
Theorem PhisSignal_copy_evaluates_alike (B0sbar same_object : bool)
    (this other : PhisSignal.state) (time costheta_h costheta_l phi : T) :
  (same_object = true -> this = other) ->
  PhisSignal.Evaluate B0sbar (PhisSignal_copy other) time costheta_h costheta_l phi
  = PhisSignal.Evaluate B0sbar other time costheta_h costheta_l phi /\
  PhisSignal.Evaluate B0sbar (PhisSignal_assign same_object this other)
    time costheta_h costheta_l phi
  = PhisSignal.Evaluate B0sbar other time costheta_h costheta_l phi.
Proof.
  intro Hsame.
  assert (Hcopy : PhisSignal.Evaluate B0sbar (PhisSignal_copy other)
                    time costheta_h costheta_l phi
                  = PhisSignal.Evaluate B0sbar other time costheta_h costheta_l phi).
  { unfold PhisSignal.Evaluate, PhisSignal.Sum, PhisSignal.Time_Factor, PhisSignal_copy.
    cbv zeta. cbn [PhisSignal._par PhisSignal.N PhisSignal.A PhisSignal.B PhisSignal.C
                   PhisSignal.D].
    reflexivity. }
  split; [exact Hcopy|].
  unfold PhisSignal_assign. destruct same_object; [|exact Hcopy].
  rewrite (Hsame eq_refl). reflexivity.
Qed.

End PhisSignalUpdate.

Section UpdateFrame.
Context {T : Type} {AT : Arith T} {PM : Parameters T}.
Local Open Scope dbl_scope.

Lemma Update_keeps_par (s : PhisSignal.state) :
  PhisSignal._par (PhisSignal.Update s) = PhisSignal._par s.
Proof.
  unfold PhisSignal.Update, PhisSignal.Update_NFactors. cbv zeta.
  match goal with |- context [if ?t then _ else _] => destruct t end;
    cbn [PhisSignal._par]; apply Update_ATCoefficients_frame.
Qed.

(** Two states with the same parameters get the same tables A, B, C, D. *)
Lemma Update_ATCoefficients_tables (s s' : PhisSignal.state) :
  PhisSignal._par s = PhisSignal._par s' ->
  PhisSignal.Update_ATCoefficients s
  = {| PhisSignal._par := PhisSignal._par s';
       PhisSignal.N := PhisSignal.N s;
       PhisSignal.A := PhisSignal.A (PhisSignal.Update_ATCoefficients s');
       PhisSignal.B := PhisSignal.B (PhisSignal.Update_ATCoefficients s');
       PhisSignal.C := PhisSignal.C (PhisSignal.Update_ATCoefficients s');
       PhisSignal.D := PhisSignal.D (PhisSignal.Update_ATCoefficients s') |}.
Proof.
  intro Hp. unfold PhisSignal.Update_ATCoefficients. rewrite Hp.
  destruct (ATCoefficients (PhisSignal._par s')) as [[[a b] c] d]. reflexivity.
Qed.

End UpdateFrame.

Section ConstructedFunctor.
Local Open Scope float_scope.

Lemma not_nan_sign x : is_nan x = false -> (zero <=? x) = true \/ (x <? zero) = true.
Proof.
  rewrite FloatAxioms.ltb_spec, FloatAxioms.leb_spec, is_nan_SF, Prim2SF_zero.
  destruct (Prim2SF x) as [s| s| |s m e]; try (destruct s); cbn; auto; discriminate.
Qed.

Context {LM : Libm float} {PM : Parameters float}.

(** X17. In double precision: unless A_par^2 = 1 - Hs[0] - Hs[1] is NaN,
    the value of a freshly constructed functor does not depend on what its
    tables held before the constructor ran; [Update_NFactors] skips the
    table N exactly when [Evaluate] returns 0 without reading it. *)
Theorem PhisSignal_ctor_initialised (B0sbar : bool) (Hs : list float)
    (uninit uninit' : PhisSignal.state) (time costheta_h costheta_l phi : float) :
  is_nan (1 - PhisSignal.at_ Hs 0 - PhisSignal.at_ Hs 1) = false ->
  PhisSignal.Evaluate B0sbar (PhisSignal_ctor Hs uninit) time costheta_h costheta_l phi
  = PhisSignal.Evaluate B0sbar (PhisSignal_ctor Hs uninit') time costheta_h costheta_l phi.
Proof.
  intro Hnan.
  set (par := map (PhisSignal.at_ Hs) (seq 0 17)).
  set (s0 := fun u : PhisSignal.state =>
               {| PhisSignal._par := par; PhisSignal.N := PhisSignal.N u;
                  PhisSignal.A := PhisSignal.A u; PhisSignal.B := PhisSignal.B u;
                  PhisSignal.C := PhisSignal.C u; PhisSignal.D := PhisSignal.D u |}).
  change (PhisSignal_ctor Hs uninit) with (PhisSignal.Update (s0 uninit)).
  change (PhisSignal_ctor Hs uninit') with (PhisSignal.Update (s0 uninit')).
  assert (H0 : PhisSignal.at_ par 0 = PhisSignal.at_ Hs 0) by reflexivity.
  assert (H1 : PhisSignal.at_ par 1 = PhisSignal.at_ Hs 1) by reflexivity.
  destruct (not_nan_sign _ Hnan) as [Hge|Hlt].
  - assert (Hat : forall u, PhisSignal.Update_ATCoefficients (s0 u)
                = {| PhisSignal._par := par; PhisSignal.N := PhisSignal.N u;
                     PhisSignal.A := PhisSignal.A (PhisSignal.Update_ATCoefficients (s0 uninit));
                     PhisSignal.B := PhisSignal.B (PhisSignal.Update_ATCoefficients (s0 uninit));
                     PhisSignal.C := PhisSignal.C (PhisSignal.Update_ATCoefficients (s0 uninit));
                     PhisSignal.D := PhisSignal.D (PhisSignal.Update_ATCoefficients (s0 uninit))
                  |}).
    { intro u. apply (Update_ATCoefficients_tables (s0 u) (s0 uninit) eq_refl). }
    assert (Hst : PhisSignal.Update (s0 uninit') = PhisSignal.Update (s0 uninit)).
    { unfold PhisSignal.Update. rewrite (Hat uninit'), (Hat uninit).
      unfold PhisSignal.Update_NFactors. cbv zeta.
      cbn [PhisSignal._par PhisSignal.N PhisSignal.A PhisSignal.B PhisSignal.C
           PhisSignal.D].
      rewrite H0, H1. cbn [lit d_leb d_sub binary64].
      change (Q2F 1) with 1. change (Q2F 0) with zero. rewrite Hge. reflexivity. }
    rewrite Hst. reflexivity.
  - unfold PhisSignal.Evaluate. cbv zeta. rewrite !Update_keeps_par.
    cbn [PhisSignal._par s0]. rewrite H0, H1.
    cbn [lit d_ltb d_sub binary64]. change (Q2F 1) with 1. change (Q2F 0) with zero.
    rewrite Hlt. reflexivity.
Qed.

End ConstructedFunctor.

Section Binary64Witnesses.
Local Open Scope float_scope.

Lemma CSplineEval_nan_witness :
  is_nan nan = true /\
  is_nan (CubicSpline.CSplineEval 2
            (CubicSpline.CubicSpline 2 [0; 1] [1; 2; 3; 4] 0) nan) = true.
Proof.
  split; [reflexivity|].
  apply (@CSplineEval_nan 2 (CubicSpline.CubicSpline 2 [0; 1] [1; 2; 3; 4] 0) nan).
  reflexivity.
Defined.

Lemma CubicSpline_repeated_knot_witness :
  is_finite (CubicSpline.GetOverCoeff
               (CubicSpline.CubicSpline 3 [0; 1; 1] [1; 2; 3; 4; 5] 0) 0 1) = false.
Proof.
  apply (@CubicSpline_repeated_knot 3 [0; 1; 1] [1; 2; 3; 4; 5] 0 1 0);
    [lia|lia|reflexivity].
Defined.

Lemma CubicSpline_copy_evaluates_alike_witness :
  let s := CubicSpline.CubicSpline 2 [0; 1] [1; 2; 3; 4] 0 in
  CubicSpline.CSplineEval 2 (CubicSpline_copy 2 s) 0.5
  = CubicSpline.CSplineEval 2 s 0.5.
Proof.
  cbv zeta.
  refine (proj1 (@CubicSpline_copy_evaluates_alike float binary64 2 false
                   (CubicSpline.CubicSpline 2 [0; 1] [1; 2; 3; 4] 0)
                   (CubicSpline.CubicSpline 2 [0; 1] [1; 2; 3; 4] 0) 0.5 _ _)).
  - lia.
  - discriminate.
Defined.

Lemma PhisSignal_ctor_initialised_witness :
  is_nan (1 - 0.5 - 0.25) = false /\
  (forall (LM : Libm float) (PM : Parameters float) (B0sbar : bool)
          (rest : list float) (uninit uninit' : PhisSignal.state)
          (time costheta_h costheta_l phi : float),
     PhisSignal.Evaluate B0sbar (PhisSignal_ctor (0.5 :: 0.25 :: rest) uninit)
       time costheta_h costheta_l phi
     = PhisSignal.Evaluate B0sbar (PhisSignal_ctor (0.5 :: 0.25 :: rest) uninit')
         time costheta_h costheta_l phi).
Proof.
  split; [reflexivity|]. intros.
  apply (@PhisSignal_ctor_initialised LM PM). reflexivity.
Defined.

Lemma Evaluate_reads_witness :
  (forall i, In i [0; 1; 3; 4; 5]%nat ->
     PhisSignal.at_ [0.5; 0.25; 0.125; 1; 0.5; 17; 0; 0] i
     = PhisSignal.at_ [0.5; 0.25; 0.375; 1; 0.5; 17; 1; 2] i) /\
  (forall (LM : Libm float) (PM : Parameters float) (B0sbar : bool)
          (N A B C D : list float) (time costheta_h costheta_l phi : float),
     PhisSignal.Evaluate B0sbar
       {| PhisSignal._par := [0.5; 0.25; 0.125; 1; 0.5; 17; 0; 0];
          PhisSignal.N := N; PhisSignal.A := A; PhisSignal.B := B;
          PhisSignal.C := C; PhisSignal.D := D |} time costheta_h costheta_l phi
     = PhisSignal.Evaluate B0sbar
         {| PhisSignal._par := [0.5; 0.25; 0.375; 1; 0.5; 17; 1; 2];
            PhisSignal.N := N; PhisSignal.A := A; PhisSignal.B := B;
            PhisSignal.C := C; PhisSignal.D := D |} time costheta_h costheta_l phi).
Proof.
  assert (H : forall i, In i [0; 1; 3; 4; 5]%nat ->
            PhisSignal.at_ [0.5; 0.25; 0.125; 1; 0.5; 17; 0; 0] i
            = PhisSignal.at_ [0.5; 0.25; 0.375; 1; 0.5; 17; 1; 2] i).
  { intros i Hi. cbn in Hi. destruct Hi as [<-|[<-|[<-|[<-|[<-|[]]]]]]; reflexivity. }
  split; [exact H|]. intros.
  apply (@Evaluate_reads float binary64 LM PM); try reflexivity. exact H.
Defined.

Lemma PhisSignal_copy_evaluates_alike_witness :
  (forall this other : @PhisSignal.state float, false = true -> this = other) /\
  (forall (LM : Libm float) (PM : Parameters float) (B0sbar : bool)
          (s : PhisSignal.state) (time costheta_h costheta_l phi : float),
     PhisSignal.Evaluate B0sbar (PhisSignal_copy s) time costheta_h costheta_l phi
     = PhisSignal.Evaluate B0sbar s time costheta_h costheta_l phi).
Proof.
  split; [discriminate|]. intros.
  refine (proj1 (@PhisSignal_copy_evaluates_alike float binary64 LM PM B0sbar false
                   s s time costheta_h costheta_l phi _)).
  discriminate.
Defined.

End Binary64Witnesses.

(** ** The cos/sin kernels on the real axis *)

Section RealAxis.
Local Open Scope R_scope.
Variable cerfc : R * R -> R * R.
Hypothesis cerfc_real : forall x, cerfc (x, 0) = (Rerfc x, 0).

Let CO : ComplexOps R (R * R) := exact_complex cerfc.
#[local] Existing Instance CO.

Lemma pair_eq (a b c d : R) : a = c -> b = d -> (a, b) = (c, d).
Proof. intros -> ->. reflexivity. Qed.

Lemma real_of_real (x : R) : c_of_real x = (x, 0).
Proof. reflexivity. Qed.

Lemma real_mk (x y : R) : c_mk x y = (x, y).
Proof. reflexivity. Qed.

Lemma real_mul (x y : R) : ((x, 0) * (y, 0))%cplx = (x * y, 0).
Proof. cbn. apply pair_eq; ring. Qed.

Lemma real_add (x y : R) : ((x, 0) + (y, 0))%cplx = (x + y, 0).
Proof. cbn. apply pair_eq; ring. Qed.

Lemma real_sub (x y : R) : ((x, 0) - (y, 0))%cplx = (x - y, 0).
Proof. cbn. apply pair_eq; ring. Qed.

Lemma real_exp (x : R) : c_exp (x, 0) = (exp x, 0).
Proof. cbn. rewrite cos_0, sin_0. apply pair_eq; ring. Qed.

Lemma real_erfc (x : R) : c_erfc (x, 0) = (Rerfc x, 0).
Proof. apply cerfc_real. Qed.

Lemma real_div (x y : R) : y <> 0 -> ((x, 0) / (y, 0))%cplx = (x / y, 0).
Proof. intro Hy. cbn. apply pair_eq; field; exact Hy. Qed.

Lemma zero_div_I : ((0, 0) / (0, 1))%cplx = (0, 0).
Proof. cbn. apply pair_eq; field. Qed.

(** On the real axis the complex term f(z) is the real one. *)
Lemma complex_term_real (z x : R) :
  let zc : R * R := (z, 0) in
  (c_exp (zc * zc - c_of_real (Q2R 2) * zc * c_of_real x) * c_erfc (zc - c_of_real x))%cplx
  = (exp (z * z - Q2R 2 * z * x) * Rerfc (z - x), 0).
Proof.
  cbv zeta. rewrite !real_of_real, !real_mul, !real_sub, real_exp, real_erfc, real_mul.
  reflexivity.
Qed.

(** X20. In exact arithmetic, with the complex numbers as pairs of reals
    and any complex erfc that agrees with the real erfc on the real axis: at
    b = 0 the cos/sin kernels coincide with the cosh/sinh kernels (the sin and
    sinh forms being 0), pointwise for every tag and integrated when
    a*sigma <> 0. *)
Theorem sincos_kernels_at_b_zero (time a mu sigma LowerLimit UpperLimit : R) (tag : Z) :
  Convoluted_exp_sincos time a 0 mu sigma tag
  = functions.Convoluted_exp_sinhcosh time a 0 mu sigma tag /\
  (a * sigma <> 0 ->
   functions.Integrated_convoluted_exp_sincos time a 0 mu sigma LowerLimit UpperLimit tag
   = functions.Integrated_convoluted_exp_sinhcosh time a 0 mu sigma
       LowerLimit UpperLimit tag).
Proof.
  pose proof sqrt2_pos as H2.
  assert (H00 : Q2R 0.0 = 0) by (unfold Q2R; cbn; lra).
  assert (H10 : Q2R 1.0 = 1) by (unfold Q2R; cbn; lra).
  set (z := a * sigma / sqrt 2).
  assert (Z1 : (a - 0) * sigma / sqrt 2 = z) by (unfold z, Rdiv; ring).
  assert (Z2 : (a + 0) * sigma / sqrt 2 = z) by (unfold z, Rdiv; ring).
  assert (N0 : - 0 * sigma / sqrt 2 = 0) by (unfold Rdiv; ring).
  assert (P0 : 0 * sigma / sqrt 2 = 0) by (unfold Rdiv; ring).
  split.
  - unfold Convoluted_exp_sincos, functions.Convoluted_exp_sinhcosh. cbv zeta. to_reals.
    rewrite Z1, Z2, N0, P0, !real_mk. fold z.
    rewrite !(complex_term_real z).
    destruct (0 <? tag)%Z; destruct (tag <? 0)%Z;
      cbn [c_real c_sub c_add c_div c_of_real CO exact_complex fst snd];
      rewrite ?H00, ?H10, ?RMicromega.Q2R_0; field.
  - intro Haz.
    assert (Hz : z <> 0).
    { unfold z, Rdiv. apply Rmult_integral_contrapositive_currified; [exact Haz|].
      apply Rinv_neq_0_compat. lra. }
    unfold functions.Integrated_convoluted_exp_sincos,
      functions.Integrated_convoluted_exp_sinhcosh. cbv zeta. to_reals.
    rewrite Z1, Z2, N0, P0, !real_mk. fold z.
    rewrite !(complex_term_real z), !real_of_real, !real_sub.
    rewrite !(real_div _ Hz).
    destruct (0 <? tag)%Z; destruct (tag <? 0)%Z;
      cbn [c_real c_sub c_add c_div c_of_real CO exact_complex fst snd];
      rewrite ?H00, ?H10, ?RMicromega.Q2R_0; field; exact Hz.
Qed.

End RealAxis.

Section RealAxisWitness.
Local Open Scope R_scope.

Lemma sincos_kernels_at_b_zero_witness :
  let cerfc := fun z : R * R => (Rerfc (fst z), 0) in
  (forall x, cerfc (x, 0) = (Rerfc x, 0)) /\
  Convoluted_exp_sincos (CO := exact_complex cerfc) 0 1 0 0 1 1
  = functions.Convoluted_exp_sinhcosh 0 1 0 0 1 1.
Proof.
  cbv zeta.
  assert (H : forall x, (fun z : R * R => (Rerfc (fst z), 0)) (x, 0) = (Rerfc x, 0))
    by reflexivity.
  split; [exact H|].
  exact (proj1 (@sincos_kernels_at_b_zero (fun z : R * R => (Rerfc (fst z), 0)) H
                  0 1 0 1 0 0 1)).
Defined.

End RealAxisWitness.
